(** * Right-truncatable prime counter: the two programs of the repository

    The repository holds two programs that count right-truncatable primes:
    the C program [count_primes.c], whose membership index is a chained hash
    set, and its optimised C++ successor, whose membership index is a dense
    [std::vector<bool>].  Both are embedded below, function by function, and
    the properties of the membership index, the digit window, the truncation
    loop and the drivers are proved about the embedded code. *)

From Stdlib Require Import ZArith Lia Znumtheory String Ascii DecimalString.
From stdpp Require Import base list list_numbers sorting.
From Equations Require Import Equations.

Open Scope Z_scope.

(** * Machine integers *)

(** [unsigned long long], [size_t] and [uint64_t] are 64-bit unsigned
    integers: a [Z] reduced modulo [2^64] after every operation that can leave
    the range. *)
Definition wrap64 (z : Z) : Z := z mod 2 ^ 64.

(** * The prime source *)

(** Trial division: [n] has no divisor [d] with [from <= d] and [d * d <= n].
    The third argument bounds the number of candidates still to try. *)
Fixpoint no_divisor (n from : Z) (candidates : nat) : bool :=
  match candidates with
  | O => true
  | S candidates' =>
      if n <? from * from then true
      else if n mod from =? 0 then false
      else no_divisor n (from + 1) candidates'
  end.

Definition is_prime (n : Z) : bool :=
  (1 <? n) && no_divisor n 2 (Z.to_nat (Z.sqrt n)).

(** The contract of the prime source, [primesieve_generate_primes(start, stop)]
    of the primesieve library: every prime of [[start, stop]], ascending.  The
    library is not part of the repository; the programs are verified against
    this contract. *)
Definition primes_between (start stop : Z) : list Z :=
  filter (fun v => is_prime v = true) (seqZ start (stop - start + 1)).

(** * Right-truncatable primes, generated digit by digit *)

(** The numbers obtained from [p] by appending one decimal digit. *)
Definition extensions (p : Z) : list Z :=
  (fun d => 10 * p + d) <$> seqZ 0 10.

(** [rt_primes k] lists the right-truncatable primes of exactly [k] digits:
    the primes among the one-digit extensions of those with [k - 1] digits.
    [rt_primes 0] is the empty prefix, the number 0. *)
Fixpoint rt_primes (k : nat) : list Z :=
  match k with
  | O => [0]
  | S k' => filter (fun v => is_prime v = true) (rt_primes k' ≫= extensions)
  end.

(** The number of right-truncatable primes of [k] digits. *)
Definition rt_count (k : Z) : Z := Z.of_nat (length (rt_primes (Z.to_nat k))).

(** * The machine: allocation outcomes, output, undefined behaviour *)

(** What the programs receive from outside: whether the n-th allocation
    request succeeds, the primesieve call (the array it returns, or [None]
    for a NULL result) and the C library's [atoi]. *)
Record environment := {
  malloc_ok : nat -> bool;
  primesieve_generate_primes : Z -> Z -> option (list Z);
  atoi : string -> Z
}.

Inductive event :=
| Stdout (text : string)        (* printf *)
| Stderr (text : string)        (* fprintf(stderr, ...) *)
| Perror (prefix : string)      (* perror: the prefix, then the system's text *)
| Generate (start stop : Z)     (* a call of primesieve_generate_primes *)
| Elapsed (granularity : string). (* "Execution time: <measured> <granularity>" *)

Record machine := {
  allocations : nat;            (* allocation requests made so far *)
  output : list event           (* events so far, oldest first *)
}.

(** A run either ends with a value and a machine state or performs an
    operation the language leaves undefined (an access outside a vector). *)
Inductive result (A : Type) :=
| Undefined
| Done (value : A) (m : machine).
Arguments Undefined {A}.
Arguments Done {A} value m.

Definition M (A : Type) : Type := machine -> result A.

Definition ret {A} (a : A) : M A := fun m => Done a m.

Definition bind {A B} (c : M A) (k : A -> M B) : M B :=
  fun m => match c m with
           | Undefined => Undefined
           | Done a m' => k a m'
           end.

Notation "'let*' x ':=' c 'in' k" := (bind c (fun x => k))
  (at level 10, x pattern, c at level 100, k at level 200).

Definition undefined {A} : M A := fun _ => Undefined.

Definition lift {A} (o : option A) : M A :=
  match o with
  | Some a => ret a
  | None => undefined
  end.

Definition emit (e : event) : M unit :=
  fun m => Done tt {| allocations := allocations m; output := output m ++ [e] |}.

(** One request to [malloc] or [calloc]: its outcome is the environment's. *)
Definition allocate (env : environment) : M bool :=
  fun m => Done (malloc_ok env (allocations m))
                {| allocations := S (allocations m); output := output m |}.

(** * Text *)

Definition nl : string := String (ascii_of_nat 10) EmptyString.

(** The conversions [%d], [%llu] and [%zu] of printf. *)
Definition dec (z : Z) : string := NilZero.string_of_int (Z.to_int z).

Definition digits_range_error : string :=
  ("Error: digits must be between 1 and 19 for unsigned long long." ++ nl)%string.

Definition usage (argv0 : string) : string :=
  ("Usage: " ++ argv0 ++ " <number_of_digits>" ++ nl)%string.

(** * Code shared by the two programs *)

(** [power_of_10]: the same function in both files. *)
Definition power_of_10 (exp : Z) : Z :=
  Nat.iter (Z.to_nat exp) (fun res => wrap64 (res * 10)) 1.

(** The termination measure of the truncation loop: the bit length. *)
Definition bit_length (v : Z) : nat := Z.to_nat (Z.log2 (2 * v)).

(** The truncation loop, the same in both programs up to the membership
    query [contains]:
<<
    int is_r_truncatable = 1;
    unsigned long long temp_prime = current_prime;
    while (temp_prime > 0) {
        if (!contains(temp_prime)) { is_r_truncatable = 0; break; }
        temp_prime /= 10;
    }
>>
    The result is [is_r_truncatable] together with the values submitted to
    the membership query, in order; [None] when a query is undefined. *)
Equations? truncation_loop (contains : Z -> option bool) (temp_prime : Z)
  : option (bool * list Z) by wf (bit_length temp_prime) lt :=
  truncation_loop contains temp_prime with Z_lt_dec 0 temp_prime => {
    | right _ := Some (true, []);
    | left _ with contains temp_prime => {
        | None := None;
        | Some false := Some (false, [temp_prime]);
        | Some true with truncation_loop contains (temp_prime / 10) => {
            | None := None;
            | Some (is_r_truncatable, queried) :=
                Some (is_r_truncatable, temp_prime :: queried) } } }.
Proof.
  (* each division by ten shortens the binary representation *)
  rename l into Hv. unfold bit_length.
  assert (Hhalf : temp_prime / 10 <= temp_prime / 2)
    by (apply Z.div_le_compat_l; lia).
  assert (Hnn : 0 <= temp_prime / 10) by (apply Z.div_pos; lia).
  pose proof (Z.log2_nonneg temp_prime) as Hlog.
  rewrite (Z.log2_double temp_prime) by lia.
  destruct (Z.eq_dec (temp_prime / 10) 0) as [->|Hne]; [simpl; lia|].
  rewrite Z.log2_double by lia.
  assert (Hten : 10 <= temp_prime).
  { destruct (Z_lt_dec temp_prime 10); [|lia]. rewrite Z.div_small in Hne; lia. }
  assert (Z.log2 (temp_prime / 10) < Z.log2 temp_prime);
    [|pose proof (Z.log2_nonneg (temp_prime / 10)); lia].
  apply Z.le_lt_trans with (Z.log2 (temp_prime / 2));
    [apply Z.log2_le_mono; lia|].
  assert (Hpar : temp_prime = 2 * (temp_prime / 2)
                 \/ temp_prime = 2 * (temp_prime / 2) + 1)
    by (pose proof (Z.div_mod temp_prime 2);
        pose proof (Z.mod_pos_bound temp_prime 2); lia).
  destruct Hpar as [E|E]; rewrite E at 2.
  - rewrite Z.log2_double; lia.
  - rewrite Z.log2_succ_double; lia.
Qed.

(** * The C program: chained hash set *)

Module Hash.

(** [node_t] chains are lists of values, head first; a table is its bucket
    array together with the [size] and [count] fields.  The [int] counters
    of the program are integers without wrap-around: [rt_count_bound] shows
    that the counts stay below 17. *)
Record hash_table_t := {
  size : Z;
  count : Z;
  buckets : list (list Z)
}.

Definition hash_ull (key table_size : Z) : Z :=
  let key := wrap64 (Z.lnot key + Z.shiftl key 21) in
  let key := Z.lxor key (Z.shiftr key 24) in
  let key := wrap64 ((key + Z.shiftl key 3) + Z.shiftl key 8) in
  let key := Z.lxor key (Z.shiftr key 14) in
  let key := wrap64 ((key + Z.shiftl key 2) + Z.shiftl key 4) in
  let key := Z.lxor key (Z.shiftr key 28) in
  let key := wrap64 (key + Z.shiftl key 31) in
  key mod table_size.

(** The walk along a chain shared by [hash_table_add] and
    [hash_table_contains]: is [value] stored in a node of [current]? *)
Fixpoint chain_search (current : list Z) (value : Z) : bool :=
  match current with
  | [] => false
  | node_value :: next =>
      if node_value =? value then true else chain_search next value
  end.

(** [hash_table_destroy] hands every node of every chain, then the bucket
    array, then the table itself to [free]; its value here is the number of
    blocks released.  The inner loop over one chain: *)
Fixpoint free_chain (current : list Z) : nat :=
  match current with
  | [] => O
  | _ :: next => S (free_chain next)
  end.

Definition hash_table_destroy (ht : option hash_table_t) : nat :=
  match ht with
  | None => O
  | Some t =>
      (foldr (fun chain released => free_chain chain + released) O
         (take (Z.to_nat (size t)) (buckets t)) + 2)%nat
  end.

(** The loop of [count_digits], [while (temp > 0) { temp /= 10; count++; }]. *)
Equations? count_digits_loop (temp count : Z) : Z by wf (bit_length temp) lt :=
  count_digits_loop temp count with Z_lt_dec 0 temp => {
    | left _ := count_digits_loop (temp / 10) (count + 1);
    | right _ := count }.
Proof.
  rename l into Hv. unfold bit_length.
  assert (Hnn : 0 <= temp / 10) by (apply Z.div_pos; lia).
  assert (Hhalf : temp / 10 <= temp / 2) by (apply Z.div_le_compat_l; lia).
  pose proof (Z.log2_nonneg temp) as Hlog.
  rewrite (Z.log2_double temp) by lia.
  destruct (Z.eq_dec (temp / 10) 0) as [->|Hne]; [simpl; lia|].
  rewrite Z.log2_double by lia.
  assert (Hlt : Z.log2 (temp / 2) < Z.log2 temp).
  { assert (Hpar : temp = 2 * (temp / 2) \/ temp = 2 * (temp / 2) + 1)
      by (pose proof (Z.div_mod temp 2); pose proof (Z.mod_pos_bound temp 2); lia).
    assert (0 < temp / 2) by lia.
    destruct Hpar as [E|E]; rewrite E at 2;
      [rewrite Z.log2_double|rewrite Z.log2_succ_double]; lia. }
  pose proof (Z.log2_le_mono (temp / 10) (temp / 2) Hhalf).
  pose proof (Z.log2_nonneg (temp / 10)). lia.
Qed.

Definition count_digits (num : Z) : Z :=
  if num =? 0 then 1 else count_digits_loop num 0.

Section Program.
Variable env : environment.

(** A pointer to a table is [Some] table, NULL is [None]. *)
Definition hash_table_create (table_size : Z) : M (option hash_table_t) :=
  let* ht_ok := allocate env in
  if negb ht_ok then
    let* _ := emit (Perror "Failed to allocate hash table") in
    ret None
  else
    let* buckets_ok := allocate env in
    if negb buckets_ok then
      let* _ := emit (Perror "Failed to allocate hash table buckets") in
      ret None
    else
      ret (Some {| size := table_size; count := 0;
                   buckets := replicate (Z.to_nat table_size) [] |}).

(** The [int] results 1 and 0 are the booleans; the table after the call is
    returned next to the result. *)
Definition hash_table_add (ht : option hash_table_t) (value : Z)
  : M (bool * option hash_table_t) :=
  match ht with
  | None => ret (false, None)
  | Some t =>
      let index := hash_ull value (size t) in
      let current := buckets t !!! Z.to_nat index in
      if chain_search current value then ret (true, Some t)
      else
        let* node_ok := allocate env in
        if negb node_ok then
          let* _ := emit (Perror "Failed to allocate hash table node") in
          ret (false, Some t)
        else
          ret (true,
               Some {| size := size t;
                       count := wrap64 (count t + 1);
                       buckets := <[Z.to_nat index := value :: current]> (buckets t) |})
  end.

Definition hash_table_contains (ht : option hash_table_t) (value : Z) : bool :=
  match ht with
  | None => false
  | Some t =>
      let index := hash_ull value (size t) in
      chain_search (buckets t !!! Z.to_nat index) value
  end.

(** Step 2 of [count_right_trunc_primes], the loop that adds every generated
    prime: the table, or the prime whose insertion failed. *)
Fixpoint populate (prime_hash_set : option hash_table_t) (all_primes_array : list Z)
  : M (Z + option hash_table_t) :=
  match all_primes_array with
  | [] => ret (inr prime_hash_set)
  | p :: rest =>
      let* (added, prime_hash_set') := hash_table_add prime_hash_set p in
      if negb added then ret (inl p)
      else populate prime_hash_set' rest
  end.

(** Step 3, the loop over the array: primes outside the window of the digit
    length are skipped, [body] is run on the others.  (Step 4 releases the
    table and the array and has no effect on the result.) *)
Fixpoint for_each_in_window {S : Type} (body : Z -> S -> M S)
    (current_digits_start current_digits_end : Z)
    (all_primes_array : list Z) (s : S) : M S :=
  match all_primes_array with
  | [] => ret s
  | current_prime :: rest =>
      if (current_prime <? current_digits_start)
         || (current_digits_end <? current_prime)
      then for_each_in_window body current_digits_start current_digits_end rest s
      else
        let* s' := body current_prime s in
        for_each_in_window body current_digits_start current_digits_end rest s'
  end.

(** The body of that loop: the truncation check and the counter. *)
Definition check_candidate (prime_hash_set : option hash_table_t)
    (current_prime : Z) (right_truncatable_count : Z) : M Z :=
  let* (is_r_truncatable, _) :=
    lift (truncation_loop
            (fun v => Some (hash_table_contains prime_hash_set v)) current_prime) in
  ret (if is_r_truncatable then right_truncatable_count + 1
       else right_truncatable_count).

Definition count_right_trunc_primes (digits : Z) : M Z :=
  if (digits <? 1) || (19 <? digits) then
    let* _ := emit (Stderr digits_range_error) in
    ret (-1)
  else
    let MAX_END := wrap64 (power_of_10 digits - 1) in
    let MIN_START := 2 in
    let* _ := emit (Generate MIN_START MAX_END) in
    match primesieve_generate_primes env MIN_START MAX_END with
    | None =>
        let* _ := emit (Stderr ("Error: primesieve_generate_primes for all primes returned NULL." ++ nl)%string) in
        ret (-1)
    | Some all_primes_array =>
        let all_primes_count := Z.of_nat (length all_primes_array) in
        let initial_hash_table_size :=
          if all_primes_count =? 0 then 17 else wrap64 (all_primes_count * 2) in
        let* prime_hash_set := hash_table_create initial_hash_table_size in
        match prime_hash_set with
        | None =>
            let* _ := emit (Stderr ("Error creating hash set." ++ nl)%string) in
            ret (-1)
        | Some _ =>
            let* populated := populate prime_hash_set all_primes_array in
            match populated with
            | inl p =>
                let* _ := emit (Stderr ("Error adding prime to hash set: " ++ dec p ++ nl)%string) in
                ret (-1)
            | inr prime_hash_set =>
                let current_digits_start := power_of_10 (digits - 1) in
                let current_digits_end := wrap64 (power_of_10 digits - 1) in
                for_each_in_window (check_candidate prime_hash_set)
                  current_digits_start current_digits_end all_primes_array 0
            end
        end
    end.

(** The summing loop of [main], [for (int i = 1; i <= digits; ++i)], with
    the number of iterations left; [None] when a count failed. *)
Fixpoint sum_counts (iterations : nat) (i : Z) (total_count : Z) : M (option Z) :=
  match iterations with
  | O => ret (Some total_count)
  | S iterations' =>
      let* count := count_right_trunc_primes i in
      if count <? 0 then
        let* _ := emit (Stderr ("Error counting right-truncatable primes for " ++ dec i ++ " digits." ++ nl)%string) in
        ret None
      else sum_counts iterations' (i + 1) (wrap64 (total_count + count))
  end.

Definition count_line (digits result : Z) : string :=
  ("Number of " ++ dec digits ++ "-digit right-truncatable primes: " ++ dec result ++ nl)%string.

Definition total_line (digits total_count : Z) : string :=
  ("Total number of right-truncatable primes up to " ++ dec digits ++ " digits: " ++ dec total_count ++ nl)%string.

(** [main]: its value is the exit status. *)
Definition main (argv : list string) : M Z :=
  let argc := Z.of_nat (length argv) in
  if negb (argc =? 2) then
    let* _ := emit (Stderr (usage (nth 0 argv ""%string))) in
    ret 1
  else
    let digits := atoi env (nth 1 argv ""%string) in
    if (digits <? 1) || (19 <? digits) then
      let* _ := emit (Stderr digits_range_error) in
      ret 1
    else
      let* result := count_right_trunc_primes digits in
      if result <? 0 then
        let* _ := emit (Stderr ("Error counting right-truncatable primes." ++ nl)%string) in
        ret 1
      else
        let* _ := emit (Stdout (count_line digits result)) in
        let* total := sum_counts (Z.to_nat digits) 1 0 in
        match total with
        | None => ret 1
        | Some total_count =>
            let* _ := emit (Stdout (total_line digits total_count)) in
            ret 0
        end.

End Program.
End Hash.

(** * The C++ program: dense bit table, one generation pass *)

Module Bitset.

(** [std::vector]'s [operator[]] is defined inside the vector only. *)
Definition vector_get {A : Type} (v : list A) (i : Z) : option A :=
  if 0 <=? i then v !! Z.to_nat i else None.

Definition vector_set {A : Type} (v : list A) (i : Z) (x : A) : option (list A) :=
  if (0 <=? i) && (i <? Z.of_nat (length v)) then Some (<[Z.to_nat i := x]> v)
  else None.

(** The membership query of the truncation loop.  The source breaks out of
    the loop on [temp_prime >= prime_bitset.size() || !prime_bitset[temp_prime]];
    [bitset_contains] is the negation of that condition, so the vector is
    read only when the first disjunct is false. *)
Definition bitset_contains (prime_bitset : list bool) (temp_prime : Z) : option bool :=
  if Z.of_nat (length prime_bitset) <=? temp_prime then Some false
  else vector_get prime_bitset temp_prime.

(** The loop over the sorted array: primes below the window are skipped, the
    first prime above it ends the loop, [body] is run on the others. *)
Fixpoint for_each_in_window {S : Type} (body : Z -> S -> M S)
    (current_digits_start current_digits_end : Z)
    (all_primes_array : list Z) (s : S) : M S :=
  match all_primes_array with
  | [] => ret s
  | current_prime :: rest =>
      if current_prime <? current_digits_start
      then for_each_in_window body current_digits_start current_digits_end rest s
      else if current_digits_end <? current_prime then ret s
      else
        let* s' := body current_prime s in
        for_each_in_window body current_digits_start current_digits_end rest s'
  end.

(** The body of that loop; the state is the counter and [primes_per_digit]. *)
Definition check_candidate (prime_bitset : list bool) (digits : Z)
    (current_prime : Z) (s : Z * list Z) : M (Z * list Z) :=
  let '(right_truncatable_count, primes_per_digit) := s in
  let* n := lift (vector_get primes_per_digit digits) in
  let* primes_per_digit := lift (vector_set primes_per_digit digits (wrap64 (n + 1))) in
  let* (is_r_truncatable, _) :=
    lift (truncation_loop (bitset_contains prime_bitset) current_prime) in
  ret (if is_r_truncatable then right_truncatable_count + 1
       else right_truncatable_count,
       primes_per_digit).

(** The result is the returned count and [primes_per_digit] after the call. *)
Definition count_right_trunc_primes (all_primes_array : list Z)
    (primes_per_digit : list Z) (prime_bitset : list bool) (digits : Z)
  : M (Z * list Z) :=
  if (digits <? 1) || (19 <? digits) then
    let* _ := emit (Stderr digits_range_error) in
    ret (-1, primes_per_digit)
  else
    let* primes_per_digit := lift (vector_set primes_per_digit digits 0) in
    let current_digits_start := power_of_10 (digits - 1) in
    let current_digits_end := wrap64 (power_of_10 digits - 1) in
    for_each_in_window (check_candidate prime_bitset digits)
      current_digits_start current_digits_end all_primes_array (0, primes_per_digit).

(** Step 2 of [main]: [prime_bitset[all_primes_array[i]] = true]. *)
Fixpoint mark_primes (prime_bitset : list bool) (all_primes_array : list Z)
  : option (list bool) :=
  match all_primes_array with
  | [] => Some prime_bitset
  | p :: rest =>
      match vector_set prime_bitset p true with
      | None => None
      | Some prime_bitset' => mark_primes prime_bitset' rest
      end
  end.

Definition count_line (i count n : Z) : string :=
  ("Number of " ++ dec i ++ "-digit right-truncatable primes: " ++ dec count
     ++ " (n = " ++ dec n ++ ")" ++ nl)%string.

Definition total_line (digits total_count all_primes_count : Z) : string :=
  (nl ++ "Total number of right-truncatable primes up to " ++ dec digits
      ++ " digits: " ++ dec total_count ++ " (n = " ++ dec all_primes_count ++ ")"
      ++ nl ++ nl)%string.

(** The reporting loop of [main], [for (int i = digits; i > 0; i--)], by
    recursion on [i]; [None] when a count failed. *)
Fixpoint report_counts (all_primes_array : list Z) (prime_bitset : list bool)
    (i : nat) (primes_per_digit : list Z) (total_count : Z) : M (option Z) :=
  match i with
  | O => ret (Some total_count)
  | S i' =>
      let* (count, primes_per_digit) :=
        count_right_trunc_primes all_primes_array primes_per_digit prime_bitset
          (Z.of_nat i) in
      if count <? 0 then
        let* _ := emit (Stderr ("Error counting right-truncatable primes for " ++ dec (Z.of_nat i) ++ " digits." ++ nl)%string) in
        ret None
      else
        let total_count := total_count + count in
        let* n := lift (vector_get primes_per_digit (Z.of_nat i)) in
        let* _ := emit (Stdout (count_line (Z.of_nat i) count n)) in
        report_counts all_primes_array prime_bitset i' primes_per_digit total_count
  end.

Section Program.
Variable env : environment.

(** [main]: its value is the exit status. *)
Definition main (argv : list string) : M Z :=
  let argc := Z.of_nat (length argv) in
  if negb (argc =? 2) then
    let* _ := emit (Stderr (usage (nth 0 argv ""%string))) in
    ret 1
  else
    let digits := atoi env (nth 1 argv ""%string) in
    if (digits <? 1) || (19 <? digits) then
      let* _ := emit (Stderr digits_range_error) in
      ret 1
    else
      let MAX_END := wrap64 (power_of_10 digits - 1) in
      let MIN_START := 2 in
      let* _ := emit (Generate MIN_START MAX_END) in
      match primesieve_generate_primes env MIN_START MAX_END with
      | None =>
          let* _ := emit (Stderr ("Error generating primes." ++ nl)%string) in
          ret 1
      | Some all_primes_array =>
          let all_primes_count := Z.of_nat (length all_primes_array) in
          let* prime_bitset :=
            lift (mark_primes (replicate (Z.to_nat (wrap64 (MAX_END + 1))) false)
                              all_primes_array) in
          let primes_per_digit := replicate (Z.to_nat (digits + 1)) 0 in
          let* total := report_counts all_primes_array prime_bitset
                          (Z.to_nat digits) primes_per_digit 0 in
          match total with
          | None => ret 1
          | Some total_count =>
              let* _ := emit (Stdout (total_line digits total_count all_primes_count)) in
              let* _ := emit (Elapsed "milliseconds") in
              let* _ := emit (Elapsed "microseconds") in
              let* _ := emit (Elapsed "nanoseconds") in
              ret 0
          end
      end.

End Program.
End Bitset.

(** * A reference environment *)

(** [atoi] is the C library's.  [libc_atoi] is what glibc does,
    [(int) strtol (nptr, NULL, 10)]: white space is skipped, one sign is read,
    the leading digits are accumulated in a [long] that stops at [LONG_MIN]
    and [LONG_MAX], and the conversion to [int] keeps the low 32 bits. *)
Definition is_space (c : ascii) : bool :=
  let n := nat_of_ascii c in
  Nat.eqb n 32 || (Nat.leb 9 n && Nat.leb n 13).

Fixpoint skip_spaces (s : string) : string :=
  match s with
  | String c rest => if is_space c then skip_spaces rest else s
  | EmptyString => s
  end.

(** The value of the leading digits. *)
Fixpoint atoi_digits (s : string) (acc : Z) : Z :=
  match s with
  | EmptyString => acc
  | String c rest =>
      let d := Z.of_nat (nat_of_ascii c) - 48 in
      if (0 <=? d) && (d <=? 9) then atoi_digits rest (10 * acc + d) else acc
  end.

Definition strtol (nptr : string) : Z :=
  match skip_spaces nptr with
  | String "-" rest => Z.max (- atoi_digits rest 0) (- 2 ^ 63)
  | String "+" rest => Z.min (atoi_digits rest 0) (2 ^ 63 - 1)
  | s => Z.min (atoi_digits s 0) (2 ^ 63 - 1)
  end.

(** The conversion of a [long] to [int]. *)
Definition long_to_int (z : Z) : Z := (z + 2 ^ 31) mod 2 ^ 32 - 2 ^ 31.

Definition libc_atoi (nptr : string) : Z := long_to_int (strtol nptr).

(** Every allocation succeeds, the prime source keeps its contract, and
    [atoi] is [libc_atoi]. *)
Definition reference_environment : environment := {|
  malloc_ok := fun _ => true;
  primesieve_generate_primes := fun start stop => Some (primes_between start stop);
  atoi := libc_atoi
|}.

Definition initial_machine : machine := {| allocations := 0; output := [] |}.

Definition run {A} (c : M A) : result A := c initial_machine.

(** * Vocabulary of the properties *)

(** [truncation v j]: [v] with its [j] rightmost decimal digits removed. *)
Definition truncation (v : Z) (j : nat) : Z := v / 10 ^ Z.of_nat j.

(** The membership index reports true for every truncation of [v] that
    still has a digit. *)
Definition all_truncations_known (contains : Z -> option bool) (v : Z) : Prop :=
  forall j, 0 < truncation v j -> contains (truncation v j) = Some true.

(** What the loop has asked when it stops: truncations of [v] in order,
    starting with [v], all positive; every query before the last was
    answered true; the loop ended either on the first false answer or, all
    answers being true, when no digit was left. *)
Definition queries_of (contains : Z -> option bool) (v : Z)
    (is_r_truncatable : bool) (queried : list Z) : Prop :=
  queried = truncation v <$> seq 0 (length queried)
  /\ Forall (fun u => 0 < u) queried
  /\ if is_r_truncatable
     then Forall (fun u => contains u = Some true) queried
          /\ truncation v (length queried) = 0
     else exists passed failed,
          queried = passed ++ [failed]
          /\ Forall (fun u => contains u = Some true) passed
          /\ contains failed = Some false.

(** All values stored in a table, bucket after bucket. *)
Definition entries (t : Hash.hash_table_t) : list Z := mjoin (Hash.buckets t).

(** The shape every table built by the program has: a positive number of
    buckets, each value chained in the bucket its hash selects, no value
    stored twice, and [count] the number of stored values. *)
Record hash_table_inv (t : Hash.hash_table_t) : Prop := {
  inv_size : 0 < Hash.size t;
  inv_length : length (Hash.buckets t) = Z.to_nat (Hash.size t);
  inv_bucket : forall i chain v,
      Hash.buckets t !! i = Some chain -> v ∈ chain ->
      Z.to_nat (Hash.hash_ull v (Hash.size t)) = i;
  inv_nodup : NoDup (entries t);
  inv_count : Hash.count t = wrap64 (Z.of_nat (length (entries t)))
}.

(** The primes of an array that lie between the bounds of a digit length. *)
Definition window (current_digits_start current_digits_end : Z)
    (all_primes_array : list Z) : list Z :=
  filter (fun p => current_digits_start <= p <= current_digits_end) all_primes_array.

(** Running a loop body over a list of candidates, in order. *)
Fixpoint for_each {S : Type} (body : Z -> S -> M S) (candidates : list Z) (s : S) : M S :=
  match candidates with
  | [] => ret s
  | p :: rest => let* s' := body p s in for_each body rest s'
  end.

(** The body that records the candidates it is run on. *)
Definition record_candidate (p : Z) (seen : list Z) : M (list Z) := ret (seen ++ [p]).

(** The verdict of the truncation loop on a candidate. *)
Definition passes (contains : Z -> option bool) (v : Z) : bool :=
  match truncation_loop contains v with
  | Some (true, _) => true
  | _ => false
  end.

(** The number of candidates that pass. *)
Definition passing (contains : Z -> option bool) (candidates : list Z) : Z :=
  Z.of_nat (length (filter (fun p => passes contains p = true) candidates)).

(** The membership query of an index that holds exactly the primes. *)
Definition prime_query (v : Z) : option bool := Some (is_prime v).

(** The prime source keeps its contract: every call returns the primes of the
    requested range, ascending. *)
Definition generator_contract (env : environment) : Prop :=
  forall start stop,
    primesieve_generate_primes env start stop = Some (primes_between start stop).

(** No allocation request fails. *)
Definition allocations_succeed (env : environment) : Prop :=
  forall n, malloc_ok env n = true.

(** The number of generated primes of exactly [k] digits, for the bound [D]. *)
Definition prime_count (D k : Z) : Z :=
  Z.of_nat (length (window (10 ^ (k - 1)) (10 ^ k - 1) (primes_between 2 (10 ^ D - 1)))).

(** The total over the digit lengths [1..D]. *)
Definition rt_total (D : Z) : Z := foldr Z.add 0 (rt_count <$> seqZ 1 D).

(** What a successful run of the C program writes. *)
Definition hash_report (D : Z) : list event :=
  [Generate 2 (10 ^ D - 1); Stdout (Hash.count_line D (rt_count D))]
  ++ ((fun k => Generate 2 (10 ^ k - 1)) <$> seqZ 1 D)
  ++ [Stdout (Hash.total_line D (rt_total D))].

(** An index that answers exactly for the generated primes. *)
Definition bitset_indexes (prime_bitset : list bool) (primes : list Z) : Prop :=
  forall v, 0 <= v ->
    (Bitset.bitset_contains prime_bitset v = Some true <-> v ∈ primes).

(** The count lines of the C++ program for the lengths [i] down to 1. *)
Definition bitset_count_lines (D : Z) (i : nat) : list event :=
  (fun k => Stdout (Bitset.count_line k (rt_count k) (prime_count D k)))
    <$> reverse (seqZ 1 (Z.of_nat i)).

(** What a successful run of the C++ program writes. *)
Definition bitset_report (D : Z) : list event :=
  [Generate 2 (10 ^ D - 1)]
  ++ bitset_count_lines D (Z.to_nat D)
  ++ [Stdout (Bitset.total_line D (rt_total D)
                (Z.of_nat (length (primes_between 2 (10 ^ D - 1)))));
      Elapsed "milliseconds"; Elapsed "microseconds"; Elapsed "nanoseconds"].

(** The hash set the C program builds over the primes below 100, obtained by
    running the embedded code. *)
Definition sample_hash_set : option Hash.hash_table_t :=
  Eval vm_compute in
    match run (let* ht := Hash.hash_table_create reference_environment 50 in
               Hash.populate reference_environment ht (primes_between 2 99)) with
    | Done (inr ht) _ => ht
    | _ => None
    end.

(** The bit table over the same primes, one hundred cells. *)
Definition sample_bitset : list bool :=
  Eval vm_compute in
    match Bitset.mark_primes (replicate 100 false) (primes_between 2 99) with
    | Some prime_bitset => prime_bitset
    | None => []
    end.

(** The loop on candidate [v] with verdict [r] after the queries [queried]:
    the verdict is true exactly when the index knows every truncation, and the
    queries are those of a loop that stops at the first unknown one. *)
Definition classifies (contains : Z -> option bool) (v : Z)
    (r : bool) (queried : list Z) : Prop :=
  truncation_loop contains v = Some (r, queried)
  /\ (r = true <-> all_truncations_known contains v)
  /\ queries_of contains v r queried.

(** The count line of the specification, without its newline. *)
Definition report_format (k count n : Z) : string :=
  ("Number of " ++ dec k ++ "-digit right-truncatable primes: " ++ dec count
     ++ " (n = " ++ dec n ++ ")")%string.

(** The events of a finished run. *)
Definition output_of {A} (r : result A) : list event :=
  match r with
  | Done _ m => output m
  | Undefined => []
  end.

(** Some line of the output is the count line of length [k]. *)
Definition prints_count_line (out : list event) (k : Z) : Prop :=
  exists count n, Stdout (report_format k count n ++ nl)%string ∈ out.

(** The membership query of an index that holds exactly the values of an
    array. *)
Definition member_query (arr : list Z) (v : Z) : option bool :=
  Some (bool_decide (v ∈ arr)).

(** Is the event a call of the prime source? *)
Definition is_generate (e : event) : bool :=
  match e with
  | Generate _ _ => true
  | _ => false
  end.

(** The number of calls of the prime source among the events. *)
Definition generator_calls (out : list event) : nat :=
  length (List.filter is_generate out).

(** An empty table of 17 buckets, the size the C program uses for an empty
    array. *)
Definition empty_table : Hash.hash_table_t :=
  {| Hash.size := 17; Hash.count := 0; Hash.buckets := replicate 17 [] |}.

(** An environment in which only the first [n] allocation requests succeed
    and the prime source keeps its contract. *)
Definition short_of_memory (n : nat) : environment := {|
  malloc_ok := fun i => Nat.ltb i n;
  primesieve_generate_primes := fun start stop => Some (primes_between start stop);
  atoi := libc_atoi
|}.

(** An environment whose prime source fails. *)
Definition no_generator : environment := {|
  malloc_ok := fun _ => true;
  primesieve_generate_primes := fun _ _ => None;
  atoi := libc_atoi
|}.

(** The environment of [env] with an allocator that never fails. *)
Definition with_memory (env : environment) : environment := {|
  malloc_ok := fun _ => true;
  primesieve_generate_primes := primesieve_generate_primes env;
  atoi := atoi env
|}.

(** Is the event a line on the standard output? *)
Definition is_stdout (e : event) : bool :=
  match e with
  | Stdout _ => true
  | _ => false
  end.




(** * Arithmetic of the digit bounds *)

Lemma pow10_pos (k : Z) : 0 <= k -> 0 < 10 ^ k.
Proof. intros. apply Z.pow_pos_nonneg; lia. Qed.

Lemma pow10_succ (k : Z) : 0 <= k -> 10 ^ (k + 1) = 10 * 10 ^ k.
Proof. intros. rewrite Z.pow_add_r by lia. lia. Qed.

Lemma pow10_le_u64 (k : Z) : 0 <= k <= 19 -> 10 ^ k < 2 ^ 64.
Proof.
  intros Hk. apply Z.le_lt_trans with (10 ^ 19); [|reflexivity].
  apply Z.pow_le_mono_r; lia.
Qed.

Lemma wrap64_small (z : Z) : 0 <= z < 2 ^ 64 -> wrap64 z = z.
Proof. intros. unfold wrap64. apply Z.mod_small. lia. Qed.

Lemma power_of_10_iter (n : nat) :
  (n <= 19)%nat -> Nat.iter n (fun res => wrap64 (res * 10)) 1 = 10 ^ Z.of_nat n.
Proof.
  induction n as [|n IH]; intros Hn; [reflexivity|].
  rewrite Nat.iter_succ, IH by lia.
  replace (Z.of_nat (S n)) with (Z.of_nat n + 1) by lia.
  rewrite pow10_succ by lia.
  pose proof (pow10_le_u64 (Z.of_nat n + 1) ltac:(lia)) as Hb.
  rewrite pow10_succ in Hb by lia.
  pose proof (pow10_pos (Z.of_nat n) ltac:(lia)).
  rewrite wrap64_small; lia.
Qed.

Lemma power_of_10_spec (k : Z) : 0 <= k <= 19 -> power_of_10 k = 10 ^ k.
Proof.
  intros Hk. unfold power_of_10. rewrite power_of_10_iter by lia.
  f_equal. lia.
Qed.

Lemma digits_end_spec (k : Z) :
  0 <= k <= 19 -> wrap64 (power_of_10 k - 1) = 10 ^ k - 1.
Proof.
  intros Hk. rewrite power_of_10_spec by lia.
  pose proof (pow10_le_u64 k Hk). pose proof (pow10_pos k ltac:(lia)).
  apply wrap64_small. lia.
Qed.

(** * Correctness of the primality test *)

Lemma no_divisor_spec (candidates : nat) (n from : Z) :
  0 < from ->
  no_divisor n from candidates = true <->
  (forall d, from <= d < from + Z.of_nat candidates -> d * d <= n -> n mod d <> 0).
Proof.
  revert from. induction candidates as [|c IH]; intros from Hfrom; cbn [no_divisor].
  - split; [intros _ d Hd; lia|reflexivity].
  - destruct (Z.ltb_spec n (from * from)) as [Hsq|Hsq].
    + split; [|reflexivity]. intros _ d Hd Hdd. nia.
    + destruct (Z.eqb_spec (n mod from) 0) as [Hmod|Hmod].
      * split; [discriminate|]. intros H. exfalso. apply (H from); lia.
      * rewrite IH by lia. split; intros H d Hd Hdd.
        -- destruct (Z.eq_dec d from) as [->|]; [assumption|apply H; lia].
        -- apply H; lia.
Qed.

Lemma is_prime_spec (n : Z) : is_prime n = true <-> Z.prime n.
Proof.
  unfold is_prime. rewrite andb_true_iff, Z.ltb_lt, no_divisor_spec by lia.
  split.
  - intros [Hn Hdiv]. split; [assumption|]. intros m Hm [q Hq].
    assert (Hroot : forall d, 2 <= d -> d * d <= n -> n mod d <> 0).
    { intros d Hd Hdd. apply Hdiv; [|assumption].
      pose proof (Z.sqrt_spec n ltac:(lia)) as Hs. cbv zeta in Hs.
      pose proof (Z.sqrt_nonneg n).
      rewrite Z2Nat.id by assumption.
      destruct (Z_lt_dec (Z.sqrt n) d) as [Hlt|]; [exfalso|lia].
      assert (Z.succ (Z.sqrt n) * Z.succ (Z.sqrt n) <= d * d)
        by (apply Z.mul_le_mono_nonneg; lia).
      lia. }
    assert (Hq2 : 2 <= q) by nia.
    destruct (Z_le_dec (m * m) n) as [Hle|Hgt].
    + apply (Hroot m); [lia|assumption|]. subst n. apply Z.mod_mul. lia.
    + apply (Hroot q); [assumption|nia|].
      subst n. rewrite Z.mul_comm. apply Z.mod_mul. lia.
  - intros [Hn Hdiv]. split; [assumption|]. intros d Hd Hdd Hmod.
    apply (Hdiv d); [nia|]. apply Z.mod_divide; [lia|assumption].
Qed.

Lemma prime_ge_2 (v : Z) : Z.prime v -> 2 <= v.
Proof. intros [H _]. lia. Qed.

Lemma prime_odd (v : Z) : Z.prime v -> v <> 2 -> v mod 2 = 1.
Proof.
  intros [Hv Hdiv] Hne.
  pose proof (Z.mod_pos_bound v 2 ltac:(lia)) as Hb.
  destruct (Z.eq_dec (v mod 2) 0) as [H0|]; [|lia].
  exfalso. apply (Hdiv 2); [lia|]. apply Z.mod_divide; [lia|assumption].
Qed.

(** * The prime sequence *)

Lemma elem_of_primes_between (start stop v : Z) :
  v ∈ primes_between start stop <-> start <= v <= stop /\ Z.prime v.
Proof.
  unfold primes_between.
  rewrite list_elem_of_filter, elem_of_seqZ, is_prime_spec. intuition lia.
Qed.

Lemma NoDup_primes_between (start stop : Z) : NoDup (primes_between start stop).
Proof. apply NoDup_filter, NoDup_seqZ. Qed.

Lemma StronglySorted_filter {A} (R : relation A) (P : A -> Prop)
    `{!forall x, Decision (P x)} (l : list A) :
  StronglySorted R l -> StronglySorted R (filter P l).
Proof.
  induction 1 as [|x l Hl IH Hx]; [constructor|].
  rewrite filter_cons. case_decide; [|assumption].
  constructor; [assumption|].
  rewrite Forall_forall in Hx |- *. intros y Hy.
  apply Hx. apply list_elem_of_filter in Hy. tauto.
Qed.

Lemma StronglySorted_seqZ (m n : Z) : StronglySorted Z.lt (seqZ m n).
Proof.
  unfold seqZ. apply StronglySorted_fmap with (R1 := lt); [intros; lia|].
  generalize 0%nat. induction (Z.to_nat n) as [|k IH]; intros from; cbn [seq].
  - constructor.
  - constructor; [apply IH|]. apply Forall_forall. intros y Hy.
    apply elem_of_seq in Hy. lia.
Qed.

Lemma StronglySorted_primes_between (start stop : Z) :
  StronglySorted Z.lt (primes_between start stop).
Proof. apply StronglySorted_filter, StronglySorted_seqZ. Qed.

(** Fewer than [2^63] primes lie below any bound the programs use, so the
    doubled count that sizes the hash table stays within [size_t]. *)
Lemma primes_between_length (stop : Z) :
  0 <= stop -> Z.of_nat (length (primes_between 2 stop)) <= stop / 2 + 1.
Proof.
  intros Hstop.
  set (odds := (fun i => 2 * i + 1) <$> seqZ 1 (stop / 2)).
  assert (Hsub : primes_between 2 stop ⊆+ 2 :: odds).
  { apply NoDup_submseteq; [apply NoDup_primes_between|].
    intros v Hv. apply elem_of_primes_between in Hv as [Hrange Hprime].
    destruct (Z.eq_dec v 2) as [->|Hne]; [left|right].
    pose proof (prime_odd v Hprime Hne) as Hodd.
    pose proof (Z.div_mod v 2 ltac:(lia)) as Hdm.
    apply list_elem_of_fmap. exists (v / 2). split; [lia|].
    apply elem_of_seqZ.
    assert (v / 2 <= stop / 2) by (apply Z.div_le_mono; lia).
    lia. }
  apply submseteq_length in Hsub. cbn [length] in Hsub.
  unfold odds in Hsub. rewrite length_fmap, length_seqZ in Hsub.
  assert (0 <= stop / 2) by (apply Z.div_pos; lia). lia.
Qed.

(** * The truncation loop *)

Lemma truncation_loop_zero (contains : Z -> option bool) (v : Z) :
  v <= 0 -> truncation_loop contains v = Some (true, []).
Proof.
  intros Hv. rewrite truncation_loop_equation_1.
  destruct (Z_lt_dec 0 v); [lia|reflexivity].
Qed.

Lemma truncation_loop_step (contains : Z -> option bool) (v : Z) :
  0 < v ->
  truncation_loop contains v =
  match contains v with
  | None => None
  | Some false => Some (false, [v])
  | Some true =>
      match truncation_loop contains (v / 10) with
      | None => None
      | Some (is_r_truncatable, queried) => Some (is_r_truncatable, v :: queried)
      end
  end.
Proof.
  intros Hv. rewrite truncation_loop_equation_1.
  destruct (Z_lt_dec 0 v) as [Hpos|]; [|lia]. cbn.
  destruct (contains v) as [[|]|]; cbn; [|reflexivity..].
  destruct (truncation_loop contains (v / 10)) as [[r q]|]; reflexivity.
Qed.

(** Induction along the truncations of a number. *)
Lemma truncation_ind (P : Z -> Prop) :
  (forall v, v <= 0 -> P v) ->
  (forall v, 0 < v -> P (v / 10) -> P v) ->
  forall v, P v.
Proof.
  intros Hzero Hstep v.
  destruct (Z_le_dec v 0) as [|Hpos]; [auto|].
  apply Z_lt_induction; [|lia]. clear v Hpos. intros v IH.
  destruct (Z_le_dec v 0) as [|Hpos]; [auto|].
  apply Hstep; [lia|]. apply IH.
  split; [apply Z.div_pos; lia|apply Z.div_lt; lia].
Qed.

Lemma truncation_0 (v : Z) : truncation v 0 = v.
Proof. unfold truncation. apply Z.div_1_r. Qed.

Lemma truncation_S (v : Z) (j : nat) : truncation v (S j) = truncation (v / 10) j.
Proof.
  unfold truncation. rewrite Z.div_div by (try apply pow10_pos; lia).
  f_equal. replace (Z.of_nat (S j)) with (Z.of_nat j + 1) by lia.
  apply pow10_succ. lia.
Qed.

Lemma truncation_nonpos (v : Z) (j : nat) : v <= 0 -> truncation v j <= 0.
Proof.
  intros Hv. unfold truncation. pose proof (pow10_pos (Z.of_nat j) ltac:(lia)).
  apply Z.div_le_upper_bound; lia.
Qed.

Lemma truncation_le (v : Z) (j : nat) : 0 <= v -> 0 <= truncation v j <= v.
Proof.
  intros Hv. unfold truncation. pose proof (pow10_pos (Z.of_nat j) ltac:(lia)).
  split; [apply Z.div_pos; lia|].
  apply Z.div_le_upper_bound; [lia|]. nia.
Qed.

Lemma truncation_fmap_S (v : Z) (n : nat) :
  truncation v <$> seq 0 (S n) = v :: (truncation (v / 10) <$> seq 0 n).
Proof.
  cbn [seq fmap list_fmap]. rewrite truncation_0. f_equal.
  rewrite <- fmap_S_seq, <- list_fmap_compose.
  apply list_fmap_ext. intros i j _. cbn. apply truncation_S.
Qed.

Lemma all_truncations_known_step (contains : Z -> option bool) (v : Z) :
  0 < v ->
  all_truncations_known contains v <->
  contains v = Some true /\ all_truncations_known contains (v / 10).
Proof.
  intros Hv. unfold all_truncations_known. split.
  - intros H. split.
    + specialize (H 0%nat). rewrite truncation_0 in H. auto.
    + intros j Hj. rewrite <- truncation_S in *. auto.
  - intros [H0 H] [|j] Hj.
    + rewrite truncation_0. assumption.
    + rewrite truncation_S in *. auto.
Qed.

Lemma truncation_loop_spec (contains : Z -> option bool) (v : Z) :
  0 <= v ->
  (forall u, 0 < u <= v -> is_Some (contains u)) ->
  exists is_r_truncatable queried,
    truncation_loop contains v = Some (is_r_truncatable, queried)
    /\ (is_r_truncatable = true <-> all_truncations_known contains v)
    /\ queries_of contains v is_r_truncatable queried.
Proof.
  revert v. apply (truncation_ind (fun v => _ -> _ -> _)).
  - intros v Hv Hnn _. assert (v = 0) as -> by lia.
    exists true, []. rewrite truncation_loop_zero by lia.
    split; [reflexivity|]. split.
    + split; [|reflexivity]. intros _ j Hj.
      pose proof (truncation_nonpos 0 j ltac:(lia)). lia.
    + repeat split; constructor.
  - intros v Hv IH _ Hdef.
    assert (Hnn : 0 <= v / 10) by (apply Z.div_pos; lia).
    assert (Hle : v / 10 <= v) by (apply Z.lt_le_incl, Z.div_lt; lia).
    destruct IH as (r & q & Hloop & Hr & Hq & Hpos & Hend);
      [assumption|intros u Hu; apply Hdef; lia|].
    rewrite truncation_loop_step by assumption.
    pose proof (all_truncations_known_step contains v Hv) as Hstep.
    destruct (Hdef v ltac:(lia)) as [[|] Hc]; rewrite Hc in *.
    + rewrite Hloop. exists r, (v :: q). split; [reflexivity|]. split.
      * rewrite Hr. tauto.
      * split; [|split].
        -- cbn [length]. rewrite truncation_fmap_S. f_equal. assumption.
        -- constructor; assumption.
        -- destruct r.
           ++ destruct Hend as [Hall Hzero]. split; [constructor; assumption|].
              cbn [length]. rewrite truncation_S. assumption.
           ++ destruct Hend as (passed & failed & -> & Hall & Hfail).
              exists (v :: passed), failed.
              split; [reflexivity|]. split; [constructor|]; assumption.
    + exists false, [v]. split; [reflexivity|]. split.
      * split; [discriminate|]. rewrite Hstep. intros [H _]. discriminate.
      * split; [|split].
        -- cbn. rewrite truncation_0. reflexivity.
        -- repeat constructor. assumption.
        -- exists [], v. repeat split; [constructor|assumption].
Qed.

(** The loop asks at most one query per decimal digit: twenty for a 64-bit
    value. *)
Lemma queries_of_length (contains : Z -> option bool) (v : Z) (r : bool)
    (queried : list Z) :
  0 <= v < 2 ^ 64 -> queries_of contains v r queried -> (length queried <= 20)%nat.
Proof.
  intros Hv (Hq & Hpos & _).
  destruct (Nat.le_gt_cases (length queried) 20) as [|Hlong]; [assumption|].
  exfalso.
  assert (Hin : truncation v 20 ∈ queried).
  { rewrite Hq. apply list_elem_of_fmap. exists 20%nat. split; [reflexivity|].
    apply elem_of_seq. lia. }
  rewrite Forall_forall in Hpos. apply Hpos in Hin.
  unfold truncation in Hin. rewrite Z.div_small in Hin; [lia|].
  split; [lia|]. apply Z.lt_trans with (2 ^ 64); [lia|reflexivity].
Qed.

(** * The chained hash set *)

Lemma hash_ull_range (key table_size : Z) :
  0 < table_size -> 0 <= Hash.hash_ull key table_size < table_size.
Proof. intros H. unfold Hash.hash_ull. cbv zeta. apply Z.mod_pos_bound. lia. Qed.

Lemma chain_search_spec (current : list Z) (value : Z) :
  Hash.chain_search current value = true <-> value ∈ current.
Proof.
  induction current as [|x rest IH]; cbn [Hash.chain_search].
  - split; [discriminate|]. intros H. inversion H.
  - rewrite elem_of_cons. destruct (Z.eqb_spec x value) as [->|Hne].
    + tauto.
    + rewrite IH. split; [tauto|]. intros [?|?]; congruence.
Qed.

Lemma hash_table_bucket (t : Hash.hash_table_t) (v : Z) :
  hash_table_inv t ->
  Hash.buckets t !! Z.to_nat (Hash.hash_ull v (Hash.size t))
  = Some (Hash.buckets t !!! Z.to_nat (Hash.hash_ull v (Hash.size t))).
Proof.
  intros Hinv. apply list_lookup_lookup_total_lt.
  rewrite (inv_length t Hinv).
  pose proof (hash_ull_range v (Hash.size t) (inv_size t Hinv)). lia.
Qed.

Lemma hash_table_contains_spec (t : Hash.hash_table_t) (v : Z) :
  hash_table_inv t ->
  Hash.hash_table_contains (Some t) v = true <-> v ∈ entries t.
Proof.
  intros Hinv. unfold Hash.hash_table_contains, entries. cbv zeta.
  rewrite chain_search_spec, list_elem_of_join.
  pose proof (hash_table_bucket t v Hinv) as Hb. split.
  - intros Hv. eexists. split; [exact Hv|].
    eapply list_elem_of_lookup_2, Hb.
  - intros (chain & Hv & Hchain).
    apply list_elem_of_lookup in Hchain as [i Hi].
    rewrite (inv_bucket t Hinv i chain v Hi Hv) in Hb |- *.
    rewrite Hi in Hb. injection Hb as <-. assumption.
Qed.

Lemma join_insert_cons (bs : list (list Z)) (i : nat) (chain : list Z) (v : Z) :
  bs !! i = Some chain -> mjoin (<[i := v :: chain]> bs) ≡ₚ v :: mjoin bs.
Proof.
  revert i. induction bs as [|b bs IH]; intros [|i] Hi; try discriminate.
  - cbn in Hi. injection Hi as ->. reflexivity.
  - cbn in Hi. change (mjoin (b :: <[i:=v :: chain]> bs) ≡ₚ v :: (b ++ mjoin bs)).
    change (b ++ mjoin (<[i:=v :: chain]> bs) ≡ₚ v :: (b ++ mjoin bs)).
    rewrite (IH i Hi). symmetry. apply Permutation_middle.
Qed.

Lemma hash_table_add_present (env : environment) (t : Hash.hash_table_t)
    (v : Z) (m : machine) :
  Hash.hash_table_contains (Some t) v = true ->
  Hash.hash_table_add env (Some t) v m = Done (true, Some t) m.
Proof.
  unfold Hash.hash_table_contains, Hash.hash_table_add. cbv zeta.
  intros ->. reflexivity.
Qed.

Lemma hash_table_add_fresh (env : environment) (t : Hash.hash_table_t)
    (v : Z) (m : machine) :
  hash_table_inv t ->
  Hash.hash_table_contains (Some t) v = false ->
  malloc_ok env (allocations m) = true ->
  exists t',
    Hash.hash_table_add env (Some t) v m
    = Done (true, Some t') {| allocations := S (allocations m); output := output m |}
    /\ hash_table_inv t'
    /\ Hash.size t' = Hash.size t
    /\ entries t' ≡ₚ v :: entries t.
Proof.
  intros Hinv Hfresh Hok.
  assert (Hnotin : v ∉ entries t).
  { rewrite <- hash_table_contains_spec, Hfresh by assumption. discriminate. }
  unfold Hash.hash_table_contains in Hfresh.
  unfold Hash.hash_table_add, bind, allocate, ret. cbv zeta in *.
  rewrite Hfresh, Hok. cbn [negb].
  set (i := Z.to_nat (Hash.hash_ull v (Hash.size t))) in *.
  set (chain := Hash.buckets t !!! i) in *.
  pose proof (hash_table_bucket t v Hinv) as Hchain. fold i chain in Hchain.
  assert (Hperm : mjoin (<[i := v :: chain]> (Hash.buckets t)) ≡ₚ v :: entries t)
    by (apply join_insert_cons; assumption).
  eexists. split; [reflexivity|]. split; [|split; [reflexivity|exact Hperm]].
  constructor; cbn [Hash.size Hash.count Hash.buckets]; unfold entries;
    cbn [Hash.buckets].
  - apply (inv_size t Hinv).
  - rewrite length_insert. apply (inv_length t Hinv).
  - intros j chain' u Hj Hu. destruct (decide (i = j)) as [<-|Hne].
    + rewrite list_lookup_insert_eq in Hj
        by (apply lookup_lt_is_Some; eauto).
      injection Hj as <-. apply elem_of_cons in Hu as [->|Hu]; [reflexivity|].
      apply (inv_bucket t Hinv i chain u); assumption.
    + rewrite list_lookup_insert_ne in Hj by assumption.
      apply (inv_bucket t Hinv j chain' u); assumption.
  - rewrite Hperm. constructor; [assumption|apply (inv_nodup t Hinv)].
  - rewrite Hperm, (inv_count t Hinv). cbn [length]. unfold wrap64.
    rewrite Zplus_mod_idemp_l. f_equal. lia.
Qed.

Lemma hash_table_add_failed (env : environment) (t : Hash.hash_table_t)
    (v : Z) (m : machine) :
  Hash.hash_table_contains (Some t) v = false ->
  malloc_ok env (allocations m) = false ->
  Hash.hash_table_add env (Some t) v m
  = Done (false, Some t)
      {| allocations := S (allocations m);
         output := output m ++ [Perror "Failed to allocate hash table node"] |}.
Proof.
  unfold Hash.hash_table_contains, Hash.hash_table_add, bind, allocate, emit, ret.
  cbv zeta. intros -> ->. reflexivity.
Qed.

Lemma join_replicate_nil (n : nat) : mjoin (replicate n ([] : list Z)) = [].
Proof. induction n as [|n IH]; [reflexivity|exact IH]. Qed.

Lemma hash_table_create_spec (env : environment) (table_size : Z) (m : machine) :
  (forall n, malloc_ok env n = true) ->
  0 < table_size ->
  exists t,
    Hash.hash_table_create env table_size m
    = Done (Some t) {| allocations := S (S (allocations m)); output := output m |}
    /\ hash_table_inv t
    /\ Hash.size t = table_size
    /\ entries t = [].
Proof.
  intros Hok Hsize. unfold Hash.hash_table_create, bind, allocate, ret.
  rewrite Hok. cbn. rewrite Hok. cbn.
  eexists. split; [reflexivity|].
  assert (Hnil : entries {| Hash.size := table_size; Hash.count := 0;
                            Hash.buckets := replicate (Z.to_nat table_size) [] |} = [])
    by apply join_replicate_nil.
  split; [|split; [reflexivity|exact Hnil]].
  constructor; rewrite ?Hnil; cbn [Hash.size Hash.count Hash.buckets].
  - assumption.
  - apply length_replicate.
  - intros i chain v Hi Hv. apply lookup_replicate in Hi as [-> _]. inversion Hv.
  - constructor.
  - reflexivity.
Qed.

Lemma populate_spec (env : environment) (primes : list Z) :
  (forall n, malloc_ok env n = true) ->
  forall (t : Hash.hash_table_t) (m : machine),
  hash_table_inv t ->
  exists t' m',
    Hash.populate env (Some t) primes m = Done (inr (Some t')) m'
    /\ hash_table_inv t'
    /\ Hash.size t' = Hash.size t
    /\ (forall v, v ∈ entries t' <-> v ∈ entries t \/ v ∈ primes)
    /\ output m' = output m.
Proof.
  intros Hok. induction primes as [|p rest IH]; intros t m Hinv.
  - exists t, m. cbn. split; [reflexivity|]. split; [assumption|].
    split; [reflexivity|]. split; [|reflexivity].
    intros v. rewrite elem_of_nil. tauto.
  - cbn [Hash.populate]. unfold bind at 1.
    destruct (Hash.hash_table_contains (Some t) p) eqn:Hc.
    + rewrite hash_table_add_present by assumption. cbn [negb].
      destruct (IH t m Hinv) as (t' & m' & Hrun & Hinv' & Hsize & Hmem & Hout).
      exists t', m'. split; [assumption|]. split; [assumption|].
      split; [assumption|]. split; [|assumption].
      intros v. rewrite Hmem, elem_of_cons.
      apply hash_table_contains_spec in Hc; [|assumption].
      split; [tauto|]. intros [?|[->|?]]; tauto.
    + destruct (hash_table_add_fresh env t p m Hinv Hc (Hok _))
        as (t1 & -> & Hinv1 & Hsize1 & Hperm). cbn [negb].
      destruct (IH t1 {| allocations := S (allocations m); output := output m |} Hinv1)
        as (t' & m' & Hrun & Hinv' & Hsize & Hmem & Hout).
      exists t', m'. split; [assumption|]. split; [assumption|].
      split; [congruence|]. split; [|assumption].
      intros v. rewrite Hmem, Hperm, !elem_of_cons. tauto.
Qed.

(** * The dense bit table *)

Lemma vector_set_Some {A} (v : list A) (i : Z) (x : A) :
  0 <= i < Z.of_nat (length v) ->
  Bitset.vector_set v i x = Some (<[Z.to_nat i := x]> v).
Proof.
  intros Hi. unfold Bitset.vector_set.
  destruct (Z.leb_spec 0 i); [|lia]. destruct (Z.ltb_spec i (Z.of_nat (length v))); [|lia].
  reflexivity.
Qed.

Lemma vector_get_Some {A} (v : list A) (i : Z) :
  0 <= i < Z.of_nat (length v) -> is_Some (Bitset.vector_get v i).
Proof.
  intros Hi. unfold Bitset.vector_get. destruct (Z.leb_spec 0 i); [|lia].
  apply lookup_lt_is_Some. lia.
Qed.

Lemma bitset_contains_defined (prime_bitset : list bool) (v : Z) :
  0 <= v -> is_Some (Bitset.bitset_contains prime_bitset v).
Proof.
  intros Hv. unfold Bitset.bitset_contains.
  destruct (Z.leb_spec (Z.of_nat (length prime_bitset)) v); [eauto|].
  apply vector_get_Some. lia.
Qed.

Lemma bitset_contains_lookup (prime_bitset : list bool) (v : Z) :
  0 <= v ->
  Bitset.bitset_contains prime_bitset v = Some true
  <-> prime_bitset !! Z.to_nat v = Some true.
Proof.
  intros Hv. unfold Bitset.bitset_contains, Bitset.vector_get.
  destruct (Z.leb_spec (Z.of_nat (length prime_bitset)) v) as [Hout|Hin].
  - rewrite (lookup_ge_None_2 prime_bitset (Z.to_nat v)) by lia.
    split; discriminate.
  - destruct (Z.leb_spec 0 v); [reflexivity|lia].
Qed.

Lemma mark_primes_spec (primes : list Z) :
  forall prime_bitset : list bool,
  (forall p, p ∈ primes -> 0 <= p < Z.of_nat (length prime_bitset)) ->
  exists marked,
    Bitset.mark_primes prime_bitset primes = Some marked
    /\ length marked = length prime_bitset
    /\ forall v, 0 <= v ->
         (marked !! Z.to_nat v = Some true
          <-> v ∈ primes \/ prime_bitset !! Z.to_nat v = Some true).
Proof.
  induction primes as [|p rest IH]; intros bs Hrange.
  - exists bs. split; [reflexivity|]. split; [reflexivity|].
    intros v _. rewrite elem_of_nil. tauto.
  - cbn [Bitset.mark_primes].
    pose proof (Hrange p ltac:(left)) as Hp.
    rewrite vector_set_Some by assumption.
    destruct (IH (<[Z.to_nat p := true]> bs)) as (marked & Hrun & Hlen & Hmem).
    { intros q Hq. rewrite length_insert. apply Hrange. right. assumption. }
    exists marked. split; [assumption|]. rewrite length_insert in Hlen.
    split; [assumption|]. intros v Hv. rewrite Hmem, elem_of_cons by assumption.
    destruct (Z.eq_dec v p) as [->|Hne].
    + rewrite list_lookup_insert_eq by lia. tauto.
    + rewrite list_lookup_insert_ne by lia. tauto.
Qed.

(** The index the C++ [main] builds over primes below the table length. *)
Lemma bitset_index_spec (primes : list Z) (n : nat) :
  (forall p, p ∈ primes -> 0 <= p < Z.of_nat n) ->
  exists prime_bitset,
    Bitset.mark_primes (replicate n false) primes = Some prime_bitset
    /\ length prime_bitset = n
    /\ forall v, 0 <= v ->
         (Bitset.bitset_contains prime_bitset v = Some true <-> v ∈ primes).
Proof.
  intros Hrange.
  destruct (mark_primes_spec primes (replicate n false)) as (bs & Hrun & Hlen & Hmem).
  { intros p Hp. rewrite length_replicate. auto. }
  exists bs. split; [assumption|]. rewrite length_replicate in Hlen.
  split; [assumption|]. intros v Hv.
  rewrite bitset_contains_lookup, Hmem by assumption.
  split; [|tauto]. intros [?|Hrep]; [assumption|].
  apply lookup_replicate in Hrep as [? _]. discriminate.
Qed.

(** * The digit window *)

Lemma hash_for_each_in_window {S} (body : Z -> S -> M S)
    (start stop : Z) (arr : list Z) (s : S) (m : machine) :
  Hash.for_each_in_window body start stop arr s m
  = for_each body (window start stop arr) s m.
Proof.
  unfold window. revert s m.
  induction arr as [|p rest IH]; intros s m; [reflexivity|].
  cbn [Hash.for_each_in_window]. rewrite filter_cons.
  destruct (Z.ltb_spec p start); cbn [orb].
  - rewrite decide_False by lia. apply IH.
  - destruct (Z.ltb_spec stop p).
    + rewrite decide_False by lia. apply IH.
    + rewrite decide_True by lia. cbn [for_each]. unfold bind.
      destruct (body p s m); [reflexivity|apply IH].
Qed.

Lemma filter_none {A} (P : A -> Prop) `{!forall x, Decision (P x)} (l : list A) :
  Forall (fun x => ~ P x) l -> filter P l = [].
Proof.
  induction 1 as [|x l Hx _ IH]; [reflexivity|].
  rewrite filter_cons, decide_False by assumption. exact IH.
Qed.

Lemma bitset_for_each_in_window {S} (body : Z -> S -> M S)
    (start stop : Z) (arr : list Z) (s : S) (m : machine) :
  StronglySorted Z.lt arr ->
  Bitset.for_each_in_window body start stop arr s m
  = for_each body (window start stop arr) s m.
Proof.
  unfold window. intros Hsorted. revert s m.
  induction Hsorted as [|p rest Hrest IH Hp]; intros s m; [reflexivity|].
  cbn [Bitset.for_each_in_window]. rewrite filter_cons.
  destruct (Z.ltb_spec p start).
  - rewrite decide_False by lia. apply IH.
  - destruct (Z.ltb_spec stop p).
    + rewrite decide_False by lia.
      rewrite filter_none; [reflexivity|].
      eapply Forall_impl; [exact Hp|]. cbn. intros; lia.
    + rewrite decide_True by lia. cbn [for_each]. unfold bind.
      destruct (body p s m); [reflexivity|apply IH].
Qed.

Lemma for_each_record (candidates seen : list Z) (m : machine) :
  for_each record_candidate candidates seen m = Done (seen ++ candidates) m.
Proof.
  revert seen. induction candidates as [|p rest IH]; intros seen; cbn.
  - rewrite app_nil_r. reflexivity.
  - unfold bind, record_candidate, ret. rewrite IH, <- app_assoc. reflexivity.
Qed.

(** * Counting the candidates that pass the truncation check *)

Lemma passing_cons (contains : Z -> option bool) (p : Z) (rest : list Z) :
  passing contains (p :: rest)
  = (if passes contains p then 1 else 0) + passing contains rest.
Proof.
  unfold passing. rewrite filter_cons.
  destruct (passes contains p); [rewrite decide_True by reflexivity
                                |rewrite decide_False by discriminate];
    cbn [length]; lia.
Qed.

Lemma truncation_loop_defined (contains : Z -> option bool) (v : Z) :
  0 <= v -> (forall u, 0 <= u -> is_Some (contains u)) ->
  exists queried, truncation_loop contains v = Some (passes contains v, queried).
Proof.
  intros Hv Hdef.
  destruct (truncation_loop_spec contains v Hv) as (r & q & Hloop & _);
    [intros; apply Hdef; lia|].
  exists q. unfold passes. rewrite Hloop. destruct r; reflexivity.
Qed.

Lemma passes_spec (contains : Z -> option bool) (v : Z) :
  0 <= v -> (forall u, 0 <= u -> is_Some (contains u)) ->
  passes contains v = true <-> all_truncations_known contains v.
Proof.
  intros Hv Hdef.
  destruct (truncation_loop_spec contains v Hv) as (r & q & Hloop & Hr & _);
    [intros; apply Hdef; lia|].
  unfold passes. rewrite Hloop, <- Hr. destruct r; split; congruence.
Qed.

Lemma passes_ext (c1 c2 : Z -> option bool) (v : Z) :
  (forall u, 0 < u <= v -> c1 u = c2 u) -> passes c1 v = passes c2 v.
Proof.
  unfold passes. intros Heq.
  assert (Hloop : truncation_loop c1 v = truncation_loop c2 v);
    [|rewrite Hloop; reflexivity].
  revert v Heq. apply (truncation_ind (fun v => _ -> _)).
  - intros v Hv _. rewrite !truncation_loop_zero by assumption. reflexivity.
  - intros v Hv IH Heq.
    rewrite (truncation_loop_step c1 v), (truncation_loop_step c2 v) by assumption.
    rewrite <- (Heq v) by lia. rewrite IH; [reflexivity|].
    intros u Hu. apply Heq.
    assert (v / 10 < v) by (apply Z.div_lt; lia). lia.
Qed.

Lemma passes_step (contains : Z -> option bool) (v : Z) :
  0 < v ->
  passes contains v = true
  <-> contains v = Some true /\ passes contains (v / 10) = true.
Proof.
  intros Hv. unfold passes. rewrite truncation_loop_step by assumption.
  destruct (contains v) as [[|]|]; [|split; [discriminate|intros [? _]; discriminate]..].
  destruct (truncation_loop contains (v / 10)) as [[[|] q]|];
    split; try discriminate; try tauto; intros [_ ?]; discriminate.
Qed.

Lemma passes_zero (contains : Z -> option bool) : passes contains 0 = true.
Proof. unfold passes. rewrite truncation_loop_zero by lia. reflexivity. Qed.

Lemma hash_check_candidate_spec (ht : option Hash.hash_table_t) (p count : Z)
    (m : machine) :
  0 <= p ->
  Hash.check_candidate ht p count m
  = Done (count + (if passes (fun v => Some (Hash.hash_table_contains ht v)) p
                   then 1 else 0)) m.
Proof.
  intros Hp. unfold Hash.check_candidate, bind.
  destruct (truncation_loop_defined
              (fun v => Some (Hash.hash_table_contains ht v)) p Hp) as [q ->];
    [eauto|].
  cbn. unfold ret. destruct (passes _ p); f_equal; lia.
Qed.

Lemma hash_count_candidates (ht : option Hash.hash_table_t)
    (candidates : list Z) (count : Z) (m : machine) :
  Forall (fun p => 0 <= p) candidates ->
  for_each (Hash.check_candidate ht) candidates count m
  = Done (count + passing (fun v => Some (Hash.hash_table_contains ht v)) candidates) m.
Proof.
  intros Hpos. revert count.
  induction Hpos as [|p rest Hp _ IH]; intros count.
  - cbn. unfold ret, passing. cbn. f_equal. lia.
  - cbn [for_each]. unfold bind. rewrite hash_check_candidate_spec by assumption.
    rewrite IH, passing_cons. f_equal. lia.
Qed.

Lemma bitset_check_candidate_spec (prime_bitset : list bool) (digits p count n : Z)
    (primes_per_digit : list Z) (m : machine) :
  0 <= p ->
  0 <= digits ->
  primes_per_digit !! Z.to_nat digits = Some n ->
  Bitset.check_candidate prime_bitset digits p (count, primes_per_digit) m
  = Done (count + (if passes (Bitset.bitset_contains prime_bitset) p then 1 else 0),
          <[Z.to_nat digits := wrap64 (n + 1)]> primes_per_digit) m.
Proof.
  intros Hp Hd Hn. unfold Bitset.check_candidate, bind.
  assert (Hlt : 0 <= digits < Z.of_nat (length primes_per_digit)).
  { apply lookup_lt_Some in Hn. lia. }
  unfold Bitset.vector_get at 1. destruct (Z.leb_spec 0 digits); [|lia].
  rewrite Hn. cbn [lift]. unfold ret at 1.
  rewrite vector_set_Some by assumption. cbn [lift]. unfold ret at 1.
  destruct (truncation_loop_defined (Bitset.bitset_contains prime_bitset) p Hp)
    as [q ->]; [apply bitset_contains_defined|].
  cbn. unfold ret. destruct (passes _ p); f_equal; f_equal; lia.
Qed.

Lemma bitset_count_candidates (prime_bitset : list bool) (digits : Z)
    (candidates : list Z) :
  Forall (fun p => 0 <= p) candidates ->
  0 <= digits ->
  forall (count n : Z) (primes_per_digit : list Z) (m : machine),
  primes_per_digit !! Z.to_nat digits = Some n ->
  0 <= n < 2 ^ 64 ->
  for_each (Bitset.check_candidate prime_bitset digits) candidates
    (count, primes_per_digit) m
  = Done (count + passing (Bitset.bitset_contains prime_bitset) candidates,
          <[Z.to_nat digits := wrap64 (n + Z.of_nat (length candidates))]>
            primes_per_digit) m.
Proof.
  intros Hpos Hd.
  induction Hpos as [|p rest Hp _ IH]; intros count n ppd m Hn Hrange.
  - cbn. unfold ret, passing. cbn. f_equal. f_equal; [lia|].
    rewrite Z.add_0_r, wrap64_small by assumption.
    symmetry. apply list_insert_id. assumption.
  - cbn [for_each]. unfold bind.
    rewrite (bitset_check_candidate_spec _ _ _ _ n) by assumption.
    rewrite (IH _ (wrap64 (n + 1))).
    + rewrite passing_cons, list_insert_insert_eq. f_equal. f_equal; [lia|].
      f_equal. unfold wrap64. rewrite Zplus_mod_idemp_l. f_equal.
      cbn [length]. lia.
    + apply list_lookup_insert_eq. apply lookup_lt_Some in Hn. assumption.
    + unfold wrap64. apply Z.mod_pos_bound. lia.
Qed.

(** * Right-truncatable primes *)

Lemma elem_of_extensions (p v : Z) : v ∈ extensions p <-> v / 10 = p.
Proof.
  unfold extensions. rewrite list_elem_of_fmap. split.
  - intros (d & -> & Hd). apply elem_of_seqZ in Hd.
    symmetry. apply (Z.div_unique _ 10 p d); lia.
  - intros <-. exists (v mod 10). split.
    + apply Z.div_mod. lia.
    + apply elem_of_seqZ. pose proof (Z.mod_pos_bound v 10 ltac:(lia)). lia.
Qed.

Lemma rt_primes_S (k : nat) (v : Z) :
  v ∈ rt_primes (S k) <-> Z.prime v /\ v / 10 ∈ rt_primes k.
Proof.
  cbn [rt_primes]. rewrite list_elem_of_filter, is_prime_spec, list_elem_of_bind.
  split.
  - intros (Hp & p & Hv & Hin). apply elem_of_extensions in Hv as <-. tauto.
  - intros (Hp & Hin). split; [assumption|]. exists (v / 10).
    split; [apply elem_of_extensions; reflexivity|assumption].
Qed.

Lemma rt_primes_spec (k : nat) (v : Z) :
  v ∈ rt_primes (S k)
  <-> 10 ^ Z.of_nat k <= v < 10 ^ (Z.of_nat k + 1) /\ passes prime_query v = true.
Proof.
  revert v. induction k as [|k IH]; intros v; rewrite rt_primes_S.
  - cbn [rt_primes]. rewrite list_elem_of_singleton.
    change (10 ^ Z.of_nat 0) with 1. change (10 ^ (Z.of_nat 0 + 1)) with 10.
    split.
    + intros [Hp H0]. pose proof (prime_ge_2 v Hp).
      assert (v < 10) by (apply Z.div_small_iff in H0; lia).
      split; [lia|]. apply passes_step; [lia|]. rewrite H0.
      split; [|apply passes_zero]. unfold prime_query. f_equal.
      apply is_prime_spec. assumption.
    + intros [Hr Hpass]. apply passes_step in Hpass as [Hq _]; [|lia].
      injection Hq as Hq. apply is_prime_spec in Hq.
      split; [assumption|]. apply Z.div_small. lia.
  - rewrite IH. replace (Z.of_nat (S k)) with (Z.of_nat k + 1) by lia.
    rewrite (pow10_succ (Z.of_nat k + 1)), (pow10_succ (Z.of_nat k)) by lia.
    pose proof (pow10_pos (Z.of_nat k) ltac:(lia)) as Hpow.
    pose proof (Z.div_mod v 10 ltac:(lia)) as Hdm.
    pose proof (Z.mod_pos_bound v 10 ltac:(lia)) as Hmod.
    split.
    + intros (Hp & Hr & Hpass). split; [lia|].
      apply passes_step; [lia|]. split; [|assumption].
      unfold prime_query. f_equal. apply is_prime_spec. assumption.
    + intros (Hr & Hpass). apply passes_step in Hpass as [Hq Hpass]; [|lia].
      injection Hq as Hq. apply is_prime_spec in Hq. split; [assumption|].
      split; [lia|assumption].
Qed.

Lemma NoDup_rt_primes (k : nat) : NoDup (rt_primes k).
Proof.
  induction k as [|k IH]; cbn [rt_primes]; [apply NoDup_singleton|].
  apply NoDup_filter, NoDup_bind; [| |assumption].
  - intros x1 x2 y _ _ H1 H2.
    apply elem_of_extensions in H1, H2. congruence.
  - intros x _. unfold extensions. apply NoDup_fmap_2; [|apply NoDup_seqZ].
    intros d1 d2 Hd. lia.
Qed.

(** The number of right-truncatable primes of each length (OEIS A024770 has
    83 terms, none longer than eight digits). *)
Lemma rt_count_values :
  rt_count 1 = 4 /\ rt_count 2 = 9 /\ rt_count 3 = 14 /\ rt_count 4 = 16 /\
  rt_count 5 = 15 /\ rt_count 6 = 12 /\ rt_count 7 = 8 /\ rt_count 8 = 5.
Proof. vm_compute. repeat split. Qed.

Lemma rt_primes_9 : rt_primes 9 = [].
Proof. vm_compute. reflexivity. Qed.

Lemma rt_primes_none (k : nat) : (9 <= k)%nat -> rt_primes k = [].
Proof.
  induction 1 as [|k _ IH]; [exact rt_primes_9|].
  cbn [rt_primes]. rewrite IH. reflexivity.
Qed.

Lemma rt_count_none (k : Z) : 9 <= k -> rt_count k = 0.
Proof. intros Hk. unfold rt_count. rewrite rt_primes_none by lia. reflexivity. Qed.

Lemma elem_of_window (start stop : Z) (arr : list Z) (v : Z) :
  v ∈ window start stop arr <-> start <= v <= stop /\ v ∈ arr.
Proof. unfold window. rewrite list_elem_of_filter. reflexivity. Qed.

(** Over the primes below [10^D], an index that answers primality for every
    number of at most [k] digits lets exactly the right-truncatable primes of
    [k] digits pass. *)
Lemma passing_window (contains : Z -> option bool) (D k : Z) :
  1 <= k <= D ->
  (forall u, 0 < u < 10 ^ k -> contains u = Some (is_prime u)) ->
  passing contains (window (10 ^ (k - 1)) (10 ^ k - 1) (primes_between 2 (10 ^ D - 1)))
  = rt_count k.
Proof.
  intros Hk Hquery. unfold passing, rt_count. f_equal.
  apply Permutation_length, NoDup_Permutation.
  - apply NoDup_filter, NoDup_filter, NoDup_primes_between.
  - apply NoDup_rt_primes.
  - intros v.
    replace (Z.to_nat k) with (S (Z.to_nat (k - 1))) by lia.
    rewrite list_elem_of_filter, elem_of_window, elem_of_primes_between,
      rt_primes_spec.
    rewrite Z2Nat.id by lia. replace (k - 1 + 1) with k by lia.
    pose proof (pow10_pos (k - 1) ltac:(lia)) as Hpow.
    assert (Hmono : 10 ^ k <= 10 ^ D) by (apply Z.pow_le_mono_r; lia).
    assert (Hext : 10 ^ (k - 1) <= v < 10 ^ k ->
                   passes contains v = passes prime_query v).
    { intros Hv. apply passes_ext. intros u Hu. apply Hquery. lia. }
    split.
    + intros (Hpass & Hr & _ & _). rewrite <- Hext by lia. split; [lia|assumption].
    + intros (Hr & Hpass). rewrite Hext by lia. split; [assumption|].
      split; [lia|].
      apply passes_step in Hpass as [Hq _]; [|lia].
      injection Hq as Hq. apply is_prime_spec in Hq.
      pose proof (prime_ge_2 v Hq). split; [lia|assumption].
Qed.

(** * The C program on a valid digit bound *)

Lemma rt_count_bound (k : Z) : 1 <= k -> 0 <= rt_count k <= 16.
Proof.
  intros Hk. destruct (Z_le_dec 9 k) as [|Hsmall]; [rewrite rt_count_none; lia|].
  destruct rt_count_values as (H1 & H2 & H3 & H4 & H5 & H6 & H7 & H8).
  assert (Hcases : k = 1 \/ k = 2 \/ k = 3 \/ k = 4 \/ k = 5 \/ k = 6 \/ k = 7 \/ k = 8)
    by lia.
  repeat (destruct Hcases as [->|Hcases]; [lia|]). subst k. lia.
Qed.

Lemma primes_between_nonneg (stop : Z) :
  Forall (fun p => 0 <= p) (primes_between 2 stop).
Proof.
  apply Forall_forall. intros p Hp. apply elem_of_primes_between in Hp. lia.
Qed.

Lemma window_nonneg (start stop bound : Z) :
  Forall (fun p => 0 <= p) (window start stop (primes_between 2 bound)).
Proof.
  apply Forall_forall. intros p Hp. apply elem_of_window in Hp as [_ Hp].
  apply elem_of_primes_between in Hp. lia.
Qed.

Lemma primes_count_u64 (D : Z) :
  0 <= D <= 19 ->
  0 <= Z.of_nat (length (primes_between 2 (10 ^ D - 1))) * 2 < 2 ^ 64.
Proof.
  intros HD. pose proof (pow10_pos D ltac:(lia)) as Hpos.
  pose proof (primes_between_length (10 ^ D - 1) ltac:(lia)) as Hlen.
  assert (Hle : 10 ^ D <= 10 ^ 19) by (apply Z.pow_le_mono_r; lia).
  assert (Hhalf : (10 ^ D - 1) / 2 <= (10 ^ 19 - 1) / 2)
    by (apply Z.div_le_mono; lia).
  change ((10 ^ 19 - 1) / 2) with 4999999999999999999 in Hhalf.
  change (2 ^ 64) with 18446744073709551616. lia.
Qed.

(** The C [count_right_trunc_primes] on a valid digit length, when the
    environment cooperates. *)
Lemma hash_count_right_trunc_primes_spec (env : environment) (digits : Z)
    (m : machine) :
  generator_contract env ->
  allocations_succeed env ->
  1 <= digits <= 19 ->
  exists m',
    Hash.count_right_trunc_primes env digits m = Done (rt_count digits) m'
    /\ output m' = output m ++ [Generate 2 (10 ^ digits - 1)].
Proof.
  intros Hgen Halloc Hd. unfold Hash.count_right_trunc_primes.
  destruct (Z.ltb_spec digits 1); [lia|]. destruct (Z.ltb_spec 19 digits); [lia|].
  cbn [orb]. cbv zeta.
  rewrite digits_end_spec, power_of_10_spec by lia.
  unfold bind at 1. unfold emit at 1. rewrite Hgen.
  set (primes := primes_between 2 (10 ^ digits - 1)).
  set (m1 := {| allocations := allocations m;
                output := output m ++ [Generate 2 (10 ^ digits - 1)] |}).
  set (table_size := if Z.of_nat (length primes) =? 0 then 17
                     else wrap64 (Z.of_nat (length primes) * 2)).
  assert (Hsize : 0 < table_size).
  { unfold table_size. destruct (Z.eqb_spec (Z.of_nat (length primes)) 0); [lia|].
    rewrite wrap64_small by (apply primes_count_u64; lia). lia. }
  destruct (hash_table_create_spec env table_size m1 Halloc Hsize)
    as (t0 & Hcreate & Hinv0 & _ & Hnil).
  unfold bind at 1. rewrite Hcreate.
  destruct (populate_spec env primes Halloc t0
              {| allocations := S (S (allocations m1)); output := output m1 |} Hinv0)
    as (t & m2 & Hpop & Hinv & _ & Hmem & Hout).
  unfold bind at 1. rewrite Hpop.
  rewrite hash_for_each_in_window, hash_count_candidates by apply window_nonneg.
  exists m2. split; [|exact Hout].
  f_equal. rewrite Z.add_0_l. apply (passing_window _ digits digits); [lia|].
  intros u Hu. f_equal. apply eq_true_iff_eq.
  rewrite hash_table_contains_spec, Hmem, Hnil, is_prime_spec by assumption.
  unfold primes. rewrite elem_of_nil, elem_of_primes_between.
  split; [tauto|]. intros Hp. pose proof (prime_ge_2 u Hp). right. split; [lia|assumption].
Qed.

Lemma foldr_add_shift (a : Z) (l : list Z) : foldr Z.add a l = a + foldr Z.add 0 l.
Proof. induction l as [|x l IH]; cbn; lia. Qed.

Lemma rt_total_0 : rt_total 0 = 0.
Proof. reflexivity. Qed.

Lemma rt_total_succ (D : Z) :
  0 <= D -> rt_total (D + 1) = rt_total D + rt_count (D + 1).
Proof.
  intros HD. unfold rt_total.
  rewrite seqZ_app, fmap_app, foldr_app by lia.
  rewrite foldr_add_shift. rewrite (seqZ_cons _ 1) by lia.
  rewrite (seqZ_nil _ (Z.pred 1)) by lia.
  cbn [fmap list_fmap foldr]. replace (1 + D) with (D + 1) by lia. lia.
Qed.

(** No right-truncatable prime has more than eight digits: from the bound 8
    on, the total stays what it is at 8. *)
Lemma rt_total_from_8 (D : Z) : 8 <= D -> rt_total D = rt_total 8.
Proof.
  intros HD. assert (Hnat : exists n : nat, D = 8 + Z.of_nat n)
    by (exists (Z.to_nat (D - 8)); lia).
  destruct Hnat as [n ->]. clear HD. induction n as [|n IH]; [reflexivity|].
  replace (8 + Z.of_nat (S n)) with (8 + Z.of_nat n + 1) by lia.
  rewrite rt_total_succ, IH, rt_count_none by lia. lia.
Qed.

Lemma rt_total_first (i n : Z) :
  0 < n ->
  foldr Z.add 0 (rt_count <$> seqZ i n)
  = rt_count i + foldr Z.add 0 (rt_count <$> seqZ (i + 1) (n - 1)).
Proof. intros Hn. rewrite seqZ_cons by lia. reflexivity. Qed.

(** The summing loop of the C [main]. *)
Lemma hash_sum_counts_spec (env : environment) :
  generator_contract env ->
  allocations_succeed env ->
  forall (iterations : nat) (i total_count : Z) (m : machine),
  1 <= i -> i + Z.of_nat iterations <= 20 ->
  0 <= total_count -> total_count + 16 * Z.of_nat iterations < 2 ^ 64 ->
  exists m',
    Hash.sum_counts env iterations i total_count m
    = Done (Some (total_count
                  + foldr Z.add 0 (rt_count <$> seqZ i (Z.of_nat iterations)))) m'
    /\ output m'
       = output m ++ ((fun k => Generate 2 (10 ^ k - 1)) <$> seqZ i (Z.of_nat iterations)).
Proof.
  intros Hgen Halloc. induction iterations as [|n IH]; intros i total m Hi Hn Ht Hb.
  - exists m. cbn. rewrite Z.add_0_r, app_nil_r. split; reflexivity.
  - cbn [Hash.sum_counts]. unfold bind at 1.
    destruct (hash_count_right_trunc_primes_spec env i m Hgen Halloc ltac:(lia))
      as (m1 & -> & Hout1).
    pose proof (rt_count_bound i ltac:(lia)) as Hc.
    destruct (Z.ltb_spec (rt_count i) 0); [lia|].
    rewrite wrap64_small by lia.
    destruct (IH (i + 1) (total + rt_count i) m1) as (m2 & -> & Hout2); try lia.
    exists m2. rewrite (rt_total_first i (Z.of_nat (S n))) by lia.
    rewrite (seqZ_cons i (Z.of_nat (S n))) by lia.
    replace (Z.pred (Z.of_nat (S n))) with (Z.of_nat n) by lia.
    replace (Z.of_nat (S n) - 1) with (Z.of_nat n) by lia.
    split; [f_equal; f_equal; lia|].
    rewrite Hout2, Hout1, <- app_assoc. reflexivity.
Qed.

Lemma hash_main_spec (env : environment) (argv : list string) (D : Z) (m : machine) :
  generator_contract env ->
  allocations_succeed env ->
  length argv = 2%nat ->
  atoi env (nth 1 argv ""%string) = D ->
  1 <= D <= 19 ->
  exists m',
    Hash.main env argv m = Done 0 m'
    /\ output m' = output m ++ hash_report D.
Proof.
  intros Hgen Halloc Hargc Hatoi HD. unfold Hash.main.
  rewrite Hargc, Hatoi. change (negb (Z.of_nat 2 =? 2)) with false. cbv iota.
  destruct (Z.ltb_spec D 1); [lia|]. destruct (Z.ltb_spec 19 D); [lia|]. cbn [orb].
  unfold bind at 1.
  destruct (hash_count_right_trunc_primes_spec env D m Hgen Halloc HD)
    as (m1 & -> & Hout1).
  pose proof (rt_count_bound D ltac:(lia)) as Hc.
  destruct (Z.ltb_spec (rt_count D) 0); [lia|].
  unfold bind at 1. unfold emit at 1. unfold bind at 1.
  set (m2 := {| allocations := allocations m1;
                output := output m1 ++ [Stdout (Hash.count_line D (rt_count D))] |}).
  destruct (hash_sum_counts_spec env Hgen Halloc (Z.to_nat D) 1 0 m2)
    as (m3 & -> & Hout3); try lia.
  unfold bind, emit, ret. eexists. split; [reflexivity|].
  cbn [output]. rewrite Hout3. unfold m2. cbn [output]. rewrite Hout1.
  unfold hash_report, rt_total. rewrite Z2Nat.id, Z.add_0_l by lia.
  rewrite <- !app_assoc. reflexivity.
Qed.

(** * The C++ program on a valid digit bound *)

Lemma prime_count_u64 (D k : Z) : 0 <= D <= 19 -> 0 <= prime_count D k < 2 ^ 64.
Proof.
  intros HD. unfold prime_count, window.
  pose proof (length_filter (fun p => 10 ^ (k - 1) <= p <= 10 ^ k - 1)
                (primes_between 2 (10 ^ D - 1))) as Hlen.
  pose proof (primes_count_u64 D HD). lia.
Qed.

Lemma bitset_indexes_query (prime_bitset : list bool) (D u : Z) :
  bitset_indexes prime_bitset (primes_between 2 (10 ^ D - 1)) ->
  0 < u < 10 ^ D ->
  Bitset.bitset_contains prime_bitset u = Some (is_prime u).
Proof.
  intros Hidx Hu. specialize (Hidx u ltac:(lia)).
  rewrite elem_of_primes_between, <- is_prime_spec in Hidx.
  destruct (bitset_contains_defined prime_bitset u ltac:(lia)) as [b Hb].
  rewrite Hb in Hidx |- *. f_equal.
  destruct b, (is_prime u) eqn:Hp; try reflexivity; exfalso.
  - destruct Hidx as [Hidx _]. specialize (Hidx eq_refl). destruct Hidx; discriminate.
  - destruct Hidx as [_ Hidx]. apply is_prime_spec, prime_ge_2 in Hp as Hge.
    assert (Some false = Some true) by (apply Hidx; split; [lia|reflexivity]).
    discriminate.
Qed.

(** The C++ function visits the window and leaves its size in
    [primes_per_digit], whatever the bit table holds. *)
Lemma bitset_count_right_trunc_primes_window (D digits : Z)
    (primes_per_digit : list Z) (prime_bitset : list bool) (m : machine) :
  1 <= digits <= D -> D <= 19 ->
  digits < Z.of_nat (length primes_per_digit) ->
  Bitset.count_right_trunc_primes (primes_between 2 (10 ^ D - 1))
    primes_per_digit prime_bitset digits m
  = Done (passing (Bitset.bitset_contains prime_bitset)
            (window (10 ^ (digits - 1)) (10 ^ digits - 1)
               (primes_between 2 (10 ^ D - 1))),
          <[Z.to_nat digits := prime_count D digits]> primes_per_digit) m.
Proof.
  intros Hd HD Hlen. unfold Bitset.count_right_trunc_primes.
  destruct (Z.ltb_spec digits 1); [lia|]. destruct (Z.ltb_spec 19 digits); [lia|].
  cbn [orb]. rewrite vector_set_Some by lia. unfold bind at 1. cbn [lift]. unfold ret at 1.
  rewrite digits_end_spec, power_of_10_spec by lia.
  rewrite bitset_for_each_in_window by apply StronglySorted_primes_between.
  assert (Hdigits : 0 <= digits) by lia.
  rewrite (bitset_count_candidates prime_bitset digits _ (window_nonneg _ _ _)
             Hdigits 0 0);
    [|apply list_lookup_insert_eq; lia|lia].
  rewrite list_insert_insert_eq, !Z.add_0_l.
  fold (prime_count D digits). rewrite wrap64_small by (apply prime_count_u64; lia).
  reflexivity.
Qed.

Lemma bitset_count_right_trunc_primes_spec (D digits : Z)
    (primes_per_digit : list Z) (prime_bitset : list bool) (m : machine) :
  1 <= digits <= D -> D <= 19 ->
  digits < Z.of_nat (length primes_per_digit) ->
  bitset_indexes prime_bitset (primes_between 2 (10 ^ D - 1)) ->
  Bitset.count_right_trunc_primes (primes_between 2 (10 ^ D - 1))
    primes_per_digit prime_bitset digits m
  = Done (rt_count digits,
          <[Z.to_nat digits := prime_count D digits]> primes_per_digit) m.
Proof.
  intros Hd HD Hlen Hidx.
  rewrite (bitset_count_right_trunc_primes_window D) by assumption.
  f_equal. f_equal. apply passing_window; [lia|].
  intros u Hu. apply (bitset_indexes_query _ D); [assumption|].
  assert (10 ^ digits <= 10 ^ D) by (apply Z.pow_le_mono_r; lia). lia.
Qed.

Lemma bitset_report_counts_spec (D : Z) (prime_bitset : list bool) :
  D <= 19 ->
  bitset_indexes prime_bitset (primes_between 2 (10 ^ D - 1)) ->
  forall (i : nat) (primes_per_digit : list Z) (total_count : Z) (m : machine),
  Z.of_nat i <= D ->
  Z.of_nat (length primes_per_digit) = D + 1 ->
  Bitset.report_counts (primes_between 2 (10 ^ D - 1)) prime_bitset i
    primes_per_digit total_count m
  = Done (Some (total_count + rt_total (Z.of_nat i)))
      {| allocations := allocations m;
         output := output m ++ bitset_count_lines D i |}.
Proof.
  intros HD Hidx. induction i as [|i IH]; intros ppd total m Hi Hlen.
  - cbn [Bitset.report_counts]. unfold ret, bitset_count_lines.
    change (Z.of_nat 0) with 0. rewrite rt_total_0, Z.add_0_r.
    cbn. rewrite app_nil_r. destruct m; reflexivity.
  - cbn [Bitset.report_counts]. unfold bind at 1.
    rewrite (bitset_count_right_trunc_primes_spec D) by (assumption || lia).
    pose proof (rt_count_bound (Z.of_nat (S i)) ltac:(lia)) as Hc.
    destruct (Z.ltb_spec (rt_count (Z.of_nat (S i))) 0); [lia|].
    unfold bind at 1. unfold Bitset.vector_get.
    destruct (Z.leb_spec 0 (Z.of_nat (S i))); [|lia].
    rewrite list_lookup_insert_eq by lia. cbn [lift]. unfold ret at 1.
    unfold bind at 1. unfold emit at 1.
    rewrite IH by (rewrite ?length_insert; lia). cbn [allocations output].
    f_equal.
    + f_equal. replace (Z.of_nat (S i)) with (Z.of_nat i + 1) by lia.
      rewrite rt_total_succ by lia. lia.
    + f_equal. rewrite <- app_assoc. f_equal.
      unfold bitset_count_lines. rewrite seqZ_S, reverse_snoc, fmap_cons.
      replace (1 + Z.of_nat i) with (Z.of_nat (S i)) by lia. reflexivity.
Qed.

Lemma bitset_main_spec (env : environment) (argv : list string) (D : Z) (m : machine) :
  generator_contract env ->
  length argv = 2%nat ->
  atoi env (nth 1 argv ""%string) = D ->
  1 <= D <= 19 ->
  Bitset.main env argv m
  = Done 0 {| allocations := allocations m; output := output m ++ bitset_report D |}.
Proof.
  intros Hgen Hargc Hatoi HD. unfold Bitset.main.
  rewrite Hargc, Hatoi. change (negb (Z.of_nat 2 =? 2)) with false. cbv iota.
  destruct (Z.ltb_spec D 1); [lia|]. destruct (Z.ltb_spec 19 D); [lia|]. cbn [orb].
  cbv zeta. rewrite digits_end_spec by lia.
  unfold bind at 1. unfold emit at 1. rewrite Hgen.
  replace (10 ^ D - 1 + 1) with (10 ^ D) by lia.
  pose proof (pow10_pos D ltac:(lia)) as Hpos.
  rewrite wrap64_small by (pose proof (pow10_le_u64 D ltac:(lia)); lia).
  destruct (bitset_index_spec (primes_between 2 (10 ^ D - 1)) (Z.to_nat (10 ^ D)))
    as (bs & -> & _ & Hidx).
  { intros p Hp. apply elem_of_primes_between in Hp. lia. }
  unfold bind at 1. cbn [lift]. unfold ret at 1. unfold bind at 1.
  rewrite (bitset_report_counts_spec D bs) by
    (try assumption; rewrite ?length_replicate; lia).
  unfold bind, emit, ret. cbn [allocations output]. f_equal. f_equal.
  unfold bitset_report. rewrite Z2Nat.id by lia.
  rewrite <- !app_assoc. reflexivity.
Qed.

(** * Totality of the counting functions *)

Lemma truncation_loop_total (contains : Z -> option bool) (v : Z) :
  (forall u, 0 < u -> is_Some (contains u)) ->
  exists queried, truncation_loop contains v = Some (passes contains v, queried).
Proof.
  intros Hdef. destruct (Z_le_dec v 0) as [Hv|Hv].
  - exists []. unfold passes. rewrite truncation_loop_zero by assumption. reflexivity.
  - destruct (truncation_loop_spec contains v ltac:(lia)) as (r & q & Hloop & _);
      [intros; apply Hdef; lia|].
    exists q. unfold passes. rewrite Hloop. destruct r; reflexivity.
Qed.

Lemma hash_populate_total (env : environment) (primes : list Z) :
  forall (ht : option Hash.hash_table_t) (m : machine),
  exists r m', Hash.populate env ht primes m = Done r m'.
Proof.
  induction primes as [|p rest IH]; intros ht m; cbn [Hash.populate].
  - unfold ret. eauto.
  - unfold bind at 1.
    assert (Hadd : exists added ht' m1,
               Hash.hash_table_add env ht p m = Done (added, ht') m1).
    { unfold Hash.hash_table_add, bind, allocate, emit, ret.
      destruct ht as [t|]; [|eauto]. cbv zeta.
      destruct (Hash.chain_search _ p); [eauto|].
      destruct (malloc_ok env (allocations m)); cbn; eauto. }
    destruct Hadd as (added & ht' & m1 & ->).
    destruct added; cbn [negb]; [apply IH|unfold ret; eauto].
Qed.

Lemma hash_table_create_total (env : environment) (table_size : Z) (m : machine) :
  exists ht m', Hash.hash_table_create env table_size m = Done ht m'.
Proof.
  unfold Hash.hash_table_create, bind, allocate, emit, ret.
  destruct (malloc_ok env (allocations m)); cbn; [|eauto].
  destruct (malloc_ok env (S (allocations m))); cbn; eauto.
Qed.

Lemma hash_scan_total (ht : option Hash.hash_table_t) (start stop : Z)
    (arr : list Z) :
  forall (count : Z) (m : machine),
  exists count', Hash.for_each_in_window (Hash.check_candidate ht) start stop arr count m
                 = Done count' m.
Proof.
  induction arr as [|p rest IH]; intros count m; cbn [Hash.for_each_in_window].
  - unfold ret. eauto.
  - destruct ((p <? start) || (stop <? p)); [apply IH|].
    unfold bind at 1. unfold Hash.check_candidate, bind.
    destruct (truncation_loop_total (fun v => Some (Hash.hash_table_contains ht v)) p)
      as [q ->]; [eauto|].
    cbn [lift]. unfold ret at 1 2. apply IH.
Qed.

Lemma hash_count_right_trunc_primes_total (env : environment) (digits : Z)
    (m : machine) :
  exists count m', Hash.count_right_trunc_primes env digits m = Done count m'.
Proof.
  unfold Hash.count_right_trunc_primes.
  destruct ((digits <? 1) || (19 <? digits)); [unfold bind, emit, ret; eauto|].
  cbv zeta. unfold bind at 1. unfold emit at 1.
  destruct (primesieve_generate_primes env 2 _) as [arr|];
    [|unfold bind, emit, ret; eauto].
  unfold bind at 1.
  set (table_size := if Z.of_nat (length arr) =? 0 then 17 else _).
  destruct (hash_table_create_total env table_size
              {| allocations := allocations m;
                 output := output m ++ [Generate 2 (wrap64 (power_of_10 digits - 1))] |})
    as (ht & m1 & ->).
  destruct ht as [t|]; [|unfold bind, emit, ret; eauto].
  unfold bind at 1.
  destruct (hash_populate_total env arr (Some t) m1) as (r & m2 & ->).
  destruct r as [p|ht]; [unfold bind, emit, ret; eauto|].
  destruct (hash_scan_total ht (power_of_10 (digits - 1))
              (wrap64 (power_of_10 digits - 1)) arr 0 m2) as [c ->]. eauto.
Qed.

Lemma bitset_scan_total (prime_bitset : list bool) (digits start stop : Z)
    (arr : list Z) :
  0 <= digits ->
  forall (count : Z) (primes_per_digit : list Z) (m : machine),
  digits < Z.of_nat (length primes_per_digit) ->
  exists count' primes_per_digit',
    Bitset.for_each_in_window (Bitset.check_candidate prime_bitset digits)
      start stop arr (count, primes_per_digit) m
    = Done (count', primes_per_digit') m.
Proof.
  intros Hd. induction arr as [|p rest IH]; intros count ppd m Hlen;
    cbn [Bitset.for_each_in_window].
  - unfold ret. eauto.
  - destruct (p <? start); [apply IH; assumption|].
    destruct (stop <? p); [unfold ret; eauto|].
    unfold bind at 1. unfold Bitset.check_candidate, bind.
    destruct (vector_get_Some ppd digits ltac:(lia)) as [n ->].
    cbn [lift]. unfold ret at 1. rewrite vector_set_Some by lia.
    cbn [lift]. unfold ret at 1.
    destruct (truncation_loop_total (Bitset.bitset_contains prime_bitset) p) as [q ->].
    { intros u Hu. apply bitset_contains_defined. lia. }
    cbn [lift]. unfold ret at 1 2. apply IH. rewrite length_insert. assumption.
Qed.

Lemma bitset_count_right_trunc_primes_total (arr primes_per_digit : list Z)
    (prime_bitset : list bool) (digits : Z) (m : machine) :
  digits < Z.of_nat (length primes_per_digit) ->
  exists count primes_per_digit' m',
    Bitset.count_right_trunc_primes arr primes_per_digit prime_bitset digits m
    = Done (count, primes_per_digit') m'.
Proof.
  intros Hlen. unfold Bitset.count_right_trunc_primes.
  destruct (Z.ltb_spec digits 1); cbn [orb]; [unfold bind, emit, ret; eauto|].
  destruct (19 <? digits); [unfold bind, emit, ret; eauto|].
  rewrite vector_set_Some by lia. unfold bind at 1. cbn [lift]. unfold ret at 1.
  destruct (bitset_scan_total prime_bitset digits (power_of_10 (digits - 1))
              (wrap64 (power_of_10 digits - 1)) arr ltac:(lia) 0
              (<[Z.to_nat digits := 0]> primes_per_digit) m) as (c & ppd' & ->);
    [rewrite length_insert; assumption|eauto].
Qed.

(** * The truncation check *)

(** C1. For a candidate [v] of the digit window, in both programs: the
    truncation loop ends with [is_r_truncatable] true if and only if the
    membership index reports true for [v] and for each of its truncations
    [v / 10^j] that still has a digit (down to the leading digit); it queries
    the truncations in order and stops at the first one the index does not
    know; and the loop body adds one to the window's count exactly when the
    verdict is true. *)
Theorem truncation_counter_classifies
    (ht : option Hash.hash_table_t) (prime_bitset : list bool)
    (primes_per_digit : list Z) (digits n v count : Z) (m : machine)
    (Hv : 0 <= v) (Hdigits : 0 <= digits)
    (Hn : primes_per_digit !! Z.to_nat digits = Some n) :
  (exists r queried,
     classifies (fun u => Some (Hash.hash_table_contains ht u)) v r queried
     /\ Hash.check_candidate ht v count m
        = Done (if r then count + 1 else count) m)
  /\ (exists r queried,
     classifies (Bitset.bitset_contains prime_bitset) v r queried
     /\ Bitset.check_candidate prime_bitset digits v (count, primes_per_digit) m
        = Done (if r then count + 1 else count,
                <[Z.to_nat digits := wrap64 (n + 1)]> primes_per_digit) m).
Proof.
  split.
  - destruct (truncation_loop_spec (fun u => Some (Hash.hash_table_contains ht u)) v Hv)
      as (r & q & Hloop & Hr & Hq); [eauto|].
    exists r, q. split; [split; [|split]; assumption|].
    rewrite hash_check_candidate_spec by assumption.
    unfold passes. rewrite Hloop. destruct r; f_equal; lia.
  - destruct (truncation_loop_spec (Bitset.bitset_contains prime_bitset) v Hv)
      as (r & q & Hloop & Hr & Hq).
    { intros u Hu. apply bitset_contains_defined. lia. }
    exists r, q. split; [split; [|split]; assumption|].
    rewrite (bitset_check_candidate_spec _ _ _ _ n) by assumption.
    unfold passes. rewrite Hloop. destruct r; f_equal; f_equal; lia.
Qed.

Lemma truncation_counter_classifies_witness :
  0 <= 73 /\ 0 <= 3 /\ [0; 0; 0; 5] !! Z.to_nat 3 = Some 5
  /\ (exists r queried,
        classifies (fun u => Some (Hash.hash_table_contains sample_hash_set u)) 73 r queried
        /\ Hash.check_candidate sample_hash_set 73 8 initial_machine
           = Done (if r then 8 + 1 else 8) initial_machine)
  /\ (exists r queried,
        classifies (Bitset.bitset_contains sample_bitset) 73 r queried
        /\ Bitset.check_candidate sample_bitset 3 73 (8, [0; 0; 0; 5]) initial_machine
           = Done (if r then 8 + 1 else 8,
                   <[Z.to_nat 3 := wrap64 (5 + 1)]> [0; 0; 0; 5]) initial_machine).
Proof.
  split; [lia|]. split; [lia|]. split; [reflexivity|].
  apply (truncation_counter_classifies sample_hash_set sample_bitset
           [0; 0; 0; 5] 3 5 73 8 initial_machine); [lia|lia|reflexivity].
Defined.

(** The loop at work on the sample indexes: 73 passes after two queries, 91
    is rejected at the first query, 77 (not prime) at the first, 19 at the
    second (1 is not prime). *)
Example truncation_loop_samples :
  truncation_loop (Bitset.bitset_contains sample_bitset) 73 = Some (true, [73; 7])
  /\ truncation_loop (Bitset.bitset_contains sample_bitset) 91 = Some (false, [91])
  /\ truncation_loop (fun u => Some (Hash.hash_table_contains sample_hash_set u)) 19
     = Some (false, [19; 1])
  /\ truncation_loop (fun u => Some (Hash.hash_table_contains sample_hash_set u)) 739
     = Some (false, [739]).
Proof. vm_compute. repeat split. Qed.

(** C5. Inserting a value the hash set already contains reports success (1,
    whatever the allocator would have answered) and leaves the table and the
    machine as they were: every membership result and the entry count are
    unchanged. *)
Theorem hash_table_add_idempotent (env : environment)
    (ht : option Hash.hash_table_t) (v : Z) (m : machine)
    (Hpresent : Hash.hash_table_contains ht v = true) :
  exists ht',
    Hash.hash_table_add env ht v m = Done (true, ht') m
    /\ (forall w, Hash.hash_table_contains ht' w = Hash.hash_table_contains ht w)
    /\ (Hash.count <$> ht') = (Hash.count <$> ht)
    /\ ht' = ht.
Proof.
  destruct ht as [t|]; [|discriminate].
  exists (Some t). rewrite hash_table_add_present by assumption.
  repeat split.
Qed.

Lemma hash_table_add_idempotent_witness :
  Hash.hash_table_contains sample_hash_set 97 = true
  /\ exists ht',
       Hash.hash_table_add {| malloc_ok := fun _ => false;
                              primesieve_generate_primes := fun _ _ => None;
                              atoi := fun _ => 0 |} sample_hash_set 97 initial_machine
       = Done (true, ht') initial_machine
       /\ (forall w, Hash.hash_table_contains ht' w
                     = Hash.hash_table_contains sample_hash_set w)
       /\ (Hash.count <$> ht') = (Hash.count <$> sample_hash_set)
       /\ ht' = sample_hash_set.
Proof.
  split; [reflexivity|].
  apply (hash_table_add_idempotent _ sample_hash_set 97 initial_machine).
  reflexivity.
Defined.

(** A second insertion of the same value changes nothing either. *)
Lemma hash_table_add_twice (env : environment) (t : Hash.hash_table_t) (v : Z)
    (m m1 : machine) (ht1 : option Hash.hash_table_t) :
  hash_table_inv t ->
  Hash.hash_table_add env (Some t) v m = Done (true, ht1) m1 ->
  Hash.hash_table_add env ht1 v m1 = Done (true, ht1) m1.
Proof.
  intros Hinv Hfirst.
  destruct (Hash.hash_table_contains (Some t) v) eqn:Hc.
  - rewrite hash_table_add_present in Hfirst by assumption.
    injection Hfirst as <- <-. apply hash_table_add_present. assumption.
  - destruct (malloc_ok env (allocations m)) eqn:Hok.
    + destruct (hash_table_add_fresh env t v m Hinv Hc Hok)
        as (t' & Hadd & Hinv' & _ & Hperm).
      rewrite Hadd in Hfirst. injection Hfirst as <- <-.
      apply hash_table_add_present, hash_table_contains_spec; [assumption|].
      rewrite Hperm. left.
    + rewrite hash_table_add_failed in Hfirst by assumption. discriminate.
Qed.

(** C6. The bit-table query never reads outside the table: a value at or
    beyond the table's length is answered false without a read, any other
    value is answered by the read of its own cell, which lies inside the
    table; so the query is always defined, and the truncation loop over it
    never performs an undefined access. *)
Theorem bitset_query_bounds_checked (prime_bitset : list bool) (v : Z)
    (Hv : 0 <= v) :
  (Z.of_nat (length prime_bitset) <= v ->
     Bitset.bitset_contains prime_bitset v = Some false)
  /\ (v < Z.of_nat (length prime_bitset) ->
     exists b, prime_bitset !! Z.to_nat v = Some b
               /\ Bitset.bitset_contains prime_bitset v = Some b)
  /\ is_Some (Bitset.bitset_contains prime_bitset v)
  /\ is_Some (truncation_loop (Bitset.bitset_contains prime_bitset) v).
Proof.
  unfold Bitset.bitset_contains, Bitset.vector_get.
  split; [|split; [|split]].
  - intros Hout. destruct (Z.leb_spec (Z.of_nat (length prime_bitset)) v); [reflexivity|lia].
  - intros Hin. destruct (Z.leb_spec (Z.of_nat (length prime_bitset)) v); [lia|].
    destruct (Z.leb_spec 0 v); [|lia].
    destruct (lookup_lt_is_Some_2 prime_bitset (Z.to_nat v) ltac:(lia)) as [b Hb].
    exists b. rewrite Hb. split; reflexivity.
  - apply bitset_contains_defined. assumption.
  - destruct (truncation_loop_total (Bitset.bitset_contains prime_bitset) v) as [q Hq].
    + intros u Hu. apply bitset_contains_defined. lia.
    + unfold Bitset.bitset_contains, Bitset.vector_get in Hq. rewrite Hq. eauto.
Qed.

Lemma bitset_query_bounds_checked_witness :
  0 <= 100
  /\ (Z.of_nat (length sample_bitset) <= 100 ->
        Bitset.bitset_contains sample_bitset 100 = Some false)
  /\ (100 < Z.of_nat (length sample_bitset) ->
        exists b, sample_bitset !! Z.to_nat 100 = Some b
                  /\ Bitset.bitset_contains sample_bitset 100 = Some b)
  /\ is_Some (Bitset.bitset_contains sample_bitset 100)
  /\ is_Some (truncation_loop (Bitset.bitset_contains sample_bitset) 100).
Proof.
  split; [lia|]. apply (bitset_query_bounds_checked sample_bitset 100). lia.
Defined.

Example bitset_contains_samples :
  Bitset.bitset_contains sample_bitset 97 = Some true
  /\ Bitset.bitset_contains sample_bitset 99 = Some false
  /\ Bitset.bitset_contains sample_bitset 100 = Some false
  /\ Bitset.bitset_contains sample_bitset 18446744073709551615 = Some false.
Proof. vm_compute. repeat split. Qed.

(** C10. The truncation loop terminates on every unsigned 64-bit candidate:
    it returns after at most 20 membership queries (one per decimal digit),
    each division by ten strictly decreasing a positive value, and when no
    query fails it ends with the value at 0; and both
    counting functions return a result (never an undefined access) on every
    digit bound, the C++ one given a [primes_per_digit] vector that has the
    cell of that digit length. *)
Theorem truncation_check_terminates
    (contains : Z -> option bool) (v : Z)
    (env : environment) (digits : Z) (m : machine)
    (all_primes_array primes_per_digit : list Z) (prime_bitset : list bool)
    (Hv : 0 <= v < 2 ^ 64)
    (Hdefined : forall u, 0 < u -> is_Some (contains u))
    (Hcell : digits < Z.of_nat (length primes_per_digit)) :
  (exists is_r_truncatable queried,
     truncation_loop contains v = Some (is_r_truncatable, queried)
     /\ (length queried <= 20)%nat
     /\ queried = truncation v <$> seq 0 (length queried)
     /\ (is_r_truncatable = true -> truncation v (length queried) = 0))
  /\ (0 < v -> 0 <= v / 10 < v)
  /\ (exists count m',
        Hash.count_right_trunc_primes env digits m = Done count m')
  /\ (exists count primes_per_digit' m',
        Bitset.count_right_trunc_primes all_primes_array primes_per_digit
          prime_bitset digits m
        = Done (count, primes_per_digit') m').
Proof.
  split; [|split; [|split]].
  - destruct (truncation_loop_spec contains v ltac:(lia)) as (r & q & Hloop & _ & Hq);
      [intros; apply Hdefined; lia|].
    exists r, q. split; [assumption|]. split; [|split].
    + apply (queries_of_length contains v r); assumption.
    + apply Hq.
    + intros ->. apply Hq.
  - intros Hpos. split; [apply Z.div_pos; lia|apply Z.div_lt; lia].
  - apply hash_count_right_trunc_primes_total.
  - apply bitset_count_right_trunc_primes_total. assumption.
Qed.

Lemma truncation_check_terminates_witness :
  0 <= 18446744073709551615 < 2 ^ 64
  /\ (forall u, 0 < u -> is_Some (Some true : option bool))
  /\ 19 < Z.of_nat (length (replicate 20 0))
  /\ (exists is_r_truncatable queried,
        truncation_loop (fun _ => Some true) 18446744073709551615
        = Some (is_r_truncatable, queried)
        /\ (length queried <= 20)%nat
        /\ queried = truncation 18446744073709551615 <$> seq 0 (length queried)
        /\ (is_r_truncatable = true
            -> truncation 18446744073709551615 (length queried) = 0))
  /\ (0 < 18446744073709551615 -> 0 <= 18446744073709551615 / 10 < 18446744073709551615)
  /\ (exists count m',
        Hash.count_right_trunc_primes reference_environment 19 initial_machine
        = Done count m')
  /\ (exists count primes_per_digit' m',
        Bitset.count_right_trunc_primes [2; 3; 5; 7] (replicate 20 0)
          sample_bitset 19 initial_machine
        = Done (count, primes_per_digit') m').
Proof.
  assert (H1 : 0 <= 18446744073709551615 < 2 ^ 64) by (split; [lia|reflexivity]).
  assert (H2 : forall u : Z, 0 < u -> is_Some (Some true : option bool)) by eauto.
  assert (H3 : 19 < Z.of_nat (length (replicate 20 0))) by (cbn; lia).
  split; [exact H1|]. split; [exact H2|]. split; [exact H3|].
  exact (truncation_check_terminates (fun _ => Some true) 18446744073709551615
           reference_environment 19 initial_machine [2; 3; 5; 7] (replicate 20 0)
           sample_bitset H1 H2 H3).
Defined.

(** The largest 64-bit value costs exactly twenty queries. *)
Example truncation_loop_longest :
  (fun r => length r.2) <$> truncation_loop (fun _ => Some true) 18446744073709551615
  = Some 20%nat.
Proof. vm_compute. reflexivity. Qed.

(** * The membership index after the build *)

(** The build of the C program over any array whose doubled length fits
    [size_t]: the table answers exactly for the array's values. *)
Lemma hash_index_spec (env : environment) (primes : list Z) (m : machine) :
  allocations_succeed env ->
  Z.of_nat (length primes) * 2 < 2 ^ 64 ->
  exists t0 t m1 m2,
    Hash.hash_table_create env
      (if Z.of_nat (length primes) =? 0 then 17
       else wrap64 (Z.of_nat (length primes) * 2)) m = Done (Some t0) m1
    /\ Hash.populate env (Some t0) primes m1 = Done (inr (Some t)) m2
    /\ hash_table_inv t
    /\ (forall v, Hash.hash_table_contains (Some t) v = true <-> v ∈ primes)
    /\ (NoDup primes -> Hash.count t = Z.of_nat (length primes)).
Proof.
  intros Halloc Hlen.
  set (table_size := if Z.of_nat (length primes) =? 0 then 17 else _).
  assert (Hsize : 0 < table_size).
  { unfold table_size. destruct (Z.eqb_spec (Z.of_nat (length primes)) 0); [lia|].
    rewrite wrap64_small by lia. lia. }
  destruct (hash_table_create_spec env table_size m Halloc Hsize)
    as (t0 & Hcreate & Hinv0 & _ & Hnil).
  destruct (populate_spec env primes Halloc t0
              {| allocations := S (S (allocations m)); output := output m |} Hinv0)
    as (t & m2 & Hpop & Hinv & _ & Hmem & _).
  eexists t0, t, _, m2. split; [exact Hcreate|]. split; [exact Hpop|].
  split; [assumption|].
  assert (Hiff : forall v, v ∈ entries t <-> v ∈ primes).
  { intros v. rewrite Hmem, Hnil, elem_of_nil. tauto. }
  split.
  - intros v. rewrite hash_table_contains_spec by assumption. apply Hiff.
  - intros Hnodup. rewrite (inv_count t Hinv).
    rewrite (Permutation_length (NoDup_Permutation _ _ (inv_nodup t Hinv) Hnodup Hiff)).
    apply wrap64_small. lia.
Qed.

(** C2. After the C program has built its hash set from the primes generated
    for a digit bound [D] in [[1, 19]] (all allocations succeeding):
    [hash_table_contains] returns true for every prime of the sequence and
    false for every integer of [[2, 10^D - 1]] that is not in the sequence;
    no value is stored twice, and [count] is the number of primes. *)
Theorem membership_index_exact (env : environment) (D : Z) (m : machine)
    (Halloc : allocations_succeed env) (HD : 1 <= D <= 19) :
  let primes := primes_between 2 (10 ^ D - 1) in
  let table_size :=
    if Z.of_nat (length primes) =? 0 then 17
    else wrap64 (Z.of_nat (length primes) * 2) in
  exists t0 t m1 m2,
    Hash.hash_table_create env table_size m = Done (Some t0) m1
    /\ Hash.populate env (Some t0) primes m1 = Done (inr (Some t)) m2
    /\ (forall v, v ∈ primes -> Hash.hash_table_contains (Some t) v = true)
    /\ (forall w, 2 <= w <= 10 ^ D - 1 -> w ∉ primes ->
          Hash.hash_table_contains (Some t) w = false)
    /\ (forall w, ~ Z.prime w -> Hash.hash_table_contains (Some t) w = false)
    /\ NoDup (entries t)
    /\ Hash.count t = Z.of_nat (length primes).
Proof.
  intros primes table_size.
  destruct (hash_index_spec env primes m Halloc) as (t0 & t & m1 & m2 & Hc & Hp & Hinv & Hmem & Hcount).
  { apply primes_count_u64. lia. }
  exists t0, t, m1, m2. split; [exact Hc|]. split; [exact Hp|].
  split; [|split; [|split; [|split]]].
  - intros v Hv. apply Hmem. assumption.
  - intros w _ Hw. apply not_true_is_false. rewrite Hmem. assumption.
  - intros w Hw. apply not_true_is_false. rewrite Hmem.
    unfold primes. rewrite elem_of_primes_between. tauto.
  - apply (inv_nodup t Hinv).
  - apply Hcount, NoDup_primes_between.
Qed.

Lemma membership_index_exact_witness :
  allocations_succeed reference_environment /\ 1 <= 2 <= 19
  /\ let primes := primes_between 2 (10 ^ 2 - 1) in
     let table_size :=
       if Z.of_nat (length primes) =? 0 then 17
       else wrap64 (Z.of_nat (length primes) * 2) in
     exists t0 t m1 m2,
       Hash.hash_table_create reference_environment table_size initial_machine
       = Done (Some t0) m1
       /\ Hash.populate reference_environment (Some t0) primes m1 = Done (inr (Some t)) m2
       /\ (forall v, v ∈ primes -> Hash.hash_table_contains (Some t) v = true)
       /\ (forall w, 2 <= w <= 10 ^ 2 - 1 -> w ∉ primes ->
             Hash.hash_table_contains (Some t) w = false)
       /\ (forall w, ~ Z.prime w -> Hash.hash_table_contains (Some t) w = false)
       /\ NoDup (entries t)
       /\ Hash.count t = Z.of_nat (length primes).
Proof.
  assert (H1 : allocations_succeed reference_environment) by (intros n; reflexivity).
  assert (H2 : 1 <= 2 <= 19) by lia.
  split; [exact H1|]. split; [exact H2|].
  exact (membership_index_exact reference_environment 2 initial_machine H1 H2).
Defined.

(** The table built over the primes below 100: 25 entries in 50 buckets,
    membership as expected. *)
Example sample_hash_set_contents :
  (Hash.count <$> sample_hash_set) = Some 25
  /\ (Hash.size <$> sample_hash_set) = Some 50
  /\ Hash.hash_table_contains sample_hash_set <$> [2; 4; 89; 91; 97; 101]
     = [true; false; true; false; true; false].
Proof. vm_compute. repeat split. Qed.

(** * The digit window of the two programs *)

(** C7. For a digit bound [D <= 19] and a digit length [k] in [[1, D]], the
    candidates that the window loop of either program hands to the truncation
    check, over the sorted primes of [[2, 10^D - 1]], are exactly the primes
    [v] with [10^(k-1) <= v < 10^k], each once and in ascending order (for
    [k = 1] the bound 1 admits no prime below 2); for [k = 2] they are the
    primes from 10 to 99.  Their number is what the C++ function leaves in
    [primes_per_digit[k]]. *)
Theorem digit_window_exact (D k : Z) (m : machine)
    (Hk : 1 <= k <= D) (HD : D <= 19) :
  let all_primes_array := primes_between 2 (10 ^ D - 1) in
  let current_digits_start := power_of_10 (k - 1) in
  let current_digits_end := wrap64 (power_of_10 k - 1) in
  exists candidates,
    Hash.for_each_in_window record_candidate
      current_digits_start current_digits_end all_primes_array [] m
    = Done candidates m
    /\ Bitset.for_each_in_window record_candidate
         current_digits_start current_digits_end all_primes_array [] m
       = Done candidates m
    /\ (forall v, v ∈ candidates <-> Z.prime v /\ 10 ^ (k - 1) <= v < 10 ^ k)
    /\ StronglySorted Z.lt candidates
    /\ (k = 1 -> forall v, v ∈ candidates -> 2 <= v)
    /\ (k = 2 -> forall v, v ∈ candidates <-> Z.prime v /\ 10 <= v <= 99)
    /\ (forall prime_bitset primes_per_digit,
          k < Z.of_nat (length primes_per_digit) ->
          exists count,
            Bitset.count_right_trunc_primes all_primes_array primes_per_digit
              prime_bitset k m
            = Done (count,
                    <[Z.to_nat k := Z.of_nat (length candidates)]> primes_per_digit) m).
Proof.
  intros arr start stop. unfold start, stop.
  rewrite digits_end_spec, power_of_10_spec by lia.
  exists (window (10 ^ (k - 1)) (10 ^ k - 1) arr).
  assert (Hmono : 10 ^ k <= 10 ^ D) by (apply Z.pow_le_mono_r; lia).
  pose proof (pow10_pos (k - 1) ltac:(lia)) as Hpos.
  assert (Hmem : forall v, v ∈ window (10 ^ (k - 1)) (10 ^ k - 1) arr
                           <-> Z.prime v /\ 10 ^ (k - 1) <= v < 10 ^ k).
  { intros v. unfold arr. rewrite elem_of_window, elem_of_primes_between.
    split; [intros (? & ? & ?); split; [assumption|lia]|].
    intros [Hp Hr]. pose proof (prime_ge_2 v Hp).
    split; [lia|]. split; [lia|assumption]. }
  split; [|split; [|split; [|split; [|split; [|split]]]]].
  - rewrite hash_for_each_in_window. apply for_each_record.
  - rewrite bitset_for_each_in_window by apply StronglySorted_primes_between.
    apply for_each_record.
  - exact Hmem.
  - apply StronglySorted_filter, StronglySorted_primes_between.
  - intros _ v Hv. apply Hmem in Hv as [Hp _]. apply prime_ge_2. assumption.
  - intros -> v. rewrite Hmem. change (10 ^ (2 - 1)) with 10.
    change (10 ^ 2) with 100. split; intros [? ?]; split; (assumption || lia).
  - intros bs ppd Hcell. unfold arr.
    rewrite (bitset_count_right_trunc_primes_window D) by (assumption || lia).
    eexists. reflexivity.
Qed.

Lemma digit_window_exact_witness :
  1 <= 2 <= 3 /\ 3 <= 19
  /\ let all_primes_array := primes_between 2 (10 ^ 3 - 1) in
     let current_digits_start := power_of_10 (2 - 1) in
     let current_digits_end := wrap64 (power_of_10 2 - 1) in
     exists candidates,
       Hash.for_each_in_window record_candidate
         current_digits_start current_digits_end all_primes_array [] initial_machine
       = Done candidates initial_machine
       /\ Bitset.for_each_in_window record_candidate
            current_digits_start current_digits_end all_primes_array [] initial_machine
          = Done candidates initial_machine
       /\ (forall v, v ∈ candidates <-> Z.prime v /\ 10 ^ (2 - 1) <= v < 10 ^ 2)
       /\ StronglySorted Z.lt candidates
       /\ (2 = 1 -> forall v, v ∈ candidates -> 2 <= v)
       /\ (2 = 2 -> forall v, v ∈ candidates <-> Z.prime v /\ 10 <= v <= 99)
       /\ (forall prime_bitset primes_per_digit,
             2 < Z.of_nat (length primes_per_digit) ->
             exists count,
               Bitset.count_right_trunc_primes all_primes_array primes_per_digit
                 prime_bitset 2 initial_machine
               = Done (count,
                       <[Z.to_nat 2 := Z.of_nat (length candidates)]> primes_per_digit)
                   initial_machine).
Proof.
  assert (H1 : 1 <= 2 <= 3) by lia. assert (H2 : 3 <= 19) by lia.
  split; [exact H1|]. split; [exact H2|].
  exact (digit_window_exact 3 2 initial_machine H1 H2).
Defined.

(** The two-digit window of the primes below 1000, as both loops compute it. *)
Example two_digit_window :
  Hash.for_each_in_window record_candidate (power_of_10 1) (wrap64 (power_of_10 2 - 1))
    (primes_between 2 999) [] initial_machine
  = Done [11; 13; 17; 19; 23; 29; 31; 37; 41; 43; 47; 53; 59; 61; 67; 71; 73;
          79; 83; 89; 97] initial_machine
  /\ Bitset.for_each_in_window record_candidate (power_of_10 1)
       (wrap64 (power_of_10 2 - 1)) (primes_between 2 999) [] initial_machine
     = Done [11; 13; 17; 19; 23; 29; 31; 37; 41; 43; 47; 53; 59; 61; 67; 71; 73;
             79; 83; 89; 97] initial_machine.
Proof. vm_compute. split; reflexivity. Qed.

(** * Invalid input *)

(** What [libc_atoi] makes of some arguments: a numeral beyond the range
    of [int] is reduced to its low 32 bits, white space and a sign are read,
    and what follows the digits is ignored. *)
Example libc_atoi_samples :
  libc_atoi "0" = 0 /\ libc_atoi "20" = 20 /\ libc_atoi "-1" = -1
  /\ libc_atoi "+3" = 3 /\ libc_atoi " 7" = 7 /\ libc_atoi "3abc" = 3
  /\ libc_atoi "abc" = 0 /\ libc_atoi "" = 0
  /\ libc_atoi "2147483647" = 2147483647 /\ libc_atoi "2147483648" = -2147483648
  /\ libc_atoi "4294967299" = 3 /\ libc_atoi "99999999999999999999" = -1.
Proof. vm_compute. repeat split. Qed.





(** The rejected runs, as the programs produce them. *)
Example invalid_runs :
  run (Hash.main reference_environment ["count_primes"; "0"]%string)
  = Done 1 {| allocations := 0; output := [Stderr digits_range_error] |}
  /\ run (Bitset.main reference_environment ["count_primes"; "20"]%string)
     = Done 1 {| allocations := 0; output := [Stderr digits_range_error] |}
  /\ run (Bitset.main reference_environment ["count_primes"]%string)
     = Done 1 {| allocations := 0; output := [Stderr (usage "count_primes")] |}
  /\ run (Hash.main reference_environment ["count_primes"; "3"; "4"]%string)
     = Done 1 {| allocations := 0; output := [Stderr (usage "count_primes")] |}.
Proof. vm_compute. repeat split. Qed.

(** The counting functions guard the digit length themselves. *)
Lemma count_right_trunc_primes_guard (env : environment) (digits : Z)
    (arr ppd : list Z) (bs : list bool) (m : machine) :
  digits < 1 \/ 19 < digits ->
  Hash.count_right_trunc_primes env digits m
  = Done (-1) {| allocations := allocations m;
                 output := output m ++ [Stderr digits_range_error] |}
  /\ Bitset.count_right_trunc_primes arr ppd bs digits m
     = Done (-1, ppd) {| allocations := allocations m;
                         output := output m ++ [Stderr digits_range_error] |}.
Proof.
  intros Hrange. unfold Hash.count_right_trunc_primes, Bitset.count_right_trunc_primes.
  assert (H : (digits <? 1) || (19 <? digits) = true)
    by (apply orb_true_iff; rewrite !Z.ltb_lt; assumption).
  rewrite H. split; reflexivity.
Qed.

(** * End-to-end runs *)

Lemma rt_total_values : rt_total 1 = 4 /\ rt_total 3 = 27 /\ rt_total 8 = 83.
Proof. vm_compute. repeat split. Qed.

Lemma small_prime_counts :
  prime_count 1 1 = 4
  /\ Z.of_nat (length (primes_between 2 (10 ^ 1 - 1))) = 4
  /\ prime_count 3 1 = 4 /\ prime_count 3 2 = 21 /\ prime_count 3 3 = 143
  /\ Z.of_nat (length (primes_between 2 (10 ^ 3 - 1))) = 168.
Proof. vm_compute. repeat split. Qed.

(** C3. On valid input the C++ program exits with status 0 after printing:
    for [D = 1], the count 4 for length 1 and the total 4; for [D = 3], the
    counts 14, 9, 4 for the lengths 3, 2, 1 and the total 27; for [D = 8],
    the counts 5, 8, 12, 15, 16, 14, 9, 4 for the lengths 8 down to 1 and the
    total 83.  The C program, its allocations succeeding, prints the count of
    length [D] (4, 14, 5) and the same totals, and its counting function
    returns the same count for each length. *)
Theorem end_to_end_counts (env : environment) (argv1 argv3 argv8 : list string)
    (m : machine)
    (Hgen : generator_contract env)
    (Halloc : allocations_succeed env)
    (Hargv1 : length argv1 = 2%nat /\ atoi env (nth 1 argv1 ""%string) = 1)
    (Hargv3 : length argv3 = 2%nat /\ atoi env (nth 1 argv3 ""%string) = 3)
    (Hargv8 : length argv8 = 2%nat /\ atoi env (nth 1 argv8 ""%string) = 8) :
  Bitset.main env argv1 m
  = Done 0 {| allocations := allocations m;
              output := output m ++
                [Generate 2 (10 ^ 1 - 1);
                 Stdout (Bitset.count_line 1 4 4);
                 Stdout (Bitset.total_line 1 4 4);
                 Elapsed "milliseconds"; Elapsed "microseconds"; Elapsed "nanoseconds"] |}
  /\ Bitset.main env argv3 m
     = Done 0 {| allocations := allocations m;
                 output := output m ++
                   [Generate 2 (10 ^ 3 - 1);
                    Stdout (Bitset.count_line 3 14 143);
                    Stdout (Bitset.count_line 2 9 21);
                    Stdout (Bitset.count_line 1 4 4);
                    Stdout (Bitset.total_line 3 27 168);
                    Elapsed "milliseconds"; Elapsed "microseconds"; Elapsed "nanoseconds"] |}
  /\ Bitset.main env argv8 m
     = Done 0 {| allocations := allocations m;
                 output := output m ++
                   [Generate 2 (10 ^ 8 - 1);
                    Stdout (Bitset.count_line 8 5 (prime_count 8 8));
                    Stdout (Bitset.count_line 7 8 (prime_count 8 7));
                    Stdout (Bitset.count_line 6 12 (prime_count 8 6));
                    Stdout (Bitset.count_line 5 15 (prime_count 8 5));
                    Stdout (Bitset.count_line 4 16 (prime_count 8 4));
                    Stdout (Bitset.count_line 3 14 (prime_count 8 3));
                    Stdout (Bitset.count_line 2 9 (prime_count 8 2));
                    Stdout (Bitset.count_line 1 4 (prime_count 8 1));
                    Stdout (Bitset.total_line 8 83
                              (Z.of_nat (length (primes_between 2 (10 ^ 8 - 1)))));
                    Elapsed "milliseconds"; Elapsed "microseconds"; Elapsed "nanoseconds"] |}
  /\ (exists m', Hash.main env argv1 m = Done 0 m'
        /\ output m' = output m ++
             [Generate 2 (10 ^ 1 - 1); Stdout (Hash.count_line 1 4)]
             ++ ((fun k => Generate 2 (10 ^ k - 1)) <$> [1])
             ++ [Stdout (Hash.total_line 1 4)])
  /\ (exists m', Hash.main env argv3 m = Done 0 m'
        /\ output m' = output m ++
             [Generate 2 (10 ^ 3 - 1); Stdout (Hash.count_line 3 14)]
             ++ ((fun k => Generate 2 (10 ^ k - 1)) <$> [1; 2; 3])
             ++ [Stdout (Hash.total_line 3 27)])
  /\ (exists m', Hash.main env argv8 m = Done 0 m'
        /\ output m' = output m ++
             [Generate 2 (10 ^ 8 - 1); Stdout (Hash.count_line 8 5)]
             ++ ((fun k => Generate 2 (10 ^ k - 1)) <$> [1; 2; 3; 4; 5; 6; 7; 8])
             ++ [Stdout (Hash.total_line 8 83)])
  /\ (forall k count m0,
        (k, count) ∈ [(1, 4); (2, 9); (3, 14); (4, 16); (5, 15); (6, 12); (7, 8); (8, 5)] ->
        exists m1, Hash.count_right_trunc_primes env k m0 = Done count m1).
Proof.
  destruct Hargv1 as [Hlen1 Hatoi1], Hargv3 as [Hlen3 Hatoi3], Hargv8 as [Hlen8 Hatoi8].
  destruct rt_count_values as (R1 & R2 & R3 & R4 & R5 & R6 & R7 & R8).
  destruct rt_total_values as (T1 & T3 & T8).
  destruct small_prime_counts as (P11 & N1 & P31 & P32 & P33 & N3).
  split; [|split; [|split; [|split; [|split; [|split]]]]].
  - rewrite (bitset_main_spec env argv1 1 m) by (assumption || lia).
    unfold bitset_report, bitset_count_lines.
    change (reverse (seqZ 1 (Z.of_nat (Z.to_nat 1)))) with [1].
    cbn [fmap list_fmap app]. rewrite R1, T1, P11, N1. reflexivity.
  - rewrite (bitset_main_spec env argv3 3 m) by (assumption || lia).
    unfold bitset_report, bitset_count_lines.
    change (reverse (seqZ 1 (Z.of_nat (Z.to_nat 3)))) with [3; 2; 1].
    cbn [fmap list_fmap app]. rewrite R1, R2, R3, T3, P31, P32, P33, N3. reflexivity.
  - rewrite (bitset_main_spec env argv8 8 m) by (assumption || lia).
    unfold bitset_report, bitset_count_lines.
    change (reverse (seqZ 1 (Z.of_nat (Z.to_nat 8)))) with [8; 7; 6; 5; 4; 3; 2; 1].
    cbn [fmap list_fmap app]. rewrite R1, R2, R3, R4, R5, R6, R7, R8, T8. reflexivity.
  - destruct (hash_main_spec env argv1 1 m) as (m' & Hrun & Hout); try assumption; [lia|].
    exists m'. split; [assumption|]. rewrite Hout. unfold hash_report.
    change (seqZ 1 1) with [1]. rewrite R1, T1. reflexivity.
  - destruct (hash_main_spec env argv3 3 m) as (m' & Hrun & Hout); try assumption; [lia|].
    exists m'. split; [assumption|]. rewrite Hout. unfold hash_report.
    change (seqZ 1 3) with [1; 2; 3]. rewrite R3, T3. reflexivity.
  - destruct (hash_main_spec env argv8 8 m) as (m' & Hrun & Hout); try assumption; [lia|].
    exists m'. split; [assumption|]. rewrite Hout. unfold hash_report.
    change (seqZ 1 8) with [1; 2; 3; 4; 5; 6; 7; 8]. rewrite R8, T8. reflexivity.
  - intros k count m0 Hin.
    assert (Hk : 1 <= k <= 8 /\ rt_count k = count).
    { repeat (apply elem_of_cons in Hin as [Hin|Hin];
              [injection Hin as -> ->; split; [lia|assumption]|]).
      inversion Hin. }
    destruct Hk as [Hk <-].
    destruct (hash_count_right_trunc_primes_spec env k m0 Hgen Halloc ltac:(lia))
      as (m1 & Hrun & _). eauto.
Qed.

Lemma reference_generator_contract : generator_contract reference_environment.
Proof. intros start stop. reflexivity. Qed.

Lemma reference_allocations_succeed : allocations_succeed reference_environment.
Proof. intros n. reflexivity. Qed.

Lemma end_to_end_counts_witness :
  generator_contract reference_environment
  /\ allocations_succeed reference_environment
  /\ (length ["count_primes"; "1"]%string = 2%nat
      /\ atoi reference_environment (nth 1 ["count_primes"; "1"]%string ""%string) = 1)
  /\ (length ["count_primes"; "3"]%string = 2%nat
      /\ atoi reference_environment (nth 1 ["count_primes"; "3"]%string ""%string) = 3)
  /\ (length ["count_primes"; "8"]%string = 2%nat
      /\ atoi reference_environment (nth 1 ["count_primes"; "8"]%string ""%string) = 8)
  /\ exists m',
       Hash.main reference_environment ["count_primes"; "8"]%string initial_machine
       = Done 0 m'
       /\ output m' = output initial_machine ++
            [Generate 2 (10 ^ 8 - 1); Stdout (Hash.count_line 8 5)]
            ++ ((fun k => Generate 2 (10 ^ k - 1)) <$> [1; 2; 3; 4; 5; 6; 7; 8])
            ++ [Stdout (Hash.total_line 8 83)].
Proof.
  assert (Hgen : generator_contract reference_environment)
    by (intros start stop; reflexivity).
  assert (Halloc : allocations_succeed reference_environment)
    by (intros n; reflexivity).
  assert (H1 : length ["count_primes"; "1"]%string = 2%nat
               /\ atoi reference_environment (nth 1 ["count_primes"; "1"]%string ""%string) = 1)
    by (split; reflexivity).
  assert (H3 : length ["count_primes"; "3"]%string = 2%nat
               /\ atoi reference_environment (nth 1 ["count_primes"; "3"]%string ""%string) = 3)
    by (split; reflexivity).
  assert (H8 : length ["count_primes"; "8"]%string = 2%nat
               /\ atoi reference_environment (nth 1 ["count_primes"; "8"]%string ""%string) = 8)
    by (split; reflexivity).
  split; [exact Hgen|]. split; [exact Halloc|].
  split; [exact H1|]. split; [exact H3|]. split; [exact H8|].
  exact (proj1 (proj2 (proj2 (proj2 (proj2 (proj2
           (end_to_end_counts reference_environment
              ["count_primes"; "1"]%string ["count_primes"; "3"]%string
              ["count_primes"; "8"]%string initial_machine Hgen Halloc H1 H3 H8))))))).
Defined.

(** The runs for [D = 1] and [D = 3], executed. *)
Example run_bitset_1 :
  run (Bitset.main reference_environment ["count_primes"; "1"]%string)
  = Done 0 {| allocations := 0;
              output := [Generate 2 9;
                         Stdout (Bitset.count_line 1 4 4);
                         Stdout (Bitset.total_line 1 4 4);
                         Elapsed "milliseconds"; Elapsed "microseconds";
                         Elapsed "nanoseconds"] |}.
Proof. vm_compute. reflexivity. Qed.

Example run_bitset_3 :
  run (Bitset.main reference_environment ["count_primes"; "3"]%string)
  = Done 0 {| allocations := 0;
              output := [Generate 2 999;
                         Stdout (Bitset.count_line 3 14 143);
                         Stdout (Bitset.count_line 2 9 21);
                         Stdout (Bitset.count_line 1 4 4);
                         Stdout (Bitset.total_line 3 27 168);
                         Elapsed "milliseconds"; Elapsed "microseconds";
                         Elapsed "nanoseconds"] |}.
Proof. vm_compute. reflexivity. Qed.

Example run_hash_3 :
  run (Hash.main reference_environment ["count_primes"; "3"]%string)
  = Done 0 {| allocations := 373;
              output := [Generate 2 999; Stdout (Hash.count_line 3 14);
                         Generate 2 9; Generate 2 99; Generate 2 999;
                         Stdout (Hash.total_line 3 27)] |}.
Proof. vm_compute. reflexivity. Qed.

Example count_line_text :
  Bitset.count_line 3 14 143
  = ("Number of 3-digit right-truncatable primes: 14 (n = 143)" ++ nl)%string
  /\ Bitset.total_line 8 83 5761455
     = (nl ++ "Total number of right-truncatable primes up to 8 digits: 83 (n = 5761455)"
           ++ nl ++ nl)%string
  /\ Hash.count_line 8 5
     = ("Number of 8-digit right-truncatable primes: 5" ++ nl)%string
  /\ Hash.total_line 8 83
     = ("Total number of right-truncatable primes up to 8 digits: 83" ++ nl)%string.
Proof. vm_compute. repeat split. Qed.

(** * The two programs agree *)

(** C4. For every digit bound [D] in [[1, 19]] (the prime source keeping its
    contract, the C program's allocations succeeding), the two programs
    compute the same count for every digit length [k] in [[1, D]] — the C
    function over its hash set, the C++ function over the bit table that
    [main] builds — and print the same total, the sum of those counts. *)
Theorem index_variants_agree (env : environment) (D : Z) (argv : list string)
    (m : machine)
    (Hgen : generator_contract env)
    (Halloc : allocations_succeed env)
    (Hargv : length argv = 2%nat /\ atoi env (nth 1 argv ""%string) = D)
    (HD : 1 <= D <= 19) :
  exists (count_of : Z -> Z) (total : Z) (prime_bitset : list bool),
    Bitset.mark_primes (replicate (Z.to_nat (10 ^ D)) false)
      (primes_between 2 (10 ^ D - 1)) = Some prime_bitset
    /\ (forall k m0 primes_per_digit,
          1 <= k <= D -> k < Z.of_nat (length primes_per_digit) ->
          (exists m1, Hash.count_right_trunc_primes env k m0 = Done (count_of k) m1)
          /\ (exists primes_per_digit',
                Bitset.count_right_trunc_primes (primes_between 2 (10 ^ D - 1))
                  primes_per_digit prime_bitset k m0
                = Done (count_of k, primes_per_digit') m0))
    /\ total = foldr Z.add 0 (count_of <$> seqZ 1 D)
    /\ (exists mh, Hash.main env argv m = Done 0 mh
          /\ last (output mh) = Some (Stdout (Hash.total_line D total)))
    /\ (exists mb n, Bitset.main env argv m = Done 0 mb
          /\ Stdout (Bitset.total_line D total n) ∈ output mb).
Proof.
  destruct Hargv as [Hlen Hatoi].
  pose proof (pow10_pos D ltac:(lia)) as Hpos.
  destruct (bitset_index_spec (primes_between 2 (10 ^ D - 1)) (Z.to_nat (10 ^ D)))
    as (bs & Hmark & _ & Hidx).
  { intros p Hp. apply elem_of_primes_between in Hp. lia. }
  exists rt_count, (rt_total D), bs.
  split; [exact Hmark|]. split; [|split; [reflexivity|split]].
  - intros k m0 ppd Hk Hcell. split.
    + destruct (hash_count_right_trunc_primes_spec env k m0 Hgen Halloc ltac:(lia))
        as (m1 & Hrun & _). eauto.
    + rewrite (bitset_count_right_trunc_primes_spec D) by (assumption || lia). eauto.
  - destruct (hash_main_spec env argv D m Hgen Halloc Hlen Hatoi HD) as (mh & Hrun & Hout).
    exists mh. split; [assumption|]. rewrite Hout. unfold hash_report.
    rewrite !app_assoc. apply last_snoc.
  - rewrite (bitset_main_spec env argv D m) by assumption.
    eexists _, _. split; [reflexivity|]. cbn [output]. unfold bitset_report.
    rewrite !elem_of_app. right. right. right. left.
Qed.

Lemma index_variants_agree_witness :
  generator_contract reference_environment
  /\ allocations_succeed reference_environment
  /\ (length ["count_primes"; "19"]%string = 2%nat
      /\ atoi reference_environment (nth 1 ["count_primes"; "19"]%string ""%string) = 19)
  /\ 1 <= 19 <= 19
  /\ exists (count_of : Z -> Z) (total : Z) (prime_bitset : list bool),
       Bitset.mark_primes (replicate (Z.to_nat (10 ^ 19)) false)
         (primes_between 2 (10 ^ 19 - 1)) = Some prime_bitset
       /\ (forall k m0 primes_per_digit,
             1 <= k <= 19 -> k < Z.of_nat (length primes_per_digit) ->
             (exists m1, Hash.count_right_trunc_primes reference_environment k m0
                         = Done (count_of k) m1)
             /\ (exists primes_per_digit',
                   Bitset.count_right_trunc_primes (primes_between 2 (10 ^ 19 - 1))
                     primes_per_digit prime_bitset k m0
                   = Done (count_of k, primes_per_digit') m0))
       /\ total = foldr Z.add 0 (count_of <$> seqZ 1 19)
       /\ (exists mh, Hash.main reference_environment ["count_primes"; "19"]%string
                        initial_machine = Done 0 mh
             /\ last (output mh) = Some (Stdout (Hash.total_line 19 total)))
       /\ (exists mb n, Bitset.main reference_environment ["count_primes"; "19"]%string
                          initial_machine = Done 0 mb
             /\ Stdout (Bitset.total_line 19 total n) ∈ output mb).
Proof.
  assert (Hgen : generator_contract reference_environment)
    by (intros start stop; reflexivity).
  assert (Halloc : allocations_succeed reference_environment)
    by (intros n; reflexivity).
  assert (Hargv : length ["count_primes"; "19"]%string = 2%nat
                  /\ atoi reference_environment (nth 1 ["count_primes"; "19"]%string ""%string) = 19)
    by (split; reflexivity).
  assert (HD : 1 <= 19 <= 19) by lia.
  split; [exact Hgen|]. split; [exact Halloc|]. split; [exact Hargv|]. split; [exact HD|].
  exact (index_variants_agree reference_environment 19
           ["count_primes"; "19"]%string initial_machine Hgen Halloc Hargv HD).
Defined.

(** * The report *)

Lemma string_app_assoc (a b c : string) : ((a ++ b) ++ c = a ++ (b ++ c))%string.
Proof. induction a as [|x a IH]; cbn; [reflexivity|]. rewrite IH. reflexivity. Qed.

Lemma bitset_count_line_format (k count n : Z) :
  Bitset.count_line k count n = (report_format k count n ++ nl)%string.
Proof.
  unfold Bitset.count_line, report_format. rewrite !string_app_assoc. reflexivity.
Qed.

Lemma run_hash_2 :
  run (Hash.main reference_environment ["count_primes"; "2"]%string)
  = Done 0 {| allocations := 60;
              output := [Generate 2 99; Stdout (Hash.count_line 2 9);
                         Generate 2 9; Generate 2 99;
                         Stdout (Hash.total_line 2 13)] |}.
Proof. vm_compute. reflexivity. Qed.

(** C9, as stated, fails on the C program: run with the digit bound 2 it
    prints no count line for length 1 (its only count line is the one for
    length 2, and that line has no [(n = ...)] part). *)
Lemma hash_main_omits_count_lines :
  ~ (forall k, 1 <= k <= 2 ->
       prints_count_line
         (output_of (run (Hash.main reference_environment ["count_primes"; "2"]%string)))
         k).
Proof.
  intros Hall. destruct (Hall 1 ltac:(lia)) as (count & n & Hin).
  rewrite run_hash_2 in Hin. cbn [output_of output] in Hin.
  unfold report_format, Hash.count_line, Hash.total_line in Hin.
  change (dec 1) with "1"%string in Hin. change (dec 2) with "2"%string in Hin.
  repeat (apply elem_of_cons in Hin as [Hin|Hin]; [cbn in Hin; discriminate Hin|]).
  inversion Hin.
Qed.

(** C9, amended.  Given a digit bound [N] in [[1, 19]] (the prime source
    keeping its contract, allocations succeeding): the C++ program prints one
    line for every length from [N] down to 1 in the format
    [Number of <k>-digit right-truncatable primes: <count> (n = <primes of that length>)],
    then the total line, then three elapsed-time lines; the C program prints
    one count line only, for the length [N], in the format
    [Number of <N>-digit right-truncatable primes: <count>], then its total
    line. *)
Theorem report_lines (env : environment) (argv : list string) (N : Z) (m : machine)
    (Hgen : generator_contract env)
    (Halloc : allocations_succeed env)
    (Hargv : length argv = 2%nat /\ atoi env (nth 1 argv ""%string) = N)
    (HN : 1 <= N <= 19) :
  Bitset.main env argv m
  = Done 0 {| allocations := allocations m;
              output := output m
                ++ [Generate 2 (10 ^ N - 1)]
                ++ ((fun k => Stdout (report_format k (rt_count k) (prime_count N k) ++ nl)%string)
                      <$> reverse (seqZ 1 N))
                ++ [Stdout (Bitset.total_line N (rt_total N)
                              (Z.of_nat (length (primes_between 2 (10 ^ N - 1)))));
                    Elapsed "milliseconds"; Elapsed "microseconds";
                    Elapsed "nanoseconds"] |}
  /\ (forall k, 1 <= k <= N ->
        prints_count_line (output_of (Bitset.main env argv m)) k)
  /\ (exists mh,
        Hash.main env argv m = Done 0 mh
        /\ output mh = output m
             ++ [Generate 2 (10 ^ N - 1);
                 Stdout ("Number of " ++ dec N ++ "-digit right-truncatable primes: "
                           ++ dec (rt_count N) ++ nl)%string]
             ++ ((fun k => Generate 2 (10 ^ k - 1)) <$> seqZ 1 N)
             ++ [Stdout (Hash.total_line N (rt_total N))]).
Proof.
  destruct Hargv as [Hlen Hatoi].
  assert (Hrun : Bitset.main env argv m
    = Done 0 {| allocations := allocations m;
                output := output m
                  ++ [Generate 2 (10 ^ N - 1)]
                  ++ ((fun k => Stdout (report_format k (rt_count k) (prime_count N k) ++ nl)%string)
                        <$> reverse (seqZ 1 N))
                  ++ [Stdout (Bitset.total_line N (rt_total N)
                                (Z.of_nat (length (primes_between 2 (10 ^ N - 1)))));
                      Elapsed "milliseconds"; Elapsed "microseconds";
                      Elapsed "nanoseconds"] |}).
  { rewrite (bitset_main_spec env argv N m) by assumption.
    unfold bitset_report, bitset_count_lines. rewrite Z2Nat.id by lia.
    do 5 f_equal. apply list_fmap_ext. intros i k _.
    rewrite bitset_count_line_format. reflexivity. }
  split; [exact Hrun|]. split.
  - intros k Hk. rewrite Hrun. cbn [output_of output].
    exists (rt_count k), (prime_count N k).
    rewrite !elem_of_app. right. right. left.
    apply (list_elem_of_fmap_2
             (fun k => Stdout (report_format k (rt_count k) (prime_count N k) ++ nl)%string)).
    rewrite elem_of_reverse, elem_of_seqZ. lia.
  - destruct (hash_main_spec env argv N m Hgen Halloc Hlen Hatoi HN) as (mh & Hh & Hout).
    exists mh. split; [assumption|]. rewrite Hout. reflexivity.
Qed.

Lemma report_lines_witness :
  generator_contract reference_environment
  /\ allocations_succeed reference_environment
  /\ (length ["count_primes"; "8"]%string = 2%nat
      /\ atoi reference_environment (nth 1 ["count_primes"; "8"]%string ""%string) = 8)
  /\ 1 <= 8 <= 19
  /\ forall k, 1 <= k <= 8 ->
       prints_count_line
         (output_of (Bitset.main reference_environment ["count_primes"; "8"]%string
                       initial_machine)) k.
Proof.
  assert (Hgen : generator_contract reference_environment)
    by (intros start stop; reflexivity).
  assert (Halloc : allocations_succeed reference_environment)
    by (intros n; reflexivity).
  assert (Hargv : length ["count_primes"; "8"]%string = 2%nat
                  /\ atoi reference_environment (nth 1 ["count_primes"; "8"]%string ""%string) = 8)
    by (split; reflexivity).
  assert (HN : 1 <= 8 <= 19) by lia.
  split; [exact Hgen|]. split; [exact Halloc|]. split; [exact Hargv|]. split; [exact HN|].
  exact (proj1 (proj2 (report_lines reference_environment ["count_primes"; "8"]%string
                         8 initial_machine Hgen Halloc Hargv HN))).
Defined.

(** * Further properties: the utilities *)

Lemma power_of_10_iter_wrap (n : nat) :
  Nat.iter n (fun res => wrap64 (res * 10)) 1 = wrap64 (10 ^ Z.of_nat n).
Proof.
  induction n as [|n IH]; [reflexivity|].
  rewrite Nat.iter_succ, IH.
  replace (Z.of_nat (S n)) with (Z.of_nat n + 1) by lia.
  rewrite pow10_succ by lia. unfold wrap64.
  rewrite Zmult_mod_idemp_l. f_equal. lia.
Qed.

(** X1. [power_of_10] computes [10^exp] modulo [2^64]: it is exact up to the
    exponent 19 and wraps around from 20 on; a negative exponent gives 1. *)
Theorem power_of_10_wraps (exp : Z) (Hexp : 0 <= exp) :
  power_of_10 exp = 10 ^ exp mod 2 ^ 64
  /\ (power_of_10 exp = 10 ^ exp <-> exp <= 19)
  /\ power_of_10 (- exp) = 1.
Proof.
  assert (Hwrap : power_of_10 exp = 10 ^ exp mod 2 ^ 64).
  { unfold power_of_10. rewrite power_of_10_iter_wrap, Z2Nat.id by lia. reflexivity. }
  split; [exact Hwrap|]. split.
  - split.
    + intros Heq. destruct (Z_le_dec exp 19) as [|Hbig]; [assumption|exfalso].
      assert (Hpow : 10 ^ 20 <= 10 ^ exp) by (apply Z.pow_le_mono_r; lia).
      pose proof (Z.mod_pos_bound (10 ^ exp) (2 ^ 64) ltac:(lia)) as Hb.
      rewrite <- Hwrap, Heq in Hb.
      change (10 ^ 20) with 100000000000000000000 in Hpow.
      change (2 ^ 64) with 18446744073709551616 in Hb. lia.
    + intros Hsmall. apply power_of_10_spec. lia.
  - unfold power_of_10. replace (Z.to_nat (- exp)) with 0%nat by lia. reflexivity.
Qed.

Lemma power_of_10_wraps_witness :
  0 <= 20
  /\ power_of_10 20 = 10 ^ 20 mod 2 ^ 64
  /\ (power_of_10 20 = 10 ^ 20 <-> 20 <= 19)
  /\ power_of_10 (- 20) = 1.
Proof. split; [lia|]. apply (power_of_10_wraps 20). lia. Defined.

Lemma count_digits_loop_zero (temp count : Z) :
  temp <= 0 -> Hash.count_digits_loop temp count = count.
Proof.
  intros H. rewrite Hash.count_digits_loop_equation_1.
  destruct (Z_lt_dec 0 temp); [lia|reflexivity].
Qed.

Lemma count_digits_loop_step (temp count : Z) :
  0 < temp ->
  Hash.count_digits_loop temp count = Hash.count_digits_loop (temp / 10) (count + 1).
Proof.
  intros H. rewrite Hash.count_digits_loop_equation_1.
  destruct (Z_lt_dec 0 temp); [reflexivity|lia].
Qed.

Lemma count_digits_loop_spec (temp : Z) :
  forall count, 0 < temp ->
  exists d, Hash.count_digits_loop temp count = count + d
            /\ 1 <= d /\ 10 ^ (d - 1) <= temp < 10 ^ d.
Proof.
  revert temp. apply (truncation_ind (fun temp => forall count, 0 < temp -> _)).
  - intros temp Hle count Hpos. lia.
  - intros temp Hpos IH count _. rewrite count_digits_loop_step by assumption.
    pose proof (Z.div_mod temp 10 ltac:(lia)) as Hdm.
    pose proof (Z.mod_pos_bound temp 10 ltac:(lia)) as Hmod.
    destruct (Z_le_dec (temp / 10) 0) as [Hzero|Hmore].
    + exists 1. rewrite count_digits_loop_zero by assumption.
      split; [reflexivity|]. split; [lia|].
      change (10 ^ (1 - 1)) with 1. change (10 ^ 1) with 10. lia.
    + destruct (IH (count + 1) ltac:(lia)) as (d & -> & Hd & Hlo & Hhi).
      exists (d + 1). split; [lia|]. split; [lia|].
      assert (E1 : 10 ^ d = 10 * 10 ^ (d - 1))
        by (rewrite <- pow10_succ by lia; f_equal; lia).
      assert (E2 : 10 ^ (d + 1) = 10 * 10 ^ d) by (apply pow10_succ; lia).
      replace (d + 1 - 1) with d by lia.
      pose proof (pow10_pos (d - 1) ltac:(lia)). lia.
Qed.

(** X2. [count_digits] returns the number of decimal digits: 1 for 0, and
    for a positive [num] the [c] with [10^(c-1) <= num < 10^c], which is at
    most 20 for a 64-bit value. *)
Theorem count_digits_spec (num : Z) (Hnum : 0 <= num < 2 ^ 64) :
  (num = 0 -> Hash.count_digits num = 1)
  /\ (0 < num ->
      10 ^ (Hash.count_digits num - 1) <= num < 10 ^ Hash.count_digits num)
  /\ 1 <= Hash.count_digits num <= 20.
Proof.
  unfold Hash.count_digits. destruct (Z.eqb_spec num 0) as [->|Hne].
  - split; [reflexivity|]. split; [lia|lia].
  - destruct (count_digits_loop_spec num 0 ltac:(lia)) as (d & -> & Hd & Hlo & Hhi).
    rewrite Z.add_0_l. split; [lia|]. split; [intros _; lia|].
    split; [assumption|].
    destruct (Z_le_dec d 20) as [|Hbig]; [assumption|exfalso].
    assert (10 ^ 20 <= 10 ^ (d - 1)) by (apply Z.pow_le_mono_r; lia).
    change (10 ^ 20) with 100000000000000000000 in *.
    change (2 ^ 64) with 18446744073709551616 in *. lia.
Qed.

Lemma count_digits_spec_witness :
  0 <= 18446744073709551615 < 2 ^ 64
  /\ (18446744073709551615 = 0 -> Hash.count_digits 18446744073709551615 = 1)
  /\ (0 < 18446744073709551615 ->
      10 ^ (Hash.count_digits 18446744073709551615 - 1) <= 18446744073709551615
      < 10 ^ Hash.count_digits 18446744073709551615)
  /\ 1 <= Hash.count_digits 18446744073709551615 <= 20.
Proof.
  assert (H : 0 <= 18446744073709551615 < 2 ^ 64) by (split; [lia|reflexivity]).
  split; [exact H|]. exact (count_digits_spec 18446744073709551615 H).
Defined.

Example count_digits_samples :
  Hash.count_digits <$> [0; 7; 10; 99; 100; 73939133; 18446744073709551615]
  = [1; 1; 2; 2; 3; 8; 20].
Proof. vm_compute. reflexivity. Qed.

Lemma pow10_lt_mono (a b : Z) : 0 <= a < b -> 10 ^ a < 10 ^ b.
Proof. intros H. apply Z.pow_lt_mono_r; lia. Qed.

Lemma digit_count_unique (p c k : Z) :
  1 <= c -> 1 <= k ->
  10 ^ (c - 1) <= p < 10 ^ c -> 10 ^ (k - 1) <= p < 10 ^ k -> c = k.
Proof.
  intros Hc Hk Hpc Hpk.
  destruct (Z_lt_dec c k) as [Hlt|Hge].
  - assert (10 ^ c <= 10 ^ (k - 1)) by (apply Z.pow_le_mono_r; lia). lia.
  - destruct (Z_lt_dec k c) as [Hlt|]; [|lia].
    assert (10 ^ k <= 10 ^ (c - 1)) by (apply Z.pow_le_mono_r; lia). lia.
Qed.

Lemma count_digits_window (p k : Z) :
  0 < p -> 1 <= k ->
  Hash.count_digits p = k <-> 10 ^ (k - 1) <= p <= 10 ^ k - 1.
Proof.
  intros Hp Hk. unfold Hash.count_digits.
  destruct (Z.eqb_spec p 0); [lia|].
  destruct (count_digits_loop_spec p 0 Hp) as (d & -> & Hd & Hr).
  rewrite Z.add_0_l. split.
  - intros <-. lia.
  - intros Hw. apply (digit_count_unique p); (assumption || lia).
Qed.

(** X3. The bounds of the digit window agree with [count_digits]: for a
    digit length [k] in [[1, 19]], the window loop of the C program hands to
    its body exactly the elements of the array that [count_digits] gives [k]
    digits, in array order. *)
Theorem window_is_count_digits (k : Z) (all_primes_array : list Z) (m : machine)
    (Hk : 1 <= k <= 19)
    (Hpos : Forall (fun p => 0 < p) all_primes_array) :
  Hash.for_each_in_window record_candidate
    (power_of_10 (k - 1)) (wrap64 (power_of_10 k - 1)) all_primes_array [] m
  = Done (filter (fun p => Hash.count_digits p = k) all_primes_array) m.
Proof.
  rewrite hash_for_each_in_window, for_each_record, app_nil_l.
  rewrite digits_end_spec, power_of_10_spec by lia.
  f_equal. unfold window.
  induction Hpos as [|p rest Hp _ IH]; [reflexivity|].
  rewrite !filter_cons, IH.
  pose proof (count_digits_window p k Hp ltac:(lia)) as Hiff.
  destruct (decide (10 ^ (k - 1) <= p <= 10 ^ k - 1)) as [Hin|Hout].
  - rewrite decide_True by (apply Hiff; assumption). reflexivity.
  - rewrite decide_False by (rewrite Hiff; assumption). reflexivity.
Qed.

Lemma window_is_count_digits_witness :
  1 <= 2 <= 19 /\ Forall (fun p => 0 < p) [2; 3; 11; 97; 101; 13]
  /\ Hash.for_each_in_window record_candidate
       (power_of_10 (2 - 1)) (wrap64 (power_of_10 2 - 1)) [2; 3; 11; 97; 101; 13] []
       initial_machine
     = Done (filter (fun p => Hash.count_digits p = 2) [2; 3; 11; 97; 101; 13])
         initial_machine.
Proof.
  assert (H1 : 1 <= 2 <= 19) by lia.
  assert (H2 : Forall (fun p => 0 < p) [2; 3; 11; 97; 101; 13])
    by (repeat constructor).
  split; [exact H1|]. split; [exact H2|].
  exact (window_is_count_digits 2 [2; 3; 11; 97; 101; 13] initial_machine H1 H2).
Defined.

(** * Further properties: the hash set *)

(** X4. In a table with a positive [size] whose bucket array has [size]
    entries, the index computed by [hash_ull] lies in [[0, size)], so the
    bucket read of [hash_table_add] and [hash_table_contains] is inside the
    array. *)
Theorem hash_bucket_in_bounds (t : Hash.hash_table_t) (value : Z)
    (Hsize : 0 < Hash.size t)
    (Hlen : length (Hash.buckets t) = Z.to_nat (Hash.size t)) :
  0 <= Hash.hash_ull value (Hash.size t) < Hash.size t
  /\ is_Some (Hash.buckets t !! Z.to_nat (Hash.hash_ull value (Hash.size t))).
Proof.
  pose proof (hash_ull_range value (Hash.size t) Hsize) as Hr.
  split; [exact Hr|]. apply lookup_lt_is_Some. lia.
Qed.

Lemma hash_bucket_in_bounds_witness :
  0 < 50 /\ length (replicate 50 ([] : list Z)) = Z.to_nat 50
  /\ 0 <= Hash.hash_ull 18446744073709551557 50 < 50
  /\ is_Some (replicate 50 ([] : list Z) !! Z.to_nat (Hash.hash_ull 18446744073709551557 50)).
Proof.
  assert (H1 : 0 < 50) by lia.
  assert (H2 : length (replicate 50 ([] : list Z)) = Z.to_nat 50) by reflexivity.
  split; [exact H1|]. split; [exact H2|].
  exact (hash_bucket_in_bounds
           {| Hash.size := 50; Hash.count := 0; Hash.buckets := replicate 50 [] |}
           18446744073709551557 H1 H2).
Defined.

(** X5. [hash_table_create] with a positive size makes two allocation
    requests at most; it returns NULL exactly when one of them fails, after
    one [perror] message; otherwise it returns an empty table of that size:
    [count] is 0 and [hash_table_contains] is false for every value. *)
Theorem hash_table_create_outcomes (env : environment) (table_size : Z) (m : machine)
    (Hsize : 0 < table_size) :
  exists ht m',
    Hash.hash_table_create env table_size m = Done ht m'
    /\ (ht = None <-> malloc_ok env (allocations m) = false
                      \/ malloc_ok env (S (allocations m)) = false)
    /\ (ht = None ->
        exists message, output m' = output m ++ [Perror message]
                        /\ (allocations m < allocations m' <= allocations m + 2)%nat)
    /\ (forall t, ht = Some t ->
        hash_table_inv t
        /\ Hash.size t = table_size /\ Hash.count t = 0
        /\ (forall v, Hash.hash_table_contains (Some t) v = false)
        /\ output m' = output m
        /\ allocations m' = (allocations m + 2)%nat).
Proof.
  unfold Hash.hash_table_create, bind, allocate, emit, ret.
  destruct (malloc_ok env (allocations m)) eqn:H1; cbn [negb allocations output].
  - destruct (malloc_ok env (S (allocations m))) eqn:H2; cbn [negb allocations output].
    + eexists _, _. split; [reflexivity|]. split; [|split].
      * split; [discriminate|]. intros [?|?]; discriminate.
      * discriminate.
      * intros t Ht. injection Ht as <-.
        assert (Hnil : entries {| Hash.size := table_size; Hash.count := 0;
                                  Hash.buckets := replicate (Z.to_nat table_size) [] |} = [])
          by apply join_replicate_nil.
        assert (Hinv : hash_table_inv {| Hash.size := table_size; Hash.count := 0;
                          Hash.buckets := replicate (Z.to_nat table_size) [] |}).
        { constructor; rewrite ?Hnil; cbn [Hash.size Hash.count Hash.buckets].
          - assumption.
          - apply length_replicate.
          - intros i chain v Hi Hv. apply lookup_replicate in Hi as [-> _]. inversion Hv.
          - constructor.
          - reflexivity. }
        split; [exact Hinv|]. split; [reflexivity|]. split; [reflexivity|].
        split; [|split; [reflexivity|cbn [allocations]; lia]].
        intros v. apply not_true_is_false.
        rewrite hash_table_contains_spec, Hnil by assumption. apply not_elem_of_nil.
    + eexists _, _. split; [reflexivity|]. split; [|split].
      * split; [intros _; right; reflexivity|reflexivity].
      * intros _. eexists. split; [reflexivity|]. cbn [allocations]. lia.
      * discriminate.
  - eexists _, _. split; [reflexivity|]. split; [|split].
    + split; [intros _; left; reflexivity|reflexivity].
    + intros _. eexists. split; [reflexivity|]. cbn [allocations]. lia.
    + discriminate.
Qed.

Lemma hash_table_create_outcomes_witness :
  0 < 17
  /\ exists ht m',
       Hash.hash_table_create (short_of_memory 1) 17 initial_machine = Done ht m'
       /\ (ht = None <-> malloc_ok (short_of_memory 1) (allocations initial_machine) = false
                         \/ malloc_ok (short_of_memory 1) (S (allocations initial_machine)) = false)
       /\ (ht = None ->
           exists message, output m' = output initial_machine ++ [Perror message]
                           /\ (allocations initial_machine < allocations m'
                               <= allocations initial_machine + 2)%nat)
       /\ (forall t, ht = Some t ->
           hash_table_inv t
           /\ Hash.size t = 17 /\ Hash.count t = 0
           /\ (forall v, Hash.hash_table_contains (Some t) v = false)
           /\ output m' = output initial_machine
           /\ allocations m' = (allocations initial_machine + 2)%nat).
Proof.
  assert (H : 0 < 17) by lia.
  split; [exact H|].
  exact (hash_table_create_outcomes (short_of_memory 1) 17 initial_machine H).
Defined.

(** X6. [hash_table_add] on a well-formed table keeps it well-formed and of
    the same size.  It reports success exactly when the value was present or
    its node could be allocated; afterwards the value is a member exactly
    when success was reported, the membership of every other value is
    unchanged, and [count] has grown by one exactly for a new value. *)
Theorem hash_table_add_spec (env : environment) (t : Hash.hash_table_t) (v : Z)
    (m : machine) (Hinv : hash_table_inv t) :
  exists added t' m',
    Hash.hash_table_add env (Some t) v m = Done (added, Some t') m'
    /\ hash_table_inv t'
    /\ Hash.size t' = Hash.size t
    /\ (added = true <-> Hash.hash_table_contains (Some t) v = true
                         \/ malloc_ok env (allocations m) = true)
    /\ Hash.hash_table_contains (Some t') v = added
    /\ (forall w, w <> v ->
          Hash.hash_table_contains (Some t') w = Hash.hash_table_contains (Some t) w)
    /\ Hash.count t'
       = (if Hash.hash_table_contains (Some t) v then Hash.count t
          else if added then wrap64 (Hash.count t + 1) else Hash.count t).
Proof.
  destruct (Hash.hash_table_contains (Some t) v) eqn:Hc.
  - exists true, t, m. rewrite hash_table_add_present by assumption.
    split; [reflexivity|]. split; [assumption|]. split; [reflexivity|].
    split; [tauto|]. split; [assumption|]. split; reflexivity.
  - destruct (malloc_ok env (allocations m)) eqn:Hok.
    + destruct (hash_table_add_fresh env t v m Hinv Hc Hok)
        as (t' & Hadd & Hinv' & Hsize & Hperm).
      eexists true, t', _. split; [exact Hadd|]. split; [assumption|].
      split; [assumption|]. split; [tauto|]. split; [|split].
      * apply hash_table_contains_spec; [assumption|]. rewrite Hperm. left.
      * intros w Hne. apply eq_true_iff_eq.
        rewrite !hash_table_contains_spec, Hperm, elem_of_cons by assumption.
        tauto.
      * rewrite (inv_count t' Hinv'), (inv_count t Hinv), Hperm. cbn [length].
        unfold wrap64. rewrite Zplus_mod_idemp_l. f_equal. lia.
    + eexists false, t, _. rewrite hash_table_add_failed by assumption.
      split; [reflexivity|]. split; [assumption|]. split; [reflexivity|].
      split; [|split; [assumption|split; reflexivity]].
      split; [discriminate|]. intros [?|?]; discriminate.
Qed.

Lemma empty_table_inv : hash_table_inv empty_table.
Proof.
  constructor; cbn [empty_table Hash.size Hash.count Hash.buckets].
  - lia.
  - reflexivity.
  - intros i chain v Hi Hv. apply lookup_replicate in Hi as [-> _]. inversion Hv.
  - unfold entries. cbn [empty_table Hash.buckets]. rewrite join_replicate_nil. constructor.
  - unfold entries. cbn [empty_table Hash.buckets]. rewrite join_replicate_nil. reflexivity.
Qed.

Lemma hash_table_add_spec_witness :
  hash_table_inv empty_table
  /\ exists added t' m',
       Hash.hash_table_add reference_environment (Some empty_table) 7 initial_machine
       = Done (added, Some t') m'
       /\ hash_table_inv t'
       /\ Hash.size t' = Hash.size empty_table
       /\ (added = true <-> Hash.hash_table_contains (Some empty_table) 7 = true
                            \/ malloc_ok reference_environment (allocations initial_machine) = true)
       /\ Hash.hash_table_contains (Some t') 7 = added
       /\ (forall w, w <> 7 ->
             Hash.hash_table_contains (Some t') w
             = Hash.hash_table_contains (Some empty_table) w)
       /\ Hash.count t'
          = (if Hash.hash_table_contains (Some empty_table) 7 then Hash.count empty_table
             else if added then wrap64 (Hash.count empty_table + 1)
                  else Hash.count empty_table).
Proof.
  split; [exact empty_table_inv|].
  exact (hash_table_add_spec reference_environment empty_table 7 initial_machine
           empty_table_inv).
Defined.

(** Adding the values of [l1 ++ l2] is adding those of [l1] and then,
    unless an insertion failed, those of [l2] to the resulting table; a
    failure in [l1] ends the loop with the value that could not be stored. *)
Lemma populate_app (env : environment) (l1 l2 : list Z)
    (ht : option Hash.hash_table_t) (m : machine) :
  Hash.populate env ht (l1 ++ l2) m
  = match Hash.populate env ht l1 m with
    | Done (inr ht1) m1 => Hash.populate env ht1 l2 m1
    | failed => failed
    end.
Proof.
  revert ht m. induction l1 as [|p rest IH]; intros ht m; [reflexivity|].
  cbn [app Hash.populate]. unfold bind.
  destruct (Hash.hash_table_add env ht p m) as [|[added ht'] m']; [reflexivity|].
  destruct added; cbn [negb]; [apply IH|reflexivity].
Qed.

(** On a table with no value of the array, the adding loop fails at the
    first request the allocator refuses and returns the value it was adding. *)
Lemma populate_fails_at (env : environment) (primes : list Z) :
  forall (t : Hash.hash_table_t) (m : machine) (j : nat) (p : Z),
  hash_table_inv t ->
  NoDup primes ->
  (forall v, v ∈ primes -> v ∉ entries t) ->
  primes !! j = Some p ->
  (forall i, (i < j)%nat -> malloc_ok env (allocations m + i) = true) ->
  malloc_ok env (allocations m + j) = false ->
  Hash.populate env (Some t) primes m
  = Done (inl p)
      {| allocations := S (allocations m + j);
         output := output m ++ [Perror "Failed to allocate hash table node"] |}.
Proof.
  induction primes as [|q rest IH]; intros t m j p Hinv Hnodup Hfresh Hj Hok Hfail;
    [discriminate|].
  apply NoDup_cons in Hnodup as [Hq Hnodup].
  assert (Hc : Hash.hash_table_contains (Some t) q = false).
  { apply not_true_is_false. rewrite hash_table_contains_spec by assumption.
    apply Hfresh. left. }
  cbn [Hash.populate]. unfold bind at 1.
  destruct j as [|j].
  - injection Hj as ->. rewrite Nat.add_0_r in Hfail.
    rewrite hash_table_add_failed by assumption. cbn [negb]. unfold ret.
    rewrite Nat.add_0_r. reflexivity.
  - cbn in Hj.
    destruct (hash_table_add_fresh env t q m Hinv Hc) as (t' & -> & Hinv' & _ & Hperm).
    { specialize (Hok 0%nat ltac:(lia)). rewrite Nat.add_0_r in Hok. exact Hok. }
    cbn [negb]. rewrite (IH t' _ j p Hinv' Hnodup); cbn [allocations output].
    + f_equal. f_equal. lia.
    + intros v Hv. rewrite Hperm, elem_of_cons. intros [->|Hin]; [contradiction|].
      apply (Hfresh v); [right; assumption|assumption].
    + assumption.
    + intros i Hi. replace (S (allocations m) + i)%nat with (allocations m + S i)%nat by lia.
      apply Hok. lia.
    + replace (S (allocations m) + j)%nat with (allocations m + S j)%nat by lia.
      assumption.
Qed.

(** X7. When the allocator refuses the node of the [j]-th generated prime
    (table and earlier nodes having been allocated), the C
    [count_right_trunc_primes] returns -1 after naming that prime on the error
    stream; it writes nothing to the standard output. *)
Theorem count_fails_on_node_allocation (env : environment) (digits : Z) (m : machine)
    (j : nat) (p : Z)
    (Hgen : generator_contract env)
    (Hd : 1 <= digits <= 19)
    (Hj : primes_between 2 (10 ^ digits - 1) !! j = Some p)
    (Hok : forall i, (i < 2 + j)%nat -> malloc_ok env (allocations m + i) = true)
    (Hfail : malloc_ok env (allocations m + (2 + j)) = false) :
  Hash.count_right_trunc_primes env digits m
  = Done (-1)
      {| allocations := (allocations m + 2 + j + 1)%nat;
         output := output m
           ++ [Generate 2 (10 ^ digits - 1);
               Perror "Failed to allocate hash table node";
               Stderr ("Error adding prime to hash set: " ++ dec p ++ nl)%string] |}.
Proof.
  unfold Hash.count_right_trunc_primes.
  destruct (Z.ltb_spec digits 1); [lia|]. destruct (Z.ltb_spec 19 digits); [lia|].
  cbn [orb]. cbv zeta. rewrite digits_end_spec by lia.
  unfold bind at 1. unfold emit at 1. rewrite Hgen.
  set (primes := primes_between 2 (10 ^ digits - 1)) in *.
  set (table_size := if Z.of_nat (length primes) =? 0 then 17 else _).
  assert (Hsize : 0 < table_size).
  { unfold table_size. destruct (Z.eqb_spec (Z.of_nat (length primes)) 0); [lia|].
    rewrite wrap64_small by (apply primes_count_u64; lia). lia. }
  unfold bind at 1.
  unfold Hash.hash_table_create at 1, bind, allocate, ret. cbn [allocations output].
  pose proof (Hok 0%nat ltac:(lia)) as Hfirst. rewrite Nat.add_0_r in Hfirst.
  rewrite Hfirst. cbn [negb allocations output].
  pose proof (Hok 1%nat ltac:(lia)) as Hsecond.
  replace (allocations m + 1)%nat with (S (allocations m)) in Hsecond by lia.
  rewrite Hsecond.
  cbn [negb].
  set (t0 := {| Hash.size := table_size; Hash.count := 0;
                Hash.buckets := replicate (Z.to_nat table_size) [] |}).
  assert (Hnil : entries t0 = []) by apply join_replicate_nil.
  assert (Hinv : hash_table_inv t0).
  { constructor; rewrite ?Hnil; cbn [t0 Hash.size Hash.count Hash.buckets].
    - assumption.
    - apply length_replicate.
    - intros i chain v Hi Hv. apply lookup_replicate in Hi as [-> _]. inversion Hv.
    - constructor.
    - reflexivity. }
  rewrite (populate_fails_at env primes t0 _ j p Hinv); cbn [allocations output].
  - unfold emit. cbn [allocations output]. f_equal. f_equal; [lia|].
    rewrite <- !app_assoc. reflexivity.
  - apply NoDup_primes_between.
  - intros v _. rewrite Hnil. apply not_elem_of_nil.
  - assumption.
  - intros i Hi. replace (S (S (allocations m)) + i)%nat with (allocations m + (2 + i))%nat by lia.
    apply Hok. lia.
  - replace (S (S (allocations m)) + j)%nat with (allocations m + (2 + j))%nat by lia.
    assumption.
Qed.

Lemma count_fails_on_node_allocation_witness :
  generator_contract (short_of_memory 5)
  /\ 1 <= 2 <= 19
  /\ primes_between 2 (10 ^ 2 - 1) !! 3%nat = Some 7
  /\ (forall i, (i < 2 + 3)%nat ->
        malloc_ok (short_of_memory 5) (allocations initial_machine + i) = true)
  /\ malloc_ok (short_of_memory 5) (allocations initial_machine + (2 + 3)) = false
  /\ Hash.count_right_trunc_primes (short_of_memory 5) 2 initial_machine
     = Done (-1)
         {| allocations := (allocations initial_machine + 2 + 3 + 1)%nat;
            output := output initial_machine
              ++ [Generate 2 (10 ^ 2 - 1);
                  Perror "Failed to allocate hash table node";
                  Stderr ("Error adding prime to hash set: " ++ dec 7 ++ nl)%string] |}.
Proof.
  assert (H1 : generator_contract (short_of_memory 5)) by (intros a b; reflexivity).
  assert (H2 : 1 <= 2 <= 19) by lia.
  assert (H3 : primes_between 2 (10 ^ 2 - 1) !! 3%nat = Some 7) by reflexivity.
  assert (H4 : forall i, (i < 2 + 3)%nat ->
             malloc_ok (short_of_memory 5) (allocations initial_machine + i) = true).
  { intros i Hi. unfold short_of_memory, malloc_ok. apply Nat.ltb_lt.
    cbn [initial_machine allocations]. lia. }
  assert (H5 : malloc_ok (short_of_memory 5) (allocations initial_machine + (2 + 3)) = false)
    by reflexivity.
  split; [exact H1|]. split; [exact H2|]. split; [exact H3|].
  split; [exact H4|]. split; [exact H5|].
  exact (count_fails_on_node_allocation (short_of_memory 5) 2 initial_machine 3 7
           H1 H2 H3 H4 H5).
Defined.

Example run_short_of_memory :
  run (Hash.main (short_of_memory 5) ["count_primes"; "2"]%string)
  = Done 1 {| allocations := 6;
              output := [Generate 2 99;
                         Perror "Failed to allocate hash table node";
                         Stderr ("Error adding prime to hash set: 7" ++ nl)%string;
                         Stderr ("Error counting right-truncatable primes." ++ nl)%string] |}.
Proof. vm_compute. reflexivity. Qed.

(** * Further properties: failures of the environment *)

(** X8. When the prime source returns NULL for a valid digit bound, both
    programs exit with status 1 without allocating and without writing to the
    standard output: the C program after two error messages (from
    [count_right_trunc_primes] and from [main]), the C++ program after one. *)
Theorem generation_failure (env : environment) (argv : list string) (D : Z)
    (m : machine)
    (Hargv : length argv = 2%nat /\ atoi env (nth 1 argv ""%string) = D)
    (HD : 1 <= D <= 19)
    (Hnull : primesieve_generate_primes env 2 (10 ^ D - 1) = None) :
  Hash.main env argv m
  = Done 1 {| allocations := allocations m;
              output := output m
                ++ [Generate 2 (10 ^ D - 1);
                    Stderr ("Error: primesieve_generate_primes for all primes returned NULL." ++ nl)%string;
                    Stderr ("Error counting right-truncatable primes." ++ nl)%string] |}
  /\ Bitset.main env argv m
     = Done 1 {| allocations := allocations m;
                 output := output m
                   ++ [Generate 2 (10 ^ D - 1);
                       Stderr ("Error generating primes." ++ nl)%string] |}.
Proof.
  destruct Hargv as [Hlen Hatoi]. unfold Hash.main, Bitset.main.
  rewrite Hlen, Hatoi. change (negb (Z.of_nat 2 =? 2)) with false. cbv iota.
  destruct (Z.ltb_spec D 1); [lia|]. destruct (Z.ltb_spec 19 D); [lia|]. cbn [orb].
  split.
  - unfold Hash.count_right_trunc_primes.
    destruct (Z.ltb_spec D 1); [lia|]. destruct (Z.ltb_spec 19 D); [lia|]. cbn [orb].
    cbv zeta. rewrite digits_end_spec by lia. rewrite Hnull.
    unfold bind, emit, ret. cbn [allocations output Z.ltb Z.compare].
    rewrite <- !app_assoc. reflexivity.
  - cbv zeta. rewrite digits_end_spec by lia. rewrite Hnull.
    unfold bind, emit, ret. cbn [allocations output].
    rewrite <- !app_assoc. reflexivity.
Qed.

Lemma generation_failure_witness :
  (length ["count_primes"; "8"]%string = 2%nat
   /\ atoi no_generator (nth 1 ["count_primes"; "8"]%string ""%string) = 8)
  /\ 1 <= 8 <= 19
  /\ primesieve_generate_primes no_generator 2 (10 ^ 8 - 1) = None
  /\ Hash.main no_generator ["count_primes"; "8"]%string initial_machine
     = Done 1 {| allocations := allocations initial_machine;
                 output := output initial_machine
                   ++ [Generate 2 (10 ^ 8 - 1);
                       Stderr ("Error: primesieve_generate_primes for all primes returned NULL." ++ nl)%string;
                       Stderr ("Error counting right-truncatable primes." ++ nl)%string] |}
  /\ Bitset.main no_generator ["count_primes"; "8"]%string initial_machine
     = Done 1 {| allocations := allocations initial_machine;
                 output := output initial_machine
                   ++ [Generate 2 (10 ^ 8 - 1);
                       Stderr ("Error generating primes." ++ nl)%string] |}.
Proof.
  assert (H1 : length ["count_primes"; "8"]%string = 2%nat
               /\ atoi no_generator (nth 1 ["count_primes"; "8"]%string ""%string) = 8)
    by (split; reflexivity).
  assert (H2 : 1 <= 8 <= 19) by lia.
  assert (H3 : primesieve_generate_primes no_generator 2 (10 ^ 8 - 1) = None)
    by reflexivity.
  split; [exact H1|]. split; [exact H2|]. split; [exact H3|].
  exact (generation_failure no_generator ["count_primes"; "8"]%string 8
           initial_machine H1 H2 H3).
Defined.

(** X9. When the table or its bucket array cannot be allocated, the C
    [count_right_trunc_primes] returns -1 after the [perror] message of
    [hash_table_create] and the message "Error creating hash set."; no prime
    is added and nothing is counted. *)
Theorem count_fails_on_table_allocation (env : environment) (digits : Z)
    (m : machine) (all_primes_array : list Z)
    (Hd : 1 <= digits <= 19)
    (Hgen : primesieve_generate_primes env 2 (10 ^ digits - 1) = Some all_primes_array)
    (Hfail : malloc_ok env (allocations m) = false
             \/ malloc_ok env (S (allocations m)) = false) :
  exists message m',
    Hash.count_right_trunc_primes env digits m = Done (-1) m'
    /\ output m' = output m
         ++ [Generate 2 (10 ^ digits - 1); Perror message;
             Stderr ("Error creating hash set." ++ nl)%string]
    /\ (allocations m' <= allocations m + 2)%nat.
Proof.
  unfold Hash.count_right_trunc_primes.
  destruct (Z.ltb_spec digits 1); [lia|]. destruct (Z.ltb_spec 19 digits); [lia|].
  cbn [orb]. cbv zeta. rewrite digits_end_spec by lia.
  unfold bind at 1. unfold emit at 1. rewrite Hgen.
  unfold bind at 1. unfold Hash.hash_table_create, bind, allocate, emit, ret.
  cbn [allocations output].
  destruct (malloc_ok env (allocations m)) eqn:H1; cbn [negb allocations output].
  - destruct Hfail as [?|H2]; [discriminate|]. rewrite H2. cbn [negb allocations output].
    eexists _, _. split; [reflexivity|]. cbn [allocations output].
    split; [rewrite <- !app_assoc; reflexivity|lia].
  - eexists _, _. split; [reflexivity|]. cbn [allocations output].
    split; [rewrite <- !app_assoc; reflexivity|lia].
Qed.

Lemma count_fails_on_table_allocation_witness :
  1 <= 3 <= 19
  /\ primesieve_generate_primes (short_of_memory 1) 2 (10 ^ 3 - 1)
     = Some (primes_between 2 (10 ^ 3 - 1))
  /\ (malloc_ok (short_of_memory 1) (allocations initial_machine) = false
      \/ malloc_ok (short_of_memory 1) (S (allocations initial_machine)) = false)
  /\ exists message m',
       Hash.count_right_trunc_primes (short_of_memory 1) 3 initial_machine = Done (-1) m'
       /\ output m' = output initial_machine
            ++ [Generate 2 (10 ^ 3 - 1); Perror message;
                Stderr ("Error creating hash set." ++ nl)%string]
       /\ (allocations m' <= allocations initial_machine + 2)%nat.
Proof.
  assert (H1 : 1 <= 3 <= 19) by lia.
  assert (H2 : primesieve_generate_primes (short_of_memory 1) 2 (10 ^ 3 - 1)
               = Some (primes_between 2 (10 ^ 3 - 1))) by reflexivity.
  assert (H3 : malloc_ok (short_of_memory 1) (allocations initial_machine) = false
               \/ malloc_ok (short_of_memory 1) (S (allocations initial_machine)) = false)
    by (right; reflexivity).
  split; [exact H1|]. split; [exact H2|]. split; [exact H3|].
  exact (count_fails_on_table_allocation (short_of_memory 1) 3 initial_machine
           (primes_between 2 (10 ^ 3 - 1)) H1 H2 H3).
Defined.

(** * Further properties: the counting functions on any array *)

Lemma passing_ext (c1 c2 : Z -> option bool) (l : list Z) :
  (forall u, c1 u = c2 u) -> passing c1 l = passing c2 l.
Proof.
  intros Heq. induction l as [|p rest IH]; [reflexivity|].
  rewrite !passing_cons, IH, (passes_ext c1 c2 p) by (intros; apply Heq).
  reflexivity.
Qed.

(** The adding loop with its bookkeeping: one allocation request per value
    that was not yet stored. *)
Lemma populate_accounting (env : environment) (primes : list Z) :
  allocations_succeed env ->
  forall (t : Hash.hash_table_t) (m : machine),
  hash_table_inv t ->
  exists t' m',
    Hash.populate env (Some t) primes m = Done (inr (Some t')) m'
    /\ hash_table_inv t'
    /\ (forall v, v ∈ entries t' <-> v ∈ entries t \/ v ∈ primes)
    /\ output m' = output m
    /\ (allocations m' + length (entries t)
        = allocations m + length (entries t'))%nat.
Proof.
  intros Hok. induction primes as [|p rest IH]; intros t m Hinv.
  - exists t, m. split; [reflexivity|]. split; [assumption|].
    split; [|split; [reflexivity|lia]].
    intros v. rewrite elem_of_nil. tauto.
  - cbn [Hash.populate]. unfold bind at 1.
    destruct (Hash.hash_table_contains (Some t) p) eqn:Hc.
    + rewrite hash_table_add_present by assumption. cbn [negb].
      destruct (IH t m Hinv) as (t' & m' & Hrun & Hinv' & Hmem & Hout & Hacc).
      exists t', m'. split; [assumption|]. split; [assumption|].
      split; [|split; assumption].
      intros v. rewrite Hmem, elem_of_cons.
      apply hash_table_contains_spec in Hc; [|assumption].
      split; [tauto|]. intros [?|[->|?]]; tauto.
    + destruct (hash_table_add_fresh env t p m Hinv Hc (Hok _))
        as (t1 & -> & Hinv1 & _ & Hperm). cbn [negb].
      destruct (IH t1 {| allocations := S (allocations m); output := output m |} Hinv1)
        as (t' & m' & Hrun & Hinv' & Hmem & Hout & Hacc).
      exists t', m'. split; [assumption|]. split; [assumption|].
      split; [|split; [assumption|]].
      * intros v. rewrite Hmem, Hperm, !elem_of_cons. tauto.
      * rewrite Hperm in Hacc. cbn [length allocations] in Hacc. lia.
Qed.

(** The build of the C program, step 2 of [count_right_trunc_primes]. *)
Lemma hash_build_spec (env : environment) (arr : list Z) (m : machine) :
  allocations_succeed env ->
  Z.of_nat (length arr) * 2 < 2 ^ 64 ->
  exists t0 t m2,
    Hash.hash_table_create env
      (if Z.of_nat (length arr) =? 0 then 17
       else wrap64 (Z.of_nat (length arr) * 2)) m
    = Done (Some t0) {| allocations := S (S (allocations m)); output := output m |}
    /\ Hash.populate env (Some t0) arr
         {| allocations := S (S (allocations m)); output := output m |}
       = Done (inr (Some t)) m2
    /\ hash_table_inv t
    /\ (forall v, v ∈ entries t <-> v ∈ arr)
    /\ output m2 = output m
    /\ allocations m2 = (allocations m + 2 + length (entries t))%nat.
Proof.
  intros Halloc Hlen.
  set (table_size := if Z.of_nat (length arr) =? 0 then 17 else _).
  assert (Hsize : 0 < table_size).
  { unfold table_size. destruct (Z.eqb_spec (Z.of_nat (length arr)) 0); [lia|].
    rewrite wrap64_small by lia. lia. }
  destruct (hash_table_create_spec env table_size m Halloc Hsize)
    as (t0 & Hcreate & Hinv0 & _ & Hnil).
  destruct (populate_accounting env arr Halloc t0
              {| allocations := S (S (allocations m)); output := output m |} Hinv0)
    as (t & m2 & Hpop & Hinv & Hmem & Hout & Hacc).
  exists t0, t, m2. split; [exact Hcreate|]. split; [exact Hpop|].
  split; [assumption|]. split; [|split; [exact Hout|]].
  - intros v. rewrite Hmem, Hnil, elem_of_nil. tauto.
  - rewrite Hnil in Hacc. cbn [length allocations] in Hacc. lia.
Qed.

Lemma passing_bound (contains : Z -> option bool) (start stop : Z) (arr : list Z) :
  0 <= passing contains (window start stop arr) <= Z.of_nat (length arr).
Proof.
  unfold passing, window.
  pose proof (length_filter (fun p => start <= p <= stop) arr).
  pose proof (length_filter (fun p => passes contains p = true)
                (filter (fun p => start <= p <= stop) arr)).
  lia.
Qed.

(** X10. Whatever array the prime source returns (values non-negative,
    fewer than [2^31] of them, so that the [int] counter stays in range), the
    C [count_right_trunc_primes] returns the number of array elements between
    [10^(digits-1)] and [10^digits - 1] all of whose truncations occur in the
    array. *)
Theorem hash_count_any_array (env : environment) (digits : Z) (m : machine)
    (all_primes_array : list Z)
    (Hd : 1 <= digits <= 19)
    (Halloc : allocations_succeed env)
    (Hgen : primesieve_generate_primes env 2 (10 ^ digits - 1) = Some all_primes_array)
    (Hvals : Forall (fun p => 0 <= p) all_primes_array)
    (Hshort : Z.of_nat (length all_primes_array) < 2 ^ 31) :
  exists right_truncatable_count m',
    Hash.count_right_trunc_primes env digits m = Done right_truncatable_count m'
    /\ right_truncatable_count
       = passing (member_query all_primes_array)
           (window (10 ^ (digits - 1)) (10 ^ digits - 1) all_primes_array)
    /\ 0 <= right_truncatable_count < 2 ^ 31
    /\ output m' = output m ++ [Generate 2 (10 ^ digits - 1)].
Proof.
  assert (Hlen : Z.of_nat (length all_primes_array) * 2 < 2 ^ 64) by lia.
  pose proof (passing_bound (member_query all_primes_array) (10 ^ (digits - 1))
                (10 ^ digits - 1) all_primes_array) as Hbound.
  eexists (passing _ _). 
  enough (Hrun : exists m',
    Hash.count_right_trunc_primes env digits m
    = Done (passing (member_query all_primes_array)
              (window (10 ^ (digits - 1)) (10 ^ digits - 1) all_primes_array)) m'
    /\ output m' = output m ++ [Generate 2 (10 ^ digits - 1)]).
  { destruct Hrun as (m' & Hrun & Hout). exists m'.
    split; [exact Hrun|]. split; [reflexivity|]. split; [lia|exact Hout]. }
  unfold Hash.count_right_trunc_primes.
  destruct (Z.ltb_spec digits 1); [lia|]. destruct (Z.ltb_spec 19 digits); [lia|].
  cbn [orb]. cbv zeta. rewrite digits_end_spec, power_of_10_spec by lia.
  unfold bind at 1. unfold emit at 1. rewrite Hgen.
  set (m1 := {| allocations := allocations m;
                output := output m ++ [Generate 2 (10 ^ digits - 1)] |}).
  destruct (hash_build_spec env all_primes_array m1 Halloc Hlen)
    as (t0 & t & m2 & Hcreate & Hpop & Hinv & Hmem & Hout & _).
  unfold bind at 1. rewrite Hcreate. unfold bind at 1. rewrite Hpop.
  rewrite hash_for_each_in_window, hash_count_candidates.
  - exists m2. split; [|exact Hout].
    f_equal. rewrite Z.add_0_l. apply passing_ext. intros u.
    unfold member_query. f_equal. apply eq_true_iff_eq.
    rewrite hash_table_contains_spec, Hmem, bool_decide_eq_true by assumption.
    reflexivity.
  - apply Forall_forall. intros p Hp. apply elem_of_window in Hp as [_ Hp].
    rewrite Forall_forall in Hvals. auto.
Qed.

Lemma hash_count_any_array_witness :
  1 <= 2 <= 19
  /\ allocations_succeed reference_environment
  /\ primesieve_generate_primes reference_environment 2 (10 ^ 2 - 1)
     = Some (primes_between 2 (10 ^ 2 - 1))
  /\ Forall (fun p => 0 <= p) (primes_between 2 (10 ^ 2 - 1))
  /\ Z.of_nat (length (primes_between 2 (10 ^ 2 - 1))) < 2 ^ 31
  /\ exists right_truncatable_count m',
       Hash.count_right_trunc_primes reference_environment 2 initial_machine
       = Done right_truncatable_count m'
       /\ right_truncatable_count
          = passing (member_query (primes_between 2 (10 ^ 2 - 1)))
              (window (10 ^ (2 - 1)) (10 ^ 2 - 1) (primes_between 2 (10 ^ 2 - 1)))
       /\ 0 <= right_truncatable_count < 2 ^ 31
       /\ output m' = output initial_machine ++ [Generate 2 (10 ^ 2 - 1)].
Proof.
  assert (H1 : 1 <= 2 <= 19) by lia.
  assert (H2 : allocations_succeed reference_environment) by (intros n; reflexivity).
  assert (H3 : primesieve_generate_primes reference_environment 2 (10 ^ 2 - 1)
               = Some (primes_between 2 (10 ^ 2 - 1))) by reflexivity.
  assert (H4 : Forall (fun p => 0 <= p) (primes_between 2 (10 ^ 2 - 1)))
    by (vm_compute; repeat constructor; discriminate).
  assert (H5 : Z.of_nat (length (primes_between 2 (10 ^ 2 - 1))) < 2 ^ 31)
    by (vm_compute; reflexivity).
  split; [exact H1|]. split; [exact H2|]. split; [exact H3|].
  split; [exact H4|]. split; [exact H5|].
  exact (hash_count_any_array reference_environment 2 initial_machine
           (primes_between 2 (10 ^ 2 - 1)) H1 H2 H3 H4 H5).
Defined.

(** The count on an array that is not a list of primes: of 1, 7, 12, 13, 17,
    71 and 95, the two-digit elements whose truncations are all in the array
    are 12, 13, 17 and 71 (9 is not in the array). *)
Example hash_count_arbitrary_array :
  run (Hash.count_right_trunc_primes
         {| malloc_ok := fun _ => true;
            primesieve_generate_primes := fun _ _ => Some [1; 7; 12; 13; 17; 71; 95];
            atoi := fun _ => 0 |} 2)
  = Done 4 {| allocations := 9; output := [Generate 2 99] |}.
Proof. vm_compute. reflexivity. Qed.

(** X11. On any ascending array of non-negative values (fewer than [2^31]
    of them, so that the [int] counter stays in range) and any bit table, the
    C++ [count_right_trunc_primes] returns the number of window elements that
    pass the truncation check against the table; it writes the size of the
    window into the cell [digits] of [primes_per_digit] and leaves every other
    cell, and the length of the vector, as they were. *)
Theorem bitset_count_any_array (all_primes_array primes_per_digit : list Z)
    (prime_bitset : list bool) (digits : Z) (m : machine)
    (Hd : 1 <= digits <= 19)
    (Hcell : digits < Z.of_nat (length primes_per_digit))
    (Hsorted : StronglySorted Z.lt all_primes_array)
    (Hvals : Forall (fun p => 0 <= p) all_primes_array)
    (Hshort : Z.of_nat (length all_primes_array) < 2 ^ 31) :
  let candidates :=
    window (10 ^ (digits - 1)) (10 ^ digits - 1) all_primes_array in
  exists right_truncatable_count primes_per_digit',
    Bitset.count_right_trunc_primes all_primes_array primes_per_digit
      prime_bitset digits m
    = Done (right_truncatable_count, primes_per_digit') m
    /\ right_truncatable_count
       = passing (Bitset.bitset_contains prime_bitset) candidates
    /\ 0 <= right_truncatable_count < 2 ^ 31
    /\ length primes_per_digit' = length primes_per_digit
    /\ primes_per_digit' !! Z.to_nat digits
       = Some (wrap64 (Z.of_nat (length candidates)))
    /\ (forall j, j <> Z.to_nat digits ->
          primes_per_digit' !! j = primes_per_digit !! j).
Proof.
  intros candidates.
  pose proof (passing_bound (Bitset.bitset_contains prime_bitset) (10 ^ (digits - 1))
                (10 ^ digits - 1) all_primes_array) as Hbound.
  fold candidates in Hbound.
  exists (passing (Bitset.bitset_contains prime_bitset) candidates).
  enough (Hrun : exists primes_per_digit',
    Bitset.count_right_trunc_primes all_primes_array primes_per_digit
      prime_bitset digits m
    = Done (passing (Bitset.bitset_contains prime_bitset) candidates,
            primes_per_digit') m
    /\ length primes_per_digit' = length primes_per_digit
    /\ primes_per_digit' !! Z.to_nat digits
       = Some (wrap64 (Z.of_nat (length candidates)))
    /\ (forall j, j <> Z.to_nat digits ->
          primes_per_digit' !! j = primes_per_digit !! j)).
  { destruct Hrun as (ppd' & Hrun & Hl & Hcellv & Hother). exists ppd'.
    split; [exact Hrun|]. split; [reflexivity|]. split; [lia|].
    split; [exact Hl|]. split; [exact Hcellv|exact Hother]. }
  unfold Bitset.count_right_trunc_primes.
  destruct (Z.ltb_spec digits 1); [lia|]. destruct (Z.ltb_spec 19 digits); [lia|].
  cbn [orb]. rewrite vector_set_Some by lia. unfold bind at 1. cbn [lift]. unfold ret at 1.
  rewrite digits_end_spec, power_of_10_spec by lia.
  rewrite bitset_for_each_in_window by assumption. fold candidates.
  assert (Hdigits : 0 <= digits) by lia.
  assert (Hcand : Forall (fun p => 0 <= p) candidates).
  { apply Forall_forall. intros p Hp. apply elem_of_window in Hp as [_ Hp].
    rewrite Forall_forall in Hvals. auto. }
  rewrite (bitset_count_candidates prime_bitset digits candidates Hcand Hdigits 0 0);
    [|apply list_lookup_insert_eq; lia|lia].
  rewrite list_insert_insert_eq, !Z.add_0_l.
  eexists. split; [reflexivity|]. split; [apply length_insert|]. split.
  - apply list_lookup_insert_eq. lia.
  - intros j Hj. apply list_lookup_insert_ne. congruence.
Qed.

Lemma bitset_count_any_array_witness :
  1 <= 2 <= 19
  /\ 2 < Z.of_nat (length [7; 8; 9])
  /\ StronglySorted Z.lt [2; 3; 5; 7; 23; 29; 31; 101]
  /\ Forall (fun p => 0 <= p) [2; 3; 5; 7; 23; 29; 31; 101]
  /\ Z.of_nat (length [2; 3; 5; 7; 23; 29; 31; 101]) < 2 ^ 31
  /\ let candidates :=
       window (10 ^ (2 - 1)) (10 ^ 2 - 1) [2; 3; 5; 7; 23; 29; 31; 101] in
     exists right_truncatable_count primes_per_digit',
       Bitset.count_right_trunc_primes [2; 3; 5; 7; 23; 29; 31; 101] [7; 8; 9]
         sample_bitset 2 initial_machine
       = Done (right_truncatable_count, primes_per_digit') initial_machine
       /\ right_truncatable_count
          = passing (Bitset.bitset_contains sample_bitset) candidates
       /\ 0 <= right_truncatable_count < 2 ^ 31
       /\ length primes_per_digit' = length [7; 8; 9]
       /\ primes_per_digit' !! Z.to_nat 2
          = Some (wrap64 (Z.of_nat (length candidates)))
       /\ (forall j, j <> Z.to_nat 2 ->
             primes_per_digit' !! j = [7; 8; 9] !! j).
Proof.
  assert (H1 : 1 <= 2 <= 19) by lia.
  assert (H2 : 2 < Z.of_nat (length [7; 8; 9])) by (cbn; lia).
  assert (H3 : StronglySorted Z.lt [2; 3; 5; 7; 23; 29; 31; 101])
    by (repeat constructor; lia).
  assert (H4 : Forall (fun p => 0 <= p) [2; 3; 5; 7; 23; 29; 31; 101])
    by (repeat constructor; lia).
  assert (H5 : Z.of_nat (length [2; 3; 5; 7; 23; 29; 31; 101]) < 2 ^ 31)
    by (vm_compute; reflexivity).
  split; [exact H1|]. split; [exact H2|]. split; [exact H3|]. split; [exact H4|].
  split; [exact H5|].
  exact (bitset_count_any_array [2; 3; 5; 7; 23; 29; 31; 101] [7; 8; 9]
           sample_bitset 2 initial_machine H1 H2 H3 H4 H5).
Defined.

Example bitset_count_sample :
  Bitset.count_right_trunc_primes [2; 3; 5; 7; 23; 29; 31; 101] [7; 8; 9]
    sample_bitset 2 initial_machine
  = Done (3, [7; 8; 3]) initial_machine.
Proof. vm_compute. reflexivity. Qed.

(** * Further properties: the bit table *)

(** The marking loop of the C++ [main] stays inside the bit table
    exactly when every array value is below the table's length; then it
    keeps the length. *)
Lemma mark_primes_defined (prime_bitset : list bool) (all_primes_array : list Z) :
  (is_Some (Bitset.mark_primes prime_bitset all_primes_array)
   <-> Forall (fun p => 0 <= p < Z.of_nat (length prime_bitset)) all_primes_array)
  /\ (forall marked, Bitset.mark_primes prime_bitset all_primes_array = Some marked ->
        length marked = length prime_bitset).
Proof.
  revert prime_bitset. induction all_primes_array as [|p rest IH]; intros bs.
  - split; [split; [constructor|cbn; eauto]|].
    intros marked H. injection H as <-. reflexivity.
  - cbn [Bitset.mark_primes]. unfold Bitset.vector_set.
    destruct (Z.leb_spec 0 p) as [Hp0|Hp0]; cbn [andb].
    + destruct (Z.ltb_spec p (Z.of_nat (length bs))) as [Hp1|Hp1].
      * destruct (IH (<[Z.to_nat p := true]> bs)) as [Hiff Hlen].
        rewrite length_insert in Hiff, Hlen. split; [|exact Hlen].
        rewrite Hiff, Forall_cons. split; [intros ?; split; [lia|assumption]|tauto].
      * split; [|discriminate]. rewrite Forall_cons.
        split; [intros [? H]; discriminate|intros [? _]; lia].
    + split; [|discriminate]. rewrite Forall_cons.
      split; [intros [? H]; discriminate|intros [? _]; lia].
Qed.

(** X12. When the prime source returns a value beyond the requested
    maximum, the C++ [main] writes outside its bit table: the run is
    undefined.  (The C program stores any value in its hash set.) *)
Theorem bitset_main_out_of_range (env : environment) (argv : list string) (D p : Z)
    (m : machine) (all_primes_array : list Z)
    (Hargv : length argv = 2%nat /\ atoi env (nth 1 argv ""%string) = D)
    (HD : 1 <= D <= 19)
    (Hgen : primesieve_generate_primes env 2 (10 ^ D - 1) = Some all_primes_array)
    (Hp : p ∈ all_primes_array)
    (Hout : 10 ^ D <= p) :
  Bitset.main env argv m = Undefined.
Proof.
  destruct Hargv as [Hlen Hatoi]. unfold Bitset.main.
  rewrite Hlen, Hatoi. change (negb (Z.of_nat 2 =? 2)) with false. cbv iota.
  destruct (Z.ltb_spec D 1); [lia|]. destruct (Z.ltb_spec 19 D); [lia|]. cbn [orb].
  cbv zeta. rewrite digits_end_spec by lia.
  unfold bind at 1. unfold emit at 1. rewrite Hgen.
  replace (10 ^ D - 1 + 1) with (10 ^ D) by lia.
  pose proof (pow10_pos D ltac:(lia)) as Hpos.
  rewrite wrap64_small by (pose proof (pow10_le_u64 D ltac:(lia)); lia).
  destruct (Bitset.mark_primes (replicate (Z.to_nat (10 ^ D)) false) all_primes_array)
    as [bs|] eqn:Hmark; [exfalso|reflexivity].
  destruct (mark_primes_defined (replicate (Z.to_nat (10 ^ D)) false) all_primes_array)
    as [[Hall _] _].
  specialize (Hall ltac:(rewrite Hmark; eauto)).
  rewrite Forall_forall in Hall. specialize (Hall p Hp).
  rewrite length_replicate in Hall. lia.
Qed.

Lemma bitset_main_out_of_range_witness :
  (length ["count_primes"; "1"]%string = 2%nat
   /\ atoi {| malloc_ok := fun _ => true;
              primesieve_generate_primes := fun _ _ => Some [2; 3; 5; 7; 11];
              atoi := libc_atoi |}
        (nth 1 ["count_primes"; "1"]%string ""%string) = 1)
  /\ 1 <= 1 <= 19
  /\ primesieve_generate_primes
       {| malloc_ok := fun _ => true;
          primesieve_generate_primes := fun _ _ => Some [2; 3; 5; 7; 11];
          atoi := libc_atoi |} 2 (10 ^ 1 - 1) = Some [2; 3; 5; 7; 11]
  /\ 11 ∈ [2; 3; 5; 7; 11]
  /\ 10 ^ 1 <= 11
  /\ Bitset.main {| malloc_ok := fun _ => true;
                    primesieve_generate_primes := fun _ _ => Some [2; 3; 5; 7; 11];
                    atoi := libc_atoi |}
       ["count_primes"; "1"]%string initial_machine = Undefined.
Proof.
  set (env := {| malloc_ok := fun _ => true;
                 primesieve_generate_primes := fun _ _ => Some [2; 3; 5; 7; 11];
                 atoi := libc_atoi |}).
  assert (H1 : length ["count_primes"; "1"]%string = 2%nat
               /\ atoi env (nth 1 ["count_primes"; "1"]%string ""%string) = 1)
    by (split; reflexivity).
  assert (H2 : 1 <= 1 <= 19) by lia.
  assert (H3 : primesieve_generate_primes env 2 (10 ^ 1 - 1) = Some [2; 3; 5; 7; 11])
    by reflexivity.
  assert (H4 : 11 ∈ [2; 3; 5; 7; 11]) by (repeat constructor).
  assert (H5 : 10 ^ 1 <= 11) by (vm_compute; discriminate).
  split; [exact H1|]. split; [exact H2|]. split; [exact H3|].
  split; [exact H4|]. split; [exact H5|].
  exact (bitset_main_out_of_range env ["count_primes"; "1"]%string 1 11
           initial_machine [2; 3; 5; 7; 11] H1 H2 H3 H4 H5).
Defined.

(** X13. The bit table built over an array whose values lie below the
    table's length answers the membership query for every non-negative
    value: true for the values of the array, false for all others. *)
Theorem bitset_index_exact (all_primes_array : list Z) (n : nat)
    (Hrange : Forall (fun p => 0 <= p < Z.of_nat n) all_primes_array) :
  exists prime_bitset,
    Bitset.mark_primes (replicate n false) all_primes_array = Some prime_bitset
    /\ length prime_bitset = n
    /\ forall v, 0 <= v ->
         Bitset.bitset_contains prime_bitset v
         = Some (bool_decide (v ∈ all_primes_array)).
Proof.
  rewrite Forall_forall in Hrange.
  destruct (bitset_index_spec all_primes_array n Hrange) as (bs & Hmark & Hlen & Hmem).
  exists bs. split; [assumption|]. split; [assumption|].
  intros v Hv. destruct (bitset_contains_defined bs v Hv) as [b Hb].
  rewrite Hb. f_equal. specialize (Hmem v Hv). rewrite Hb in Hmem.
  destruct b.
  - symmetry. apply bool_decide_eq_true. apply Hmem. reflexivity.
  - symmetry. apply bool_decide_eq_false. intros Hin. apply Hmem in Hin. discriminate.
Qed.

Lemma bitset_index_exact_witness :
  Forall (fun p => 0 <= p < Z.of_nat 10) [2; 3; 5; 7]
  /\ exists prime_bitset,
       Bitset.mark_primes (replicate 10 false) [2; 3; 5; 7] = Some prime_bitset
       /\ length prime_bitset = 10%nat
       /\ forall v, 0 <= v ->
            Bitset.bitset_contains prime_bitset v
            = Some (bool_decide (v ∈ [2; 3; 5; 7])).
Proof.
  assert (H : Forall (fun p => 0 <= p < Z.of_nat 10) [2; 3; 5; 7])
    by (repeat constructor; lia).
  split; [exact H|]. exact (bitset_index_exact [2; 3; 5; 7] 10 H).
Defined.

(** * Further properties: the life of the hash set *)

Lemma free_chain_length (chain : list Z) : Hash.free_chain chain = length chain.
Proof. induction chain as [|x rest IH]; cbn; [reflexivity|]. rewrite IH. reflexivity. Qed.

Lemma free_buckets_length (bs : list (list Z)) :
  foldr (fun chain released => (Hash.free_chain chain + released)%nat) O bs
  = length (mjoin bs).
Proof.
  induction bs as [|b bs IH]; [reflexivity|].
  cbn [foldr]. rewrite IH, free_chain_length.
  change (mjoin (b :: bs)) with (b ++ mjoin bs). rewrite length_app. reflexivity.
Qed.

Lemma hash_table_destroy_inv (t : Hash.hash_table_t) :
  hash_table_inv t ->
  Hash.hash_table_destroy (Some t) = (length (entries t) + 2)%nat.
Proof.
  intros Hinv. unfold Hash.hash_table_destroy.
  rewrite take_ge by (rewrite (inv_length t Hinv); lia).
  rewrite free_buckets_length. reflexivity.
Qed.

(** X14. The table that [count_right_trunc_primes] builds is released
    block for block: [hash_table_destroy] frees as many blocks as the build
    has allocated (the table, its bucket array and one node per stored
    value); destroying NULL frees nothing. *)
Theorem hash_table_destroy_releases_all (env : environment)
    (all_primes_array : list Z) (m : machine)
    (Halloc : allocations_succeed env)
    (Hlen : Z.of_nat (length all_primes_array) * 2 < 2 ^ 64) :
  exists t0 t m1 m2,
    Hash.hash_table_create env
      (if Z.of_nat (length all_primes_array) =? 0 then 17
       else wrap64 (Z.of_nat (length all_primes_array) * 2)) m = Done (Some t0) m1
    /\ Hash.populate env (Some t0) all_primes_array m1 = Done (inr (Some t)) m2
    /\ (allocations m + Hash.hash_table_destroy (Some t))%nat = allocations m2
    /\ Hash.hash_table_destroy (Some t)
       = (length (remove_dups all_primes_array) + 2)%nat
    /\ Hash.hash_table_destroy None = O.
Proof.
  destruct (hash_build_spec env all_primes_array m Halloc Hlen)
    as (t0 & t & m2 & Hcreate & Hpop & Hinv & Hmem & _ & Hacc).
  eexists t0, t, _, m2. split; [exact Hcreate|]. split; [exact Hpop|].
  rewrite hash_table_destroy_inv by assumption.
  split; [lia|]. split; [|reflexivity].
  f_equal. apply Permutation_length, NoDup_Permutation.
  - apply (inv_nodup t Hinv).
  - apply NoDup_remove_dups.
  - intros v. rewrite Hmem, elem_of_remove_dups. reflexivity.
Qed.

Lemma hash_table_destroy_releases_all_witness :
  allocations_succeed reference_environment
  /\ Z.of_nat (length [3; 5; 3; 7; 5]) * 2 < 2 ^ 64
  /\ exists t0 t m1 m2,
       Hash.hash_table_create reference_environment
         (if Z.of_nat (length [3; 5; 3; 7; 5]) =? 0 then 17
          else wrap64 (Z.of_nat (length [3; 5; 3; 7; 5]) * 2)) initial_machine
       = Done (Some t0) m1
       /\ Hash.populate reference_environment (Some t0) [3; 5; 3; 7; 5] m1
          = Done (inr (Some t)) m2
       /\ (allocations initial_machine + Hash.hash_table_destroy (Some t))%nat
          = allocations m2
       /\ Hash.hash_table_destroy (Some t)
          = (length (remove_dups [3; 5; 3; 7; 5]) + 2)%nat
       /\ Hash.hash_table_destroy None = O.
Proof.
  assert (H1 : allocations_succeed reference_environment) by (intros n; reflexivity).
  assert (H2 : Z.of_nat (length [3; 5; 3; 7; 5]) * 2 < 2 ^ 64) by (vm_compute; reflexivity).
  split; [exact H1|]. split; [exact H2|].
  exact (hash_table_destroy_releases_all reference_environment [3; 5; 3; 7; 5]
           initial_machine H1 H2).
Defined.

(** X15. Built over an array with repeated values, the hash set stores
    each value once: [count] is the number of distinct values, membership is
    that of the array, and one node is allocated per distinct value. *)
Theorem hash_set_ignores_duplicates (env : environment)
    (all_primes_array : list Z) (m : machine)
    (Halloc : allocations_succeed env)
    (Hlen : Z.of_nat (length all_primes_array) * 2 < 2 ^ 64) :
  exists t0 t m1 m2,
    Hash.hash_table_create env
      (if Z.of_nat (length all_primes_array) =? 0 then 17
       else wrap64 (Z.of_nat (length all_primes_array) * 2)) m = Done (Some t0) m1
    /\ Hash.populate env (Some t0) all_primes_array m1 = Done (inr (Some t)) m2
    /\ Hash.count t = Z.of_nat (length (remove_dups all_primes_array))
    /\ entries t ≡ₚ remove_dups all_primes_array
    /\ (forall v, Hash.hash_table_contains (Some t) v = bool_decide (v ∈ all_primes_array))
    /\ allocations m2
       = (allocations m1 + length (remove_dups all_primes_array))%nat.
Proof.
  destruct (hash_build_spec env all_primes_array m Halloc Hlen)
    as (t0 & t & m2 & Hcreate & Hpop & Hinv & Hmem & _ & Hacc).
  eexists t0, t, _, m2. split; [exact Hcreate|]. split; [exact Hpop|].
  assert (Hperm : entries t ≡ₚ remove_dups all_primes_array).
  { apply NoDup_Permutation.
    - apply (inv_nodup t Hinv).
    - apply NoDup_remove_dups.
    - intros v. rewrite Hmem, elem_of_remove_dups. reflexivity. }
  split; [|split; [exact Hperm|split]].
  - rewrite (inv_count t Hinv), Hperm. apply wrap64_small.
    assert (Hsub : remove_dups all_primes_array ⊆+ all_primes_array).
    { apply NoDup_submseteq; [apply NoDup_remove_dups|].
      intros v. rewrite elem_of_remove_dups. tauto. }
    apply submseteq_length in Hsub. lia.
  - intros v. apply eq_true_iff_eq.
    rewrite hash_table_contains_spec, Hmem, bool_decide_eq_true by assumption.
    reflexivity.
  - cbn [allocations]. rewrite <- Hperm. lia.
Qed.

Lemma hash_set_ignores_duplicates_witness :
  allocations_succeed reference_environment
  /\ Z.of_nat (length [3; 5; 3; 7; 5]) * 2 < 2 ^ 64
  /\ exists t0 t m1 m2,
       Hash.hash_table_create reference_environment
         (if Z.of_nat (length [3; 5; 3; 7; 5]) =? 0 then 17
          else wrap64 (Z.of_nat (length [3; 5; 3; 7; 5]) * 2)) initial_machine
       = Done (Some t0) m1
       /\ Hash.populate reference_environment (Some t0) [3; 5; 3; 7; 5] m1
          = Done (inr (Some t)) m2
       /\ Hash.count t = Z.of_nat (length (remove_dups [3; 5; 3; 7; 5]))
       /\ entries t ≡ₚ remove_dups [3; 5; 3; 7; 5]
       /\ (forall v, Hash.hash_table_contains (Some t) v
                     = bool_decide (v ∈ [3; 5; 3; 7; 5]))
       /\ allocations m2
          = (allocations m1 + length (remove_dups [3; 5; 3; 7; 5]))%nat.
Proof.
  assert (H1 : allocations_succeed reference_environment) by (intros n; reflexivity).
  assert (H2 : Z.of_nat (length [3; 5; 3; 7; 5]) * 2 < 2 ^ 64) by (vm_compute; reflexivity).
  split; [exact H1|]. split; [exact H2|].
  exact (hash_set_ignores_duplicates reference_environment [3; 5; 3; 7; 5]
           initial_machine H1 H2).
Defined.

(** * Further properties: the truncation check *)

(** X16. The truncation check accepts a set closed under truncation: when
    it accepts [v], it accepts every truncation of [v], and the index answers
    true for each truncation that still has a digit. *)
Theorem truncations_pass (contains : Z -> option bool) (v : Z) (j : nat)
    (Hpass : passes contains v = true) :
  passes contains (truncation v j) = true
  /\ (0 < truncation v j -> contains (truncation v j) = Some true).
Proof.
  revert v Hpass. induction j as [|j IH]; intros v Hpass.
  - rewrite truncation_0. split; [assumption|].
    intros Hv. apply passes_step in Hpass; tauto.
  - rewrite truncation_S. apply IH.
    destruct (Z_lt_dec 0 v) as [Hv|Hv].
    + apply passes_step in Hpass; tauto.
    + unfold passes. rewrite truncation_loop_zero; [reflexivity|].
      apply Z.div_le_upper_bound; lia.
Qed.

Lemma truncations_pass_witness :
  passes prime_query 73939133 = true
  /\ passes prime_query (truncation 73939133 3) = true
  /\ (0 < truncation 73939133 3 -> prime_query (truncation 73939133 3) = Some true).
Proof.
  assert (H : passes prime_query 73939133 = true) by (vm_compute; reflexivity).
  split; [exact H|]. exact (truncations_pass prime_query 73939133 3 H).
Defined.

Lemma passes_mono (c1 c2 : Z -> option bool) (v : Z) :
  (forall u, 0 < u -> c1 u = Some true -> c2 u = Some true) ->
  passes c1 v = true -> passes c2 v = true.
Proof.
  intros Himp. revert v. apply (truncation_ind (fun v => _ -> _)).
  - intros v Hv _. unfold passes. rewrite truncation_loop_zero by assumption. reflexivity.
  - intros v Hv IH Hpass. apply passes_step in Hpass as [Hc Hrest]; [|assumption].
    apply passes_step; [assumption|]. split; [apply Himp; assumption|apply IH; assumption].
Qed.

Lemma rt_primes_bounded :
  forallb (fun k => forallb (fun v => v <=? 73939133) (rt_primes k)) (seq 1 8) = true.
Proof. vm_compute. reflexivity. Qed.

Lemma passes_prime_query_bounded (v : Z) :
  0 < v -> passes prime_query v = true -> v <= 73939133.
Proof.
  intros Hv Hpass.
  destruct (count_digits_loop_spec v 0 Hv) as (d & _ & Hd & Hr).
  assert (Hin : v ∈ rt_primes (S (Z.to_nat (d - 1)))).
  { apply rt_primes_spec. rewrite Z2Nat.id by lia.
    replace (d - 1 + 1) with d by lia. split; assumption. }
  destruct (Nat.le_gt_cases 9 (S (Z.to_nat (d - 1)))) as [Hbig|Hsmall].
  - rewrite rt_primes_none in Hin by assumption. inversion Hin.
  - pose proof rt_primes_bounded as Hb. rewrite forallb_forall in Hb.
    specialize (Hb (S (Z.to_nat (d - 1)))).
    rewrite forallb_forall in Hb.
    apply Z.leb_le. apply Hb.
    + apply in_seq. lia.
    + apply list_elem_of_In. assumption.
Qed.

(** X17. 73939133 is the largest number the truncation check can accept:
    against an index that answers primality below [10^8] and reports no
    composite number above, the check accepts 73939133 and rejects every
    larger candidate. *)
Theorem largest_right_truncatable (contains : Z -> option bool) (v : Z)
    (Hexact : forall u, 0 < u < 10 ^ 8 -> contains u = Some (is_prime u))
    (Hsound : forall u, 10 ^ 8 <= u -> contains u = Some true -> Z.prime u)
    (Hv : 73939133 < v) :
  passes contains 73939133 = true /\ passes contains v = false.
Proof.
  split.
  - rewrite (passes_ext contains prime_query).
    + vm_compute. reflexivity.
    + intros u Hu. apply Hexact.
      change (10 ^ 8) with 100000000. lia.
  - apply not_true_is_false. intros Hpass.
    apply (passes_mono contains prime_query) in Hpass.
    + apply passes_prime_query_bounded in Hpass; lia.
    + intros u Hu Hc. unfold prime_query. f_equal.
      destruct (Z_lt_dec u (10 ^ 8)) as [Hsmall|Hbig].
      * rewrite Hexact in Hc by lia. injection Hc as Hc. exact Hc.
      * apply is_prime_spec, Hsound; [lia|assumption].
Qed.

Lemma largest_right_truncatable_witness :
  (forall u, 0 < u < 10 ^ 8 -> prime_query u = Some (is_prime u))
  /\ (forall u, 10 ^ 8 <= u -> prime_query u = Some true -> Z.prime u)
  /\ 73939133 < 73939139
  /\ passes prime_query 73939133 = true /\ passes prime_query 73939139 = false.
Proof.
  assert (H1 : forall u, 0 < u < 10 ^ 8 -> prime_query u = Some (is_prime u))
    by (intros u _; reflexivity).
  assert (H2 : forall u, 10 ^ 8 <= u -> prime_query u = Some true -> Z.prime u).
  { intros u _ H. injection H as H. apply is_prime_spec. exact H. }
  assert (H3 : 73939133 < 73939139) by lia.
  split; [exact H1|]. split; [exact H2|]. split; [exact H3|].
  exact (largest_right_truncatable prime_query 73939139 H1 H2 H3).
Defined.

(** * Further properties: the drivers *)

Lemma generator_calls_app (l1 l2 : list event) :
  generator_calls (l1 ++ l2) = (generator_calls l1 + generator_calls l2)%nat.
Proof. unfold generator_calls. rewrite List.filter_app, length_app. reflexivity. Qed.

Lemma generator_calls_generate (f : Z -> Z) (l : list Z) :
  generator_calls ((fun k => Generate 2 (f k)) <$> l) = length l.
Proof. induction l as [|x l IH]; [reflexivity|]. cbn. f_equal. exact IH. Qed.

Lemma generator_calls_stdout (f : Z -> string) (l : list Z) :
  generator_calls ((fun k => Stdout (f k)) <$> l) = O.
Proof. induction l as [|x l IH]; [reflexivity|exact IH]. Qed.

(** X18. On a valid digit bound [D] the C program calls the prime source
    [D + 1] times (once for the count of length [D], once more for each
    length of the total), the C++ program once. *)
Theorem generator_call_counts (env : environment) (argv : list string) (D : Z)
    (m : machine)
    (Hgen : generator_contract env)
    (Halloc : allocations_succeed env)
    (Hargv : length argv = 2%nat /\ atoi env (nth 1 argv ""%string) = D)
    (HD : 1 <= D <= 19) :
  exists mh mb,
    Hash.main env argv m = Done 0 mh
    /\ generator_calls (output mh) = (generator_calls (output m) + Z.to_nat D + 1)%nat
    /\ Bitset.main env argv m = Done 0 mb
    /\ generator_calls (output mb) = (generator_calls (output m) + 1)%nat.
Proof.
  destruct Hargv as [Hlen Hatoi].
  destruct (hash_main_spec env argv D m Hgen Halloc Hlen Hatoi HD) as (mh & Hh & Hout).
  eexists mh, _. split; [exact Hh|]. split; [|split; [exact (bitset_main_spec env argv D m Hgen Hlen Hatoi HD)|]].
  - rewrite Hout. unfold hash_report. rewrite !generator_calls_app.
    rewrite (generator_calls_generate (fun k => 10 ^ k - 1)), length_seqZ.
    cbn. lia.
  - cbn [output allocations].
    unfold bitset_report, bitset_count_lines. rewrite !generator_calls_app.
    rewrite (generator_calls_stdout
               (fun k => Bitset.count_line k (rt_count k) (prime_count D k))).
    cbn. lia.
Qed.

Lemma generator_call_counts_witness :
  generator_contract reference_environment
  /\ allocations_succeed reference_environment
  /\ (length ["count_primes"; "8"]%string = 2%nat
      /\ atoi reference_environment (nth 1 ["count_primes"; "8"]%string ""%string) = 8)
  /\ 1 <= 8 <= 19
  /\ exists mh mb,
       Hash.main reference_environment ["count_primes"; "8"]%string initial_machine
       = Done 0 mh
       /\ generator_calls (output mh)
          = (generator_calls (output initial_machine) + Z.to_nat 8 + 1)%nat
       /\ Bitset.main reference_environment ["count_primes"; "8"]%string initial_machine
          = Done 0 mb
       /\ generator_calls (output mb)
          = (generator_calls (output initial_machine) + 1)%nat.
Proof.
  assert (H1 : generator_contract reference_environment) by (intros a b; reflexivity).
  assert (H2 : allocations_succeed reference_environment) by (intros n; reflexivity).
  assert (H3 : length ["count_primes"; "8"]%string = 2%nat
               /\ atoi reference_environment (nth 1 ["count_primes"; "8"]%string ""%string) = 8)
    by (split; reflexivity).
  assert (H4 : 1 <= 8 <= 19) by lia.
  split; [exact H1|]. split; [exact H2|]. split; [exact H3|]. split; [exact H4|].
  exact (generator_call_counts reference_environment ["count_primes"; "8"]%string 8
           initial_machine H1 H2 H3 H4).
Defined.

(** X19. No right-truncatable prime has more than eight digits: for a
    digit bound [D] from 8 to 19 both programs print the total 83, the C
    counting function returns 0 for every length from 9 on, and the C++
    program prints the count 0 for every such length up to [D]. *)
Theorem nothing_beyond_eight_digits (env : environment) (argv : list string)
    (D k : Z) (m : machine)
    (Hgen : generator_contract env)
    (Halloc : allocations_succeed env)
    (Hargv : length argv = 2%nat /\ atoi env (nth 1 argv ""%string) = D)
    (HD : 8 <= D <= 19)
    (Hk : 9 <= k <= 19) :
  (exists m1, Hash.count_right_trunc_primes env k m = Done 0 m1)
  /\ (exists mh, Hash.main env argv m = Done 0 mh
        /\ last (output mh) = Some (Stdout (Hash.total_line D 83)))
  /\ (exists mb, Bitset.main env argv m = Done 0 mb
        /\ Stdout (Bitset.total_line D 83
                     (Z.of_nat (length (primes_between 2 (10 ^ D - 1))))) ∈ output mb
        /\ (k <= D ->
            Stdout (Bitset.count_line k 0 (prime_count D k)) ∈ output mb)).
Proof.
  destruct Hargv as [Hlen Hatoi].
  assert (Htotal : rt_total D = 83).
  { rewrite rt_total_from_8 by lia. apply rt_total_values. }
  split; [|split].
  - destruct (hash_count_right_trunc_primes_spec env k m Hgen Halloc ltac:(lia))
      as (m1 & Hrun & _).
    rewrite rt_count_none in Hrun by lia. eauto.
  - destruct (hash_main_spec env argv D m Hgen Halloc Hlen Hatoi ltac:(lia))
      as (mh & Hrun & Hout).
    exists mh. split; [assumption|]. rewrite Hout. unfold hash_report.
    rewrite Htotal, !app_assoc. apply last_snoc.
  - rewrite (bitset_main_spec env argv D m) by (assumption || lia).
    eexists. split; [reflexivity|]. cbn [output]. unfold bitset_report.
    rewrite Htotal. split.
    + rewrite !elem_of_app. right. right. right. left.
    + intros HkD. rewrite !elem_of_app. right. right. left.
      unfold bitset_count_lines. rewrite <- (rt_count_none k) by lia.
      apply (list_elem_of_fmap_2
               (fun k => Stdout (Bitset.count_line k (rt_count k) (prime_count D k)))).
      rewrite elem_of_reverse, elem_of_seqZ. lia.
Qed.

Lemma nothing_beyond_eight_digits_witness :
  generator_contract reference_environment
  /\ allocations_succeed reference_environment
  /\ (length ["count_primes"; "12"]%string = 2%nat
      /\ atoi reference_environment (nth 1 ["count_primes"; "12"]%string ""%string) = 12)
  /\ 8 <= 12 <= 19
  /\ 9 <= 10 <= 19
  /\ (exists m1,
        Hash.count_right_trunc_primes reference_environment 10 initial_machine
        = Done 0 m1)
  /\ (exists mh,
        Hash.main reference_environment ["count_primes"; "12"]%string initial_machine
        = Done 0 mh
        /\ last (output mh) = Some (Stdout (Hash.total_line 12 83)))
  /\ (exists mb,
        Bitset.main reference_environment ["count_primes"; "12"]%string initial_machine
        = Done 0 mb
        /\ Stdout (Bitset.total_line 12 83
                     (Z.of_nat (length (primes_between 2 (10 ^ 12 - 1))))) ∈ output mb
        /\ (10 <= 12 ->
            Stdout (Bitset.count_line 10 0 (prime_count 12 10)) ∈ output mb)).
Proof.
  assert (H1 : generator_contract reference_environment) by (intros a b; reflexivity).
  assert (H2 : allocations_succeed reference_environment) by (intros n; reflexivity).
  assert (H3 : length ["count_primes"; "12"]%string = 2%nat
               /\ atoi reference_environment (nth 1 ["count_primes"; "12"]%string ""%string) = 12)
    by (split; reflexivity).
  assert (H4 : 8 <= 12 <= 19) by lia.
  assert (H5 : 9 <= 10 <= 19) by lia.
  split; [exact H1|]. split; [exact H2|]. split; [exact H3|].
  split; [exact H4|]. split; [exact H5|].
  exact (nothing_beyond_eight_digits reference_environment
           ["count_primes"; "12"]%string 12 10 initial_machine H1 H2 H3 H4 H5).
Defined.

(** * Further properties: the C program under allocation failures *)

(** A successful step does what it does when no allocation fails. *)
Lemma hash_table_add_sim (env : environment) (ht ht' : option Hash.hash_table_t)
    (v : Z) (m m' : machine) :
  Hash.hash_table_add env ht v m = Done (true, ht') m' ->
  Hash.hash_table_add (with_memory env) ht v m = Done (true, ht') m'.
Proof.
  unfold Hash.hash_table_add, bind, allocate, emit, ret.
  destruct ht as [t|]; [|discriminate]. cbv zeta.
  destruct (Hash.chain_search _ v); [trivial|].
  cbn [malloc_ok with_memory negb].
  destruct (malloc_ok env (allocations m)); cbn [negb]; [trivial|discriminate].
Qed.

Lemma hash_populate_sim (env : environment) (primes : list Z) :
  forall (ht ht' : option Hash.hash_table_t) (m m' : machine),
  Hash.populate env ht primes m = Done (inr ht') m' ->
  Hash.populate (with_memory env) ht primes m = Done (inr ht') m'.
Proof.
  induction primes as [|p rest IH]; intros ht ht' m m'; cbn [Hash.populate];
    [trivial|].
  unfold bind.
  destruct (Hash.hash_table_add env ht p m) as [|[added ht1] m1] eqn:Hadd;
    [discriminate|].
  destruct added; cbn [negb].
  - rewrite (hash_table_add_sim env ht ht1 p m m1 Hadd). cbn [negb]. apply IH.
  - unfold ret. discriminate.
Qed.

Lemma hash_table_create_sim (env : environment) (table_size : Z) (t : Hash.hash_table_t)
    (m m' : machine) :
  Hash.hash_table_create env table_size m = Done (Some t) m' ->
  Hash.hash_table_create (with_memory env) table_size m = Done (Some t) m'.
Proof.
  unfold Hash.hash_table_create, bind, allocate, emit, ret.
  cbn [malloc_ok with_memory negb allocations].
  destruct (malloc_ok env (allocations m)); cbn [negb allocations]; [|discriminate].
  destruct (malloc_ok env (S (allocations m))); cbn [negb]; [trivial|discriminate].
Qed.

(** The steps of the C counting function write nothing to the standard
    output. *)
Lemma hash_populate_quiet (env : environment) (primes : list Z) :
  forall (ht : option Hash.hash_table_t) (m : machine),
  exists r m' l,
    Hash.populate env ht primes m = Done r m'
    /\ output m' = output m ++ l
    /\ Forall (fun e => is_stdout e = false) l.
Proof.
  induction primes as [|p rest IH]; intros ht m; cbn [Hash.populate].
  - exists (inr ht), m, []. rewrite app_nil_r. repeat split. constructor.
  - unfold bind at 1.
    assert (Hadd : exists added ht' m1 l,
               Hash.hash_table_add env ht p m = Done (added, ht') m1
               /\ output m1 = output m ++ l
               /\ Forall (fun e => is_stdout e = false) l).
    { unfold Hash.hash_table_add, bind, allocate, emit, ret.
      destruct ht as [t|].
      2: { exists false, None, m, []. rewrite app_nil_r. repeat split. constructor. }
      cbv zeta. destruct (Hash.chain_search _ p).
      - exists true, (Some t), m, []. rewrite app_nil_r. repeat split. constructor.
      - destruct (malloc_ok env (allocations m)); cbn [negb].
        + eexists true, _, _, []. split; [reflexivity|]. cbn [output].
          rewrite app_nil_r. split; [reflexivity|constructor].
        + eexists false, _, _, _. split; [reflexivity|]. split; [reflexivity|].
          repeat constructor. }
    destruct Hadd as (added & ht' & m1 & l1 & -> & Hout1 & Hq1).
    destruct added; cbn [negb].
    + destruct (IH ht' m1) as (r & m' & l & Hrun & Hout & Hq).
      exists r, m', (l1 ++ l). split; [assumption|].
      split; [rewrite Hout, Hout1, app_assoc; reflexivity|].
      apply Forall_app. split; assumption.
    + exists (inl p), m1, l1. split; [reflexivity|]. split; assumption.
Qed.

Lemma hash_count_quiet (env : environment) (digits : Z) (m : machine) :
  exists count m' l,
    Hash.count_right_trunc_primes env digits m = Done count m'
    /\ output m' = output m ++ l
    /\ Forall (fun e => is_stdout e = false) l.
Proof.
  unfold Hash.count_right_trunc_primes.
  destruct ((digits <? 1) || (19 <? digits)).
  { unfold bind, emit, ret. eexists _, _, _. split; [reflexivity|].
    split; [reflexivity|repeat constructor]. }
  cbv zeta. unfold bind at 1. unfold emit at 1.
  destruct (primesieve_generate_primes env 2 _) as [arr|].
  2: { unfold bind, emit, ret. cbn [output]. eexists _, _, _.
       split; [reflexivity|]. cbn [output]. rewrite <- app_assoc.
       split; [reflexivity|repeat constructor]. }
  unfold bind at 1.
  set (m1 := {| allocations := allocations m; output := output m ++ _ |}).
  set (table_size := if Z.of_nat (length arr) =? 0 then 17 else _).
  assert (Hm1 : output m1 = output m ++ [Generate 2 (wrap64 (power_of_10 digits - 1))])
    by reflexivity.
  assert (Hcreate : exists ht m2 l, Hash.hash_table_create env table_size m1 = Done ht m2
                                    /\ output m2 = output m1 ++ l
                                    /\ Forall (fun e => is_stdout e = false) l).
  { unfold Hash.hash_table_create, bind, allocate, emit, ret.
    destruct (malloc_ok env (allocations m1)); cbn [negb allocations output].
    - destruct (malloc_ok env (S (allocations m1))); cbn [negb allocations output].
      + eexists _, _, []. split; [reflexivity|]. cbn [output]. rewrite app_nil_r.
        split; [reflexivity|constructor].
      + eexists _, _, _. split; [reflexivity|]. split; [reflexivity|repeat constructor].
    - eexists _, _, _. split; [reflexivity|]. split; [reflexivity|repeat constructor]. }
  destruct Hcreate as (ht & m2 & l2 & -> & Hout2 & Hq2).
  destruct ht as [t|].
  2: { unfold bind, emit, ret. eexists _, _, _. split; [reflexivity|].
       cbn [output]. rewrite Hout2, Hm1, <- !app_assoc. split; [reflexivity|].
       constructor; [reflexivity|]. apply Forall_app. split; [assumption|].
       repeat constructor. }
  unfold bind at 1.
  destruct (hash_populate_quiet env arr (Some t) m2) as (r & m3 & l3 & -> & Hout3 & Hq3).
  destruct r as [p|ht].
  - unfold bind, emit, ret. eexists _, _, _. split; [reflexivity|].
    cbn [output]. rewrite Hout3, Hout2, Hm1, <- !app_assoc. split; [reflexivity|].
    constructor; [reflexivity|]. apply Forall_app. split; [assumption|].
    apply Forall_app. split; [assumption|]. repeat constructor.
  - destruct (hash_scan_total ht (power_of_10 (digits - 1))
                (wrap64 (power_of_10 digits - 1)) arr 0 m3) as [c ->].
    eexists _, _, _. split; [reflexivity|].
    rewrite Hout3, Hout2, Hm1, <- !app_assoc. split; [reflexivity|].
    constructor; [reflexivity|]. apply Forall_app. split; assumption.
Qed.

(** A call that does not return -1 is the call with a faultless allocator. *)
Lemma hash_count_sim (env : environment) (digits : Z) (m m' : machine) (count : Z) :
  Hash.count_right_trunc_primes env digits m = Done count m' ->
  count = -1
  \/ Hash.count_right_trunc_primes (with_memory env) digits m = Done count m'.
Proof.
  unfold Hash.count_right_trunc_primes.
  destruct ((digits <? 1) || (19 <? digits)).
  { unfold bind, emit, ret. intros H. injection H as <- _. left. reflexivity. }
  cbv zeta. unfold bind, emit.
  change (primesieve_generate_primes (with_memory env))
    with (primesieve_generate_primes env).
  destruct (primesieve_generate_primes env 2 _) as [arr|].
  2: { unfold ret. intros H. injection H as <- _. left. reflexivity. }
  destruct (Hash.hash_table_create env _ _) as [|[t|] m2] eqn:Hcreate.
  - discriminate.
  - rewrite (hash_table_create_sim env _ t _ m2 Hcreate).
    destruct (Hash.populate env (Some t) arr m2) as [|[p|ht] m3] eqn:Hpop.
    + discriminate.
    + unfold ret. intros H. injection H as <- _. left. reflexivity.
    + rewrite (hash_populate_sim env arr (Some t) ht m2 m3 Hpop).
      intros H. right. exact H.
  - unfold ret. intros H. injection H as <- _. left. reflexivity.
Qed.

Lemma generator_contract_with_memory (env : environment) :
  generator_contract env ->
  generator_contract (with_memory env) /\ allocations_succeed (with_memory env).
Proof. intros Hgen. split; [exact Hgen|intros n; reflexivity]. Qed.

(** With the prime source keeping its contract, the counting function
    returns the right count or -1, whatever the allocator does. *)
Lemma hash_count_outcome (env : environment) (digits : Z) (m : machine) :
  generator_contract env ->
  1 <= digits <= 19 ->
  exists count m' l,
    Hash.count_right_trunc_primes env digits m = Done count m'
    /\ output m' = output m ++ l
    /\ Forall (fun e => is_stdout e = false) l
    /\ (count = -1
        \/ (count = rt_count digits /\ l = [Generate 2 (10 ^ digits - 1)])).
Proof.
  intros Hgen Hd.
  destruct (hash_count_quiet env digits m) as (c & m' & l & Hrun & Hout & Hq).
  exists c, m', l. split; [assumption|]. split; [assumption|]. split; [assumption|].
  destruct (hash_count_sim env digits m m' c Hrun) as [Hfail|Hsim];
    [left; assumption|right].
  destruct (generator_contract_with_memory env Hgen) as [Hgen' Halloc'].
  destruct (hash_count_right_trunc_primes_spec (with_memory env) digits m Hgen' Halloc' Hd)
    as (m'' & Hspec & Hout').
  rewrite Hspec in Hsim. injection Hsim as <- <-.
  split; [reflexivity|]. rewrite Hout in Hout'. apply app_inv_head in Hout'.
  assumption.
Qed.

Lemma hash_sum_counts_outcome (env : environment) :
  generator_contract env ->
  forall (iterations : nat) (i total_count : Z) (m : machine),
  1 <= i -> i + Z.of_nat iterations <= 20 ->
  0 <= total_count -> total_count + 16 * Z.of_nat iterations < 2 ^ 64 ->
  exists r m' l,
    Hash.sum_counts env iterations i total_count m = Done r m'
    /\ output m' = output m ++ l
    /\ Forall (fun e => is_stdout e = false) l
    /\ ((r = Some (total_count
                    + foldr Z.add 0 (rt_count <$> seqZ i (Z.of_nat iterations)))
         /\ l = (fun k => Generate 2 (10 ^ k - 1)) <$> seqZ i (Z.of_nat iterations))
        \/ (r = None /\ exists l' message, l = l' ++ [Stderr message])).
Proof.
  intros Hgen. induction iterations as [|n IH]; intros i total m Hi Hn Ht Hb.
  - exists (Some total), m, []. cbn. rewrite Z.add_0_r, app_nil_r.
    split; [reflexivity|]. split; [reflexivity|]. split; [constructor|].
    left. split; reflexivity.
  - cbn [Hash.sum_counts]. unfold bind at 1.
    destruct (hash_count_outcome env i m Hgen ltac:(lia))
      as (c & m1 & l1 & -> & Hout1 & Hq1 & Hc).
    destruct Hc as [->|[-> ->]].
    + change (-1 <? 0) with true. cbv iota.
      unfold bind, emit, ret. eexists None, _, _. split; [reflexivity|].
      cbn [output]. rewrite Hout1, <- app_assoc. split; [reflexivity|].
      split; [apply Forall_app; split; [assumption|repeat constructor]|].
      right. split; [reflexivity|]. eexists _, _. reflexivity.
    + pose proof (rt_count_bound i ltac:(lia)) as Hc.
      destruct (Z.ltb_spec (rt_count i) 0); [lia|].
      rewrite wrap64_small by lia.
      destruct (IH (i + 1) (total + rt_count i) m1)
        as (r & m2 & l2 & -> & Hout2 & Hq2 & Hr); try lia.
      exists r, m2, ([Generate 2 (10 ^ i - 1)] ++ l2).
      split; [reflexivity|].
      split; [rewrite Hout2, Hout1, <- app_assoc; reflexivity|].
      split; [apply Forall_app; split; assumption|].
      destruct Hr as [[-> ->]|[-> (l' & msg & ->)]].
      * left. rewrite (rt_total_first i (Z.of_nat (S n))) by lia.
        rewrite (seqZ_cons i (Z.of_nat (S n))) by lia.
        replace (Z.pred (Z.of_nat (S n))) with (Z.of_nat n) by lia.
        replace (Z.of_nat (S n) - 1) with (Z.of_nat n) by lia.
        split; [f_equal; lia|reflexivity].
      * right. split; [reflexivity|].
        exists ([Generate 2 (10 ^ i - 1)] ++ l'), msg. rewrite <- app_assoc. reflexivity.
Qed.

Lemma stdout_not_quiet (l : list event) (text : string) :
  Forall (fun e => is_stdout e = false) l -> Stdout text ∈ l -> False.
Proof.
  intros Hq Hin. rewrite Forall_forall in Hq. specialize (Hq _ Hin). discriminate.
Qed.

(** X20. Allocation failures never make the C program misreport: with the
    prime source keeping its contract and whatever the allocator does, [main]
    returns with status 0 or 1.  With status 0 its output is the complete
    report; with status 1 the last thing it has written is a message on the
    error stream, and a line on the standard output, if any, is the correct
    count line. *)
Theorem hash_main_never_misreports (env : environment) (argv : list string) (D : Z)
    (m : machine)
    (Hgen : generator_contract env)
    (Hatoi : atoi env (nth 1 argv ""%string) = D) :
  exists code m' l,
    Hash.main env argv m = Done code m'
    /\ output m' = output m ++ l
    /\ ((code = 0 /\ length argv = 2%nat /\ 1 <= D <= 19 /\ l = hash_report D)
        \/ (code = 1
            /\ (exists l' message, l = l' ++ [Stderr message])
            /\ (forall text, Stdout text ∈ l ->
                  text = Hash.count_line D (rt_count D)))).
Proof.
  unfold Hash.main. rewrite Hatoi.
  destruct (Z.eqb_spec (Z.of_nat (length argv)) 2) as [Hargc|Hargc]; cbn [negb].
  2: { unfold bind, emit, ret. eexists _, _, _. split; [reflexivity|].
       split; [reflexivity|]. right. split; [reflexivity|].
       split; [exists [], (usage (nth 0 argv ""%string)); reflexivity|].
       intros text Hin. apply list_elem_of_singleton in Hin. discriminate. }
  destruct (Z.ltb_spec D 1) as [|H1]; cbn [orb].
  { unfold bind, emit, ret. eexists _, _, _. split; [reflexivity|].
    split; [reflexivity|]. right. split; [reflexivity|].
    split; [exists [], digits_range_error; reflexivity|].
    intros text Hin. apply list_elem_of_singleton in Hin. discriminate. }
  destruct (Z.ltb_spec 19 D) as [|H19].
  { unfold bind, emit, ret. eexists _, _, _. split; [reflexivity|].
    split; [reflexivity|]. right. split; [reflexivity|].
    split; [exists [], digits_range_error; reflexivity|].
    intros text Hin. apply list_elem_of_singleton in Hin. discriminate. }
  unfold bind at 1.
  destruct (hash_count_outcome env D m Hgen ltac:(lia))
    as (c & m1 & l1 & -> & Hout1 & Hq1 & Hc).
  destruct Hc as [->|[-> ->]].
  { change (-1 <? 0) with true. cbv iota.
    unfold bind, emit, ret. eexists _, _, _. split; [reflexivity|].
    cbn [output]. rewrite Hout1, <- app_assoc. split; [reflexivity|].
    right. split; [reflexivity|]. split; [eexists _, _; reflexivity|].
    intros text Hin. apply elem_of_app in Hin as [Hin|Hin].
    - destruct (stdout_not_quiet _ _ Hq1 Hin).
    - apply list_elem_of_singleton in Hin. discriminate. }
  pose proof (rt_count_bound D ltac:(lia)) as Hc.
  destruct (Z.ltb_spec (rt_count D) 0); [lia|].
  unfold bind at 1. unfold emit at 1. unfold bind at 1.
  set (m2 := {| allocations := allocations m1;
                output := output m1 ++ [Stdout (Hash.count_line D (rt_count D))] |}).
  destruct (hash_sum_counts_outcome env Hgen (Z.to_nat D) 1 0 m2)
    as (r & m3 & l3 & -> & Hout3 & Hq3 & Hr); try lia.
  assert (Hm2 : output m2
                = output m ++ [Generate 2 (10 ^ D - 1);
                               Stdout (Hash.count_line D (rt_count D))]).
  { unfold m2. cbn [output]. rewrite Hout1, <- app_assoc. reflexivity. }
  destruct Hr as [[-> ->]|[-> (l' & msg & ->)]].
  - unfold bind, emit, ret. eexists _, _, _. split; [reflexivity|].
    cbn [output]. rewrite Hout3, Hm2. rewrite <- !app_assoc.
    split; [reflexivity|]. left. split; [reflexivity|].
    split; [lia|]. split; [lia|].
    unfold hash_report, rt_total. rewrite Z2Nat.id, Z.add_0_l by lia. reflexivity.
  - unfold ret. eexists _, _, _. split; [reflexivity|].
    rewrite Hout3, Hm2, <- !app_assoc. split; [reflexivity|].
    right. split; [reflexivity|]. split.
    + eexists (_ :: _ :: l'), msg. reflexivity.
    + intros text Hin. cbn [app] in Hin.
      apply elem_of_cons in Hin as [Hin|Hin]; [discriminate|].
      apply elem_of_cons in Hin as [Hin|Hin]; [congruence|].
      destruct (stdout_not_quiet _ _ Hq3 Hin).
Qed.

Lemma hash_main_never_misreports_witness :
  generator_contract (short_of_memory 30)
  /\ atoi (short_of_memory 30) (nth 1 ["count_primes"; "2"]%string ""%string) = 2
  /\ exists code m' l,
       Hash.main (short_of_memory 30) ["count_primes"; "2"]%string initial_machine
       = Done code m'
       /\ output m' = output initial_machine ++ l
       /\ ((code = 0 /\ length ["count_primes"; "2"]%string = 2%nat
            /\ 1 <= 2 <= 19 /\ l = hash_report 2)
           \/ (code = 1
               /\ (exists l' message, l = l' ++ [Stderr message])
               /\ (forall text, Stdout text ∈ l ->
                     text = Hash.count_line 2 (rt_count 2)))).
Proof.
  assert (H1 : generator_contract (short_of_memory 30)) by (intros a b; reflexivity).
  assert (H2 : atoi (short_of_memory 30) (nth 1 ["count_primes"; "2"]%string ""%string) = 2)
    by reflexivity.
  split; [exact H1|]. split; [exact H2|].
  exact (hash_main_never_misreports (short_of_memory 30) ["count_primes"; "2"]%string 2
           initial_machine H1 H2).
Defined.

(** With thirty blocks the count of length 2 is printed, and the total
    fails while the table for length 1 is filled. *)
Example run_out_of_memory_late :
  exists m',
    run (Hash.main (short_of_memory 30) ["count_primes"; "2"]%string) = Done 1 m'
    /\ List.filter is_stdout (output m') = [Stdout (Hash.count_line 2 9)].
Proof. eexists. split; vm_compute; reflexivity. Qed.

(** * Further properties: memory safety of the C++ program *)

Lemma window_length_split (a b c : Z) (arr : list Z) :
  a <= b <= c + 1 ->
  (length (window a (b - 1) arr) + length (window b c arr))%nat
  = length (window a c arr).
Proof.
  intros Habc. unfold window. induction arr as [|p arr IH]; [reflexivity|].
  rewrite !filter_cons. repeat case_decide; cbn [length]; lia.
Qed.

Lemma bitset_scan_result (prime_bitset : list bool) (digits start stop : Z)
    (arr : list Z) :
  0 <= digits ->
  forall (count : Z) (primes_per_digit : list Z) (m : machine),
  digits < Z.of_nat (length primes_per_digit) ->
  exists count' primes_per_digit',
    Bitset.for_each_in_window (Bitset.check_candidate prime_bitset digits)
      start stop arr (count, primes_per_digit) m
    = Done (count', primes_per_digit') m
    /\ count <= count' <= count + Z.of_nat (length (window start stop arr))
    /\ length primes_per_digit' = length primes_per_digit.
Proof.
  intros Hd. induction arr as [|p rest IH]; intros count ppd m Hlen;
    cbn [Bitset.for_each_in_window].
  - unfold ret. exists count, ppd. split; [reflexivity|]. split; [cbn; lia|reflexivity].
  - unfold window in *. rewrite filter_cons.
    destruct (Z.ltb_spec p start) as [Hlow|Hlow].
    { rewrite decide_False by lia. apply IH. assumption. }
    destruct (Z.ltb_spec stop p) as [Hhigh|Hhigh].
    { unfold ret. exists count, ppd. split; [reflexivity|]. split; [lia|reflexivity]. }
    rewrite decide_True by lia. cbn [length].
    unfold bind at 1. unfold Bitset.check_candidate, bind.
    destruct (vector_get_Some ppd digits ltac:(lia)) as [n ->].
    cbn [lift]. unfold ret at 1. rewrite vector_set_Some by lia.
    cbn [lift]. unfold ret at 1.
    destruct (truncation_loop_total (Bitset.bitset_contains prime_bitset) p) as [q ->].
    { intros u Hu. apply bitset_contains_defined. lia. }
    cbn [lift]. unfold ret at 1 2.
    match goal with
    | |- context [Bitset.for_each_in_window _ _ _ rest (?c, ?pp) m] =>
        destruct (IH c pp m) as (c' & ppd' & Heq & Hc & Hl);
          [rewrite length_insert; assumption|];
          assert (Hcount : count <= c <= count + 1)
            by (destruct (passes (Bitset.bitset_contains prime_bitset) p); lia)
    end.
    exists c', ppd'. split; [exact Heq|]. rewrite length_insert in Hl.
    split; [lia|assumption].
Qed.

Lemma bitset_count_result (arr primes_per_digit : list Z)
    (prime_bitset : list bool) (digits : Z) (m : machine) :
  1 <= digits <= 19 ->
  digits < Z.of_nat (length primes_per_digit) ->
  exists count primes_per_digit',
    Bitset.count_right_trunc_primes arr primes_per_digit prime_bitset digits m
    = Done (count, primes_per_digit') m
    /\ 0 <= count
       <= Z.of_nat (length (window (10 ^ (digits - 1)) (10 ^ digits - 1) arr))
    /\ length primes_per_digit' = length primes_per_digit.
Proof.
  intros Hd Hlen. unfold Bitset.count_right_trunc_primes.
  destruct (Z.ltb_spec digits 1); [lia|]. destruct (Z.ltb_spec 19 digits); [lia|].
  cbn [orb]. rewrite vector_set_Some by lia. unfold bind at 1. cbn [lift]. unfold ret at 1.
  rewrite digits_end_spec, power_of_10_spec by lia.
  destruct (bitset_scan_result prime_bitset digits (10 ^ (digits - 1))
              (10 ^ digits - 1) arr ltac:(lia) 0
              (<[Z.to_nat digits := 0]> primes_per_digit) m)
    as (c & ppd' & -> & Hc & Hl); [rewrite length_insert; assumption|].
  rewrite length_insert in Hl. exists c, ppd'.
  split; [reflexivity|]. split; [lia|assumption].
Qed.

Lemma bitset_report_counts_result (arr : list Z) (prime_bitset : list bool) (i : nat) :
  forall (primes_per_digit : list Z) (total_count : Z) (m : machine),
  Z.of_nat i <= 19 ->
  Z.of_nat i < Z.of_nat (length primes_per_digit) ->
  exists total l,
    Bitset.report_counts arr prime_bitset i primes_per_digit total_count m
    = Done (Some total) {| allocations := allocations m; output := output m ++ l |}
    /\ total_count <= total
       <= total_count + Z.of_nat (length (window 1 (10 ^ Z.of_nat i - 1) arr))
    /\ length l = i
    /\ Forall (fun e => exists text, e = Stdout text) l.
Proof.
  induction i as [|i IH]; intros ppd total m Hi Hlen.
  - cbn [Bitset.report_counts]. unfold ret. exists total, []. rewrite app_nil_r.
    split; [destruct m; reflexivity|]. split; [lia|]. split; [reflexivity|constructor].
  - cbn [Bitset.report_counts]. unfold bind at 1.
    destruct (bitset_count_result arr ppd prime_bitset (Z.of_nat (S i)) m)
      as (c & ppd' & -> & Hc & Hl); [lia|lia|].
    destruct (Z.ltb_spec c 0); [lia|].
    unfold bind at 1.
    destruct (vector_get_Some ppd' (Z.of_nat (S i)) ltac:(lia)) as [n ->].
    cbn [lift]. unfold ret at 1. unfold bind at 1. unfold emit at 1.
    destruct (IH ppd' (total + c)
                {| allocations := allocations m;
                   output := output m ++ [Stdout (Bitset.count_line (Z.of_nat (S i)) c n)] |})
      as (total' & l & -> & Ht & Hll & Hall); [lia|lia|].
    cbn [allocations output].
    exists total', (Stdout (Bitset.count_line (Z.of_nat (S i)) c n) :: l).
    split; [rewrite <- app_assoc; reflexivity|].
    split; [|split; [cbn; lia|constructor; [eauto|assumption]]].
    replace (Z.of_nat (S i) - 1) with (Z.of_nat i) in Hc by lia.
    pose proof (pow10_pos (Z.of_nat i) ltac:(lia)) as Hp.
    assert (Hs : 10 ^ Z.of_nat (S i) = 10 * 10 ^ Z.of_nat i).
    { replace (Z.of_nat (S i)) with (Z.of_nat i + 1) by lia. apply pow10_succ. lia. }
    pose proof (window_length_split 1 (10 ^ Z.of_nat i) (10 ^ Z.of_nat (S i) - 1) arr
                  ltac:(lia)) as Hsplit.
    lia.
Qed.

(** X21. For a valid digit bound [D] and whatever array the prime source
    returns, as long as its values lie in [[0, 10^D - 1]] and there are fewer
    than [2^31] of them, the C++ [main] performs no access outside its vectors
    and its [int] total stays in range: it exits with status 0 after one count
    line per digit length, the total line and the three timing lines. *)
Theorem bitset_main_defined (env : environment) (argv : list string) (D : Z)
    (m : machine) (all_primes_array : list Z)
    (Hargv : length argv = 2%nat /\ atoi env (nth 1 argv ""%string) = D)
    (HD : 1 <= D <= 19)
    (Hgen : primesieve_generate_primes env 2 (10 ^ D - 1) = Some all_primes_array)
    (Hrange : Forall (fun p => 0 <= p <= 10 ^ D - 1) all_primes_array)
    (Hshort : Z.of_nat (length all_primes_array) < 2 ^ 31) :
  exists total_count count_lines m',
    Bitset.main env argv m = Done 0 m'
    /\ output m'
       = output m
           ++ [Generate 2 (10 ^ D - 1)]
           ++ count_lines
           ++ [Stdout (Bitset.total_line D total_count
                         (Z.of_nat (length all_primes_array)));
               Elapsed "milliseconds"; Elapsed "microseconds";
               Elapsed "nanoseconds"]
    /\ 0 <= total_count < 2 ^ 31
    /\ length count_lines = Z.to_nat D
    /\ Forall (fun e => exists text, e = Stdout text) count_lines.
Proof.
  destruct Hargv as [Hlen Hatoi]. unfold Bitset.main.
  rewrite Hlen, Hatoi. change (negb (Z.of_nat 2 =? 2)) with false. cbv iota.
  destruct (Z.ltb_spec D 1); [lia|]. destruct (Z.ltb_spec 19 D); [lia|]. cbn [orb].
  cbv zeta. rewrite digits_end_spec by lia.
  unfold bind at 1. unfold emit at 1. rewrite Hgen.
  replace (10 ^ D - 1 + 1) with (10 ^ D) by lia.
  pose proof (pow10_pos D ltac:(lia)) as Hpos.
  rewrite wrap64_small by (pose proof (pow10_le_u64 D ltac:(lia)); lia).
  destruct (mark_primes_spec all_primes_array (replicate (Z.to_nat (10 ^ D)) false))
    as (bs & -> & _ & _).
  { intros p Hp. rewrite length_replicate. rewrite Forall_forall in Hrange.
    specialize (Hrange p Hp). lia. }
  unfold bind at 1. cbn [lift]. unfold ret at 1. unfold bind at 1.
  destruct (bitset_report_counts_result all_primes_array bs (Z.to_nat D)
              (replicate (Z.to_nat (D + 1)) 0) 0
              {| allocations := allocations m;
                 output := output m ++ [Generate 2 (10 ^ D - 1)] |})
    as (total & l & -> & Ht & Hl & Hall); [lia|rewrite length_replicate; lia|].
  unfold bind, emit, ret. cbn [allocations output].
  exists total, l. eexists. split; [reflexivity|]. cbn [output].
  split; [rewrite <- !app_assoc; reflexivity|].
  split; [|split; assumption].
  pose proof (length_filter (fun p => 1 <= p <= 10 ^ Z.of_nat (Z.to_nat D) - 1)
                all_primes_array) as Hf.
  unfold window in Ht. lia.
Qed.

Lemma bitset_main_defined_witness :
  (length ["count_primes"; "2"]%string = 2%nat
   /\ atoi {| malloc_ok := fun _ => false;
              primesieve_generate_primes := fun _ _ => Some [97; 4; 4; 0; 31];
              atoi := libc_atoi |}
        (nth 1 ["count_primes"; "2"]%string ""%string) = 2)
  /\ 1 <= 2 <= 19
  /\ primesieve_generate_primes
       {| malloc_ok := fun _ => false;
          primesieve_generate_primes := fun _ _ => Some [97; 4; 4; 0; 31];
          atoi := libc_atoi |} 2 (10 ^ 2 - 1) = Some [97; 4; 4; 0; 31]
  /\ Forall (fun p => 0 <= p <= 10 ^ 2 - 1) [97; 4; 4; 0; 31]
  /\ Z.of_nat (length [97; 4; 4; 0; 31]) < 2 ^ 31
  /\ exists total_count count_lines m',
       Bitset.main {| malloc_ok := fun _ => false;
                      primesieve_generate_primes := fun _ _ => Some [97; 4; 4; 0; 31];
                      atoi := libc_atoi |}
         ["count_primes"; "2"]%string initial_machine
       = Done 0 m'
       /\ output m'
          = output initial_machine
              ++ [Generate 2 (10 ^ 2 - 1)]
              ++ count_lines
              ++ [Stdout (Bitset.total_line 2 total_count
                            (Z.of_nat (length [97; 4; 4; 0; 31])));
                  Elapsed "milliseconds"; Elapsed "microseconds";
                  Elapsed "nanoseconds"]
       /\ 0 <= total_count < 2 ^ 31
       /\ length count_lines = Z.to_nat 2
       /\ Forall (fun e => exists text, e = Stdout text) count_lines.
Proof.
  set (env := {| malloc_ok := fun _ => false;
                 primesieve_generate_primes := fun _ _ => Some [97; 4; 4; 0; 31];
                 atoi := libc_atoi |}).
  assert (H1 : length ["count_primes"; "2"]%string = 2%nat
               /\ atoi env (nth 1 ["count_primes"; "2"]%string ""%string) = 2)
    by (split; reflexivity).
  assert (H2 : 1 <= 2 <= 19) by lia.
  assert (H3 : primesieve_generate_primes env 2 (10 ^ 2 - 1) = Some [97; 4; 4; 0; 31])
    by reflexivity.
  assert (H4 : Forall (fun p => 0 <= p <= 10 ^ 2 - 1) [97; 4; 4; 0; 31])
    by (repeat constructor; vm_compute; discriminate).
  assert (H5 : Z.of_nat (length [97; 4; 4; 0; 31]) < 2 ^ 31) by (vm_compute; reflexivity).
  split; [exact H1|]. split; [exact H2|]. split; [exact H3|]. split; [exact H4|].
  split; [exact H5|].
  exact (bitset_main_defined env ["count_primes"; "2"]%string 2 initial_machine
           [97; 4; 4; 0; 31] H1 H2 H3 H4 H5).
Defined.

(** X22. Both counting functions guard the digit length themselves: called
    with a length outside [[1, 19]] they return -1 after one message on the
    error stream, without calling the prime source, allocating, or touching
    [primes_per_digit]. *)
Theorem counting_functions_guard (env : environment) (digits : Z)
    (all_primes_array primes_per_digit : list Z) (prime_bitset : list bool)
    (m : machine)
    (Hrange : digits < 1 \/ 19 < digits) :
  Hash.count_right_trunc_primes env digits m
  = Done (-1) {| allocations := allocations m;
                 output := output m ++ [Stderr digits_range_error] |}
  /\ Bitset.count_right_trunc_primes all_primes_array primes_per_digit
       prime_bitset digits m
     = Done (-1, primes_per_digit)
         {| allocations := allocations m;
            output := output m ++ [Stderr digits_range_error] |}.
Proof.
  unfold Hash.count_right_trunc_primes, Bitset.count_right_trunc_primes.
  assert (H : (digits <? 1) || (19 <? digits) = true)
    by (apply orb_true_iff; rewrite !Z.ltb_lt; assumption).
  rewrite H. split; reflexivity.
Qed.

Lemma counting_functions_guard_witness :
  (20 < 1 \/ 19 < 20)
  /\ Hash.count_right_trunc_primes reference_environment 20 initial_machine
     = Done (-1) {| allocations := allocations initial_machine;
                    output := output initial_machine ++ [Stderr digits_range_error] |}
  /\ Bitset.count_right_trunc_primes [2; 3; 5; 7] [] sample_bitset 20 initial_machine
     = Done (-1, [])
         {| allocations := allocations initial_machine;
            output := output initial_machine ++ [Stderr digits_range_error] |}.
Proof.
  assert (H : 20 < 1 \/ 19 < 20) by (right; lia).
  split; [exact H|].
  exact (counting_functions_guard reference_environment 20 [2; 3; 5; 7] []
           sample_bitset initial_machine H).
Defined.

(** * Further properties: the cost of the truncation check *)

Lemma truncation_pos_iff (v : Z) (j : nat) :
  0 <= v -> 0 < truncation v j <-> 10 ^ Z.of_nat j <= v.
Proof.
  intros Hv. unfold truncation. pose proof (pow10_pos (Z.of_nat j) ltac:(lia)) as Hp.
  split.
  - intros H. destruct (Z_le_dec (10 ^ Z.of_nat j) v) as [|Hlt]; [assumption|].
    rewrite Z.div_small in H; lia.
  - intros H. apply Z.div_str_pos. lia.
Qed.

(** X23. On a positive candidate the truncation loop asks at most
    [count_digits] queries, and exactly that many when it accepts the
    candidate. *)
Theorem truncation_loop_cost (contains : Z -> option bool) (v : Z)
    (Hv : 0 < v)
    (Hdefined : forall u, 0 < u -> is_Some (contains u)) :
  exists is_r_truncatable queried,
    truncation_loop contains v = Some (is_r_truncatable, queried)
    /\ 1 <= Z.of_nat (length queried) <= Hash.count_digits v
    /\ (is_r_truncatable = true -> Z.of_nat (length queried) = Hash.count_digits v).
Proof.
  destruct (truncation_loop_spec contains v ltac:(lia)) as (r & q & Hloop & _ & Hq & Hpos & Hend);
    [intros; apply Hdefined; lia|].
  exists r, q. split; [assumption|].
  unfold Hash.count_digits. destruct (Z.eqb_spec v 0); [lia|].
  destruct (count_digits_loop_spec v 0 Hv) as (d & -> & Hd & Hlo & Hhi).
  rewrite Z.add_0_l.
  assert (Hne : q <> []).
  { intros ->. rewrite truncation_loop_step in Hloop by assumption.
    destruct (contains v) as [[|]|]; [|discriminate..].
    destruct (truncation_loop contains (v / 10)) as [[? ?]|]; discriminate. }
  assert (Hn : (1 <= length q)%nat) by (destruct q; [contradiction|cbn; lia]).
  assert (Hupper : Z.of_nat (length q) <= d).
  { assert (Hin : truncation v (length q - 1) ∈ q).
    { rewrite Hq at 2. apply list_elem_of_fmap. exists (length q - 1)%nat.
      split; [reflexivity|]. apply elem_of_seq. lia. }
    rewrite Forall_forall in Hpos. apply Hpos in Hin.
    apply truncation_pos_iff in Hin; [|lia].
    destruct (Z_le_dec (Z.of_nat (length q)) d) as [|Hbig]; [assumption|exfalso].
    assert (10 ^ d <= 10 ^ Z.of_nat (length q - 1)) by (apply Z.pow_le_mono_r; lia).
    lia. }
  split; [lia|]. intros ->. destruct Hend as [_ Hzero].
  destruct (Z_le_dec d (Z.of_nat (length q))) as [|Hsmall]; [lia|exfalso].
  assert (Hp : 0 < truncation v (length q)).
  { apply truncation_pos_iff; [lia|].
    assert (10 ^ Z.of_nat (length q) <= 10 ^ (d - 1)) by (apply Z.pow_le_mono_r; lia).
    lia. }
  lia.
Qed.

Lemma truncation_loop_cost_witness :
  0 < 73939133
  /\ (forall u, 0 < u -> is_Some (prime_query u))
  /\ exists is_r_truncatable queried,
       truncation_loop prime_query 73939133 = Some (is_r_truncatable, queried)
       /\ 1 <= Z.of_nat (length queried) <= Hash.count_digits 73939133
       /\ (is_r_truncatable = true
           -> Z.of_nat (length queried) = Hash.count_digits 73939133).
Proof.
  assert (H1 : 0 < 73939133) by lia.
  assert (H2 : forall u, 0 < u -> is_Some (prime_query u)) by (intros u _; eexists; reflexivity).
  split; [exact H1|]. split; [exact H2|].
  exact (truncation_loop_cost prime_query 73939133 H1 H2).
Defined.
